(** * Recursive Partitioning Algorithm: a shallow embedding of the packing core

    The development follows the C++ sources file by file:

    - [Codec]      the bit-packed memo records of util.h / main.cpp / draw.cpp;
    - [Sets]       sets.cpp and the normalisation table built by bd.cpp;
    - [Bounds]     the homogeneous lower bound and Barnes's bound of bd.cpp;
    - [FiveBlock]  initialize, solve, BD and solve_BD of bd.cpp;
    - [DrawBD]     the rectangle reconstruction of draw_bd.cpp;
    - [LPiece]     util.cpp: normalizePiece, the subdivisions B1..B9, LIndex;
    - [LSolver]    the L-solver of main.cpp;
    - [Pack]       the entry point pack of main.cpp and draw of draw.cpp.

    C++ [int] values are integers of [Z].  Where the sources multiply
    sides or numbers of raster points (the bounds of bd.cpp, [LIndex] and
    [getKey] of util.cpp) and in the record codec, the 32-bit width is
    written out: a product, sum or difference is reduced to the signed
    32-bit range, and a division or remainder by zero has no result.
    Coordinates, counts of boxes and the areas of L-pieces are written as
    plain sums and products: they stay below [2^31] for a pallet within the
    11 bits per coordinate that the record codec allows.  The output of
    [MakeJsonString] goes through [float], whose rounding is written out
    too.  Reading an array outside its bounds or before it was written has
    no defined result in C++; the embedding makes such a read return
    [Undef]. *)

From Stdlib Require Import ZArith Lia Bool.
From stdpp Require Import base option list gmap numbers.

Open Scope Z_scope.

(** ** Results of effectful code *)

Inductive result (A : Type) : Type :=
| Ok (a : A)
| Undef
| OutOfFuel.
Arguments Ok {A} a.
Arguments Undef {A}.
Arguments OutOfFuel {A}.

#[global] Instance result_ret : MRet result := fun A a => Ok a.
#[global] Instance result_bind : MBind result := fun A B f m =>
  match m with
  | Ok a => f a
  | Undef => Undef
  | OutOfFuel => OutOfFuel
  end.

(** An array read [a[i]]: defined when [0 <= i < length a]. *)
Definition rd {A} (a : list A) (i : Z) : result A :=
  if bool_decide (0 <= i) then
    match a !! Z.to_nat i with Some v => Ok v | None => Undef end
  else Undef.

(** An array write [a[i] = v]: defined when [0 <= i < length a]. *)
Definition wr {A} (a : list A) (i : Z) (v : A) : result (list A) :=
  if bool_decide (0 <= i < Z.of_nat (length a)) then Ok (<[Z.to_nat i := v]> a)
  else Undef.

(** Reading a cell of an index array that is allocated with [new int[n]] and
    written only at some indices. *)
Definition rdm (m : gmap Z Z) (i : Z) : result Z :=
  match m !! i with Some v => Ok v | None => Undef end.

(** C++ integer division and remainder truncate towards zero. *)
Definition cdiv (a b : Z) : Z := a ÷ b.
Definition cmod (a b : Z) : Z := a `rem` b.

(** ** The record codec (util.h, main.cpp, draw.cpp) *)

Module Codec.

Definition HOMOGENEOUS : Z := 0.
Definition B1 : Z := 1.
Definition B2 : Z := 2.
Definition B3 : Z := 3.
Definition B4 : Z := 4.
Definition B5 : Z := 5.
Definition B6 : Z := 6.
Definition B7 : Z := 7.
Definition B8 : Z := 8.
Definition B9 : Z := 9.

Definition ptoDiv1 : Z := 2047.
Definition ptoDiv2 : Z := 4192256.
Definition ptoDiv3 : Z := 4290772992.

Definition nRet : Z := 134217727.
Definition solucao : Z := 2013265920.
Definition descSol : Z := 27.

Definition descPtoDiv2 : Z := 11.
Definition descPtoDiv3 : Z := 22.

(** A value stored in an [int]: reduced to the signed 32-bit range. *)
Definition to_int32 (z : Z) : Z := (z + 2^31) mod 2^32 - 2^31.

(** An [int] converted to [unsigned int], as happens when it meets one of the
    unsigned masks [ptoDiv1], [ptoDiv2], [ptoDiv3]. *)
Definition to_uint32 (z : Z) : Z := z mod 2^32.

(** [count | (tag << descSol)], stored in [solution[L]]. *)
Definition packSolution (c t : Z) : Z :=
  to_int32 (Z.lor c (Z.shiftl t descSol)).

(** [i_k[0] | (i_k[1] << descPtoDiv2) | (i_k[2] << descPtoDiv3)], stored in
    [divisionPoint[L]]. *)
Definition packDivision (d1 d2 d3 : Z) : Z :=
  to_int32 (Z.lor (Z.lor d1 (Z.shiftl d2 descPtoDiv2)) (Z.shiftl d3 descPtoDiv3)).

(** [solution[L] & nRet] *)
Definition solCount (s : Z) : Z := Z.land s nRet.

(** [(solution[L] & solucao) >> descSol] *)
Definition solTag (s : Z) : Z := Z.shiftr (Z.land s solucao) descSol.

(** [divisionPoint[L] & ptoDiv1] *)
Definition div1 (p : Z) : Z := Z.land (to_uint32 p) ptoDiv1.

(** [(divisionPoint[L] & ptoDiv2) >> descPtoDiv2] *)
Definition div2 (p : Z) : Z :=
  Z.shiftr (Z.land (to_uint32 p) ptoDiv2) descPtoDiv2.

(** [(divisionPoint[L] & ptoDiv3) >> descPtoDiv3] *)
Definition div3 (p : Z) : Z :=
  Z.shiftr (Z.land (to_uint32 p) ptoDiv3) descPtoDiv3.

End Codec.

(** ** Arithmetic of [int] *)

(** [a * b], [a + b] and [a - b] of two [int]s, reduced to 32 bits. *)
Definition mul32 (a b : Z) : Z := Codec.to_int32 (a * b).
Definition add32 (a b : Z) : Z := Codec.to_int32 (a + b).
Definition sub32 (a b : Z) : Z := Codec.to_int32 (a - b).

(** [a / b] and [a % b] of two [int]s: no result when [b] is 0, nor when the
    quotient does not fit. *)
Definition div32 (a b : Z) : result Z :=
  if bool_decide (b = 0 ∨ (a = - 2^31 ∧ b = -1)) then Undef else Ok (cdiv a b).
Definition mod32 (a b : Z) : result Z :=
  if bool_decide (b = 0 ∨ (a = - 2^31 ∧ b = -1)) then Undef else Ok (cmod a b).

(** ** Integer sets and the normalisation table (sets.cpp, bd.cpp) *)

Module Sets.

(** A [Set] is the array [points[0 .. size-1]]; every set of the program is
    allocated with room for all the points it ever receives. *)
Definition set := list Z.

(** [insert]: append the element when the set is empty or its last point is
    smaller. *)
Definition insert (element : Z) (s : set) : set :=
  match list.last s with
  | None => s ++ [element]
  | Some p => if bool_decide (p < element) then s ++ [element] else s
  end.

(** The loops [for (i = size - 1; i >= 0 && points[i] > L; i--) size--]:
    [below L (reverse points)] is what is left of the points, last one
    first. *)
Fixpoint below (L : Z) (rpoints : list Z) : list Z :=
  match rpoints with
  | [] => []
  | p :: rest => if bool_decide (p > L) then below L rest else rpoints
  end.

(** [for (i = size - 1; i >= 0; i--) insert (normalize[L - points[i]])] *)
Fixpoint rasterLoop (normalize : list Z) (L : Z) (rpoints : list Z) (acc : set)
  : result set :=
  match rpoints with
  | [] => Ok acc
  | p :: rest =>
      x ← rd normalize (L - p);
      rasterLoop normalize L rest (insert x acc)
  end.

(** [constructRasterPoints]: the raster points of a rectangle [(L, W)]. *)
Definition constructRasterPoints (normalize : list Z) (L W : Z)
    (conicCombinations : set) : result (set * set) :=
  rasterPointsX ← rasterLoop normalize L (below L (reverse conicCombinations)) [];
  rasterPointsY ← rasterLoop normalize W (below W (reverse conicCombinations)) [];
  Ok (rasterPointsX, rasterPointsY).

(** [for (i = from; i <= L; i++) if (c[i] < c[i - step] + step) c[i] = ...],
    with [n] the number of iterations left. *)
Fixpoint conicLoop (step : Z) (n : nat) (i : Z) (c : list Z) : result (list Z) :=
  match n with
  | O => Ok c
  | S n' =>
      ci ← rd c i;
      cp ← rd c (i - step);
      c' ← (if bool_decide (ci < cp + step) then wr c i (cp + step) else Ok c);
      conicLoop step n' (i + 1) c'
  end.

(** [for (i = 1; i <= L; i++) if (c[i] == i && inX[i] == 0) ...] *)
Fixpoint collectLoop (c : list Z) (n : nat) (i : Z) (inX : list Z) (X : set)
  : result set :=
  match n with
  | O => Ok X
  | S n' =>
      ci ← rd c i;
      if bool_decide (ci = i) then
        f ← rd inX i;
        if bool_decide (f = 0) then
          inX' ← wr inX i 1;
          collectLoop c n' (i + 1) inX' (X ++ [i])
        else collectLoop c n' (i + 1) inX X
      else collectLoop c n' (i + 1) inX X
  end.

(** [constructConicCombinations]: the set [X] for the length [L]. *)
Definition constructConicCombinations (L l w : Z) : result set :=
  let zeros := replicate (Z.to_nat (L + 2)) 0 in
  inX ← wr zeros 0 1;
  c ← conicLoop l (Z.to_nat (L - l + 1)) l zeros;
  c ← conicLoop w (Z.to_nat (L - w + 1)) w c;
  X ← collectLoop c (Z.to_nat L) 1 inX [0];
  lastX ← rd X (Z.of_nat (length X) - 1);
  if bool_decide (lastX ≠ L) then Ok (X ++ [L]) else Ok X.

(** The scan [for (; i < size && points[i] <= j; i++);] of [initialize]:
    [prev] is [points[i-1]] when [i > 0], [rest] is [points[i ..]]. *)
Fixpoint advance (j : Z) (prev : option Z) (rest : list Z) : option Z * list Z :=
  match rest with
  | [] => (prev, [])
  | p :: rest' =>
      if bool_decide (p <= j) then advance j (Some p) rest' else (prev, rest)
  end.

(** [for (j = 0; j <= L; j++) { scan; normalize[j] = points[i - 1]; }] *)
Fixpoint normalizeLoop (n : nat) (j : Z) (prev : option Z) (rest : list Z)
    (acc : list Z) : result (list Z) :=
  match n with
  | O => Ok acc
  | S n' =>
      let '(prev', rest') := advance j prev rest in
      match prev' with
      | None => Undef
      | Some v => normalizeLoop n' (j + 1) prev' rest' (acc ++ [v])
      end
  end.

(** The table [normalize[0 .. L]] of [initialize]. *)
Definition buildNormalize (L : Z) (X : set) : result (list Z) :=
  normalizeLoop (Z.to_nat (L + 1)) 0 None X [].

End Sets.

(** ** Bounds (bd.cpp) *)

Module Bounds.

(** The macro [lowerBound(L, W, l, w)]: the better homogeneous packing,
    [std::max ((L / l) * (W / w), (L / w) * (W / l))]. *)
Definition lowerBoundH (L W l w : Z) : result Z :=
  a1 ← div32 L l;
  a2 ← div32 W w;
  b1 ← div32 L w;
  b2 ← div32 W l;
  Ok (Z.max (mul32 a1 a2) (mul32 b1 b2)).

(** [barnesBound]: Barnes's upper bound. *)
Definition barnesBound (L W l w : Z) : result Z :=
  minWaste ← mod32 (mul32 L W) (mul32 l w);
  (* (l,1)-boxes packing *)
  r ← mod32 L l;
  s ← mod32 W l;
  let A := Z.min (mul32 r s) (mul32 (sub32 l r) (sub32 l s)) in
  (* (1,w)-boxes packing *)
  r ← mod32 L w;
  s ← mod32 W w;
  let B := Z.min (mul32 r s) (mul32 (sub32 w r) (sub32 w s)) in
  let maxAB := Z.max A B in
  m ← mod32 maxAB (mul32 l w);
  D ← (if bool_decide (minWaste >= m) then
         q ← div32 maxAB (mul32 l w);
         Ok (add32 (mul32 q (mul32 l w)) minWaste)
       else
         q ← div32 maxAB (mul32 l w);
         Ok (add32 (mul32 (add32 q 1) (mul32 l w)) minWaste));
  div32 (sub32 (mul32 L W) D) (mul32 l w).

End Bounds.

(** ** The five-block solver (bd.cpp) *)

Module FiveBlock.
Import Sets Bounds.

Definition INFINITY_ : Z := 2000000000.

(** [struct CutPoint]; the four coordinates of a cell are not written before
    [storeCutPoint] writes the cell. *)
Record CutPoint : Type := mkCutPoint {
  coords : option (Z * Z * Z * Z);
  homogeneous : Z
}.

(** The global arrays of bd.cpp and main.cpp, with the box sides [l], [w]
    and the depth limit [N]. *)
Record Tables : Type := mkTables {
  boxl : Z;
  boxw : Z;
  depthN : Z;
  normalize : list Z;
  normalSetX : set;
  indexX : gmap Z Z;
  indexY : gmap Z Z;
  upperBound : list (list Z);
  lowerBound : list (list Z);
  solutionDepth : list (list Z);
  reachedLimit : list (list Z);
  cutPoints : list (list CutPoint)
}.

Definition set_lowerBound (v : list (list Z)) (t : Tables) : Tables :=
  mkTables (boxl t) (boxw t) (depthN t) (normalize t) (normalSetX t) (indexX t)
    (indexY t) (upperBound t) v (solutionDepth t) (reachedLimit t) (cutPoints t).
Definition set_solutionDepth (v : list (list Z)) (t : Tables) : Tables :=
  mkTables (boxl t) (boxw t) (depthN t) (normalize t) (normalSetX t) (indexX t)
    (indexY t) (upperBound t) (lowerBound t) v (reachedLimit t) (cutPoints t).
Definition set_reachedLimit (v : list (list Z)) (t : Tables) : Tables :=
  mkTables (boxl t) (boxw t) (depthN t) (normalize t) (normalSetX t) (indexX t)
    (indexY t) (upperBound t) (lowerBound t) (solutionDepth t) v (cutPoints t).
Definition set_cutPoints (v : list (list CutPoint)) (t : Tables) : Tables :=
  mkTables (boxl t) (boxw t) (depthN t) (normalize t) (normalSetX t) (indexX t)
    (indexY t) (upperBound t) (lowerBound t) (solutionDepth t) (reachedLimit t) v.

(** [m[i][j]] and [m[i][j] = v] *)
Definition rd2 {A} (m : list (list A)) (i j : Z) : result A :=
  row ← rd m i; rd row j.
Definition wr2 {A} (m : list (list A)) (i j : Z) (v : A) : result (list (list A)) :=
  row ← rd m i; row' ← wr row j v; wr m i row'.

Definition write_lowerBound (i j v : Z) (t : Tables) : result Tables :=
  m ← wr2 (lowerBound t) i j v; Ok (set_lowerBound m t).
Definition write_solutionDepth (i j v : Z) (t : Tables) : result Tables :=
  m ← wr2 (solutionDepth t) i j v; Ok (set_solutionDepth m t).
Definition write_reachedLimit (i j v : Z) (t : Tables) : result Tables :=
  m ← wr2 (reachedLimit t) i j v; Ok (set_reachedLimit m t).

(** [localUpperBound] *)
Definition localUpperBound (t : Tables) (iX iY : Z) : result Z :=
  d ← rd2 (solutionDepth t) iX iY;
  if bool_decide (d = -1) then rd2 (lowerBound t) iX iY
  else rd2 (upperBound t) iX iY.

(** [storeCutPoint] *)
Definition storeCutPoint (L W x1 x2 y1 y2 : Z) (t : Tables) : result Tables :=
  iL ← rdm (indexX t) L;
  iW ← rdm (indexY t) W;
  m ← wr2 (cutPoints t) iL iW (mkCutPoint (Some (x1, x2, y1, y2)) 0);
  Ok (set_cutPoints m t).

(** The two loops of [initialize] and of [makeIndices] that merge the raster
    points of the two sides, up to [L_n] and [W_n]. *)
Fixpoint mergeLoop (L_n W_n : Z) (xs : list Z) : list Z → list Z → list Z * list Z :=
  fix inner (ys acc : list Z) {struct ys} : list Z * list Z :=
    match xs, ys with
    | x :: xs', y :: ys' =>
        if bool_decide (x <= L_n ∧ y <= W_n) then
          if bool_decide (x = y) then mergeLoop L_n W_n xs' ys' (acc ++ [x])
          else if bool_decide (x < y) then mergeLoop L_n W_n xs' ys (acc ++ [x])
          else inner ys' (acc ++ [y])
        else (acc, xs)
    | _, _ => (acc, xs)
    end.

Fixpoint drainLoop (L_n : Z) (xs acc : list Z) : result (list Z) :=
  match xs with
  | [] => Ok acc
  | x :: xs' =>
      if bool_decide (x <= L_n) then
        match list.last acc with
        | None => Undef
        | Some p => drainLoop L_n xs' (if bool_decide (x > p) then acc ++ [x] else acc)
        end
      else Ok acc
  end.

Definition mergeRaster (L_n W_n : Z) (rasterX rasterY : set) : result set :=
  let '(acc, xs) := mergeLoop L_n W_n rasterX rasterY [] in
  acc ← drainLoop L_n xs acc;
  let acc := match list.last acc with
             | Some p => if bool_decide (p < L_n) then acc ++ [L_n] else acc
             | None => acc
             end in
  Ok (acc ++ [L_n + 1]).

(** [for (i = 0; i < size; i++) indexX[points[i]] = i] *)
Fixpoint indexXLoop (i : Z) (points : list Z) (m : gmap Z Z) : gmap Z Z :=
  match points with
  | [] => m
  | p :: rest => indexXLoop (i + 1) rest (<[p := i]> m)
  end.

(** The loop that fills [indexY] and counts [ySize]. *)
Fixpoint indexYLoop (W_n : Z) (i : Z) (points : list Z) (m : gmap Z Z)
  : gmap Z Z * Z :=
  match points with
  | [] => (m, i)
  | p :: rest =>
      if bool_decide (p > W_n) then (m, i)
      else indexYLoop W_n (i + 1) rest (<[p := i]> m)
  end.

(** [for (i = 0; i < n; i++) a[i] = f (x_i)], for a body that may have no
    result. *)
Fixpoint mapR {A B} (f : A → result B) (xs : list A) : result (list B) :=
  match xs with
  | [] => Ok []
  | x :: xs' => y ← f x; ys ← mapR f xs'; Ok (y :: ys)
  end.

(** [initialize]; the last loop computes [upperBound[i][j]] and
    [lowerBound[i][j]] cell by cell. *)
Definition initialize (N L W l w : Z) : result Tables :=
  X ← constructConicCombinations L l w;
  normalize ← buildNormalize L X;
  L_n ← rd normalize L;
  W_n ← rd normalize W;
  '(rasterX, rasterY) ← constructRasterPoints normalize L W X;
  points ← mergeRaster L_n W_n rasterX rasterY;
  let indexX := indexXLoop 0 points ∅ in
  let '(indexY, ySize) := indexYLoop W_n 0 points ∅ in
  let ys := take (Z.to_nat ySize) points in
  let table {A} (f : Z → Z → A) : list (list A) :=
    (λ x, (λ y, f x y) <$> ys) <$> points in
  let cells : result (list (list (Z * Z))) :=
    mapR (λ x, mapR (λ y,
      ub ← barnesBound x y l w;
      lb ← lowerBoundH x y l w;
      Ok (ub, lb)) ys) points in
  bounds ← cells;
  Ok (mkTables l w N normalize points indexX indexY
        ((λ row : list (Z * Z), fst <$> row) <$> bounds)
        ((λ row : list (Z * Z), snd <$> row) <$> bounds)
        (table (λ _ _, N))
        (table (λ _ _, 1))
        (table (λ _ _, mkCutPoint None 1))).

(** A [for] loop over the points of a raster set from some index on, with a
    condition on the current point that ends the loop ([cond]) and a body
    that may make the enclosing function return ([true]).  The body receives
    the point and the points after it. *)
Fixpoint scan {S : Type} (cond : Z → bool)
    (body : Z → list Z → S → result (bool * S)) (points : list Z) (s : S)
  : result (bool * S) :=
  match points with
  | [] => Ok (false, s)
  | p :: rest =>
      if cond p then
        '(stop, s') ← body p rest s;
        if stop : bool then Ok (true, s') else scan cond body rest s'
      else Ok (false, s)
  end.

(** The first loop of [solve]: normalise partition [i], order its sides and
    look up its indices; the result is [(L_[i], W_[i], iX[i], iY[i])]. *)
Definition normBlock (t : Tables) (b : Z * Z) : result (Z * Z * Z * Z) :=
  Li ← rd (normalize t) b.1;
  Wi ← rd (normalize t) b.2;
  let '(Li, Wi) := if bool_decide (Li < Wi) then (Wi, Li) else (Li, Wi) in
  iX ← rdm (indexX t) Li;
  iY ← rdm (indexY t) Wi;
  Ok (Li, Wi, iX, iY).

Fixpoint normBlocks (t : Tables) (bs : list (Z * Z)) : result (list (Z * Z * Z * Z)) :=
  match bs with
  | [] => Ok []
  | b :: bs' => nb ← normBlock t b; r ← normBlocks t bs'; Ok (nb :: r)
  end.

(** The sums of the bounds of the partitions, with the bounds themselves. *)
Fixpoint sumBounds (t : Tables) (bs : list (Z * Z * Z * Z))
  : result (Z * Z * list (Z * Z)) :=
  match bs with
  | [] => Ok (0, 0, [])
  | (_, _, iX, iY) :: bs' =>
      zi_lb ← rd2 (lowerBound t) iX iY;
      zi_ub ← localUpperBound t iX iY;
      '(S_lb, S_ub, zs) ← sumBounds t bs';
      Ok (zi_lb + S_lb, zi_ub + S_ub, (zi_lb, zi_ub) :: zs)
  end.

(** The state of one partitioning attempt. *)
Record Attempt : Type := mkAttempt {
  S_lb : Z;
  S_ub : Z;
  z_lb : Z;
  tables : Tables
}.

(** What ends the loop over the partitions. *)
Inductive Exit : Type := Continue | Break | Return1.

(** One round of the loop over the partitions in [solve] (depth below [N]). *)
Definition solveStep (rec : Tables → Z → Z → Z → result (Z * Tables))
    (L W n z_ub : Z) (cut : Z * Z * Z * Z)
    (blk : Z * Z * Z * Z) (zi : Z * Z) (a : Attempt) : result (Exit * Attempt) :=
  let '(Li, Wi, iX, iY) := blk in
  let '(zi_lb, zi_ub) := zi in
  let t := tables a in
  d ← rd2 (solutionDepth t) iX iY;
  '(z, t) ←
    (if bool_decide (d > n) then
       '(z, t) ← rec t Li Wi (n + 1);
       t ← write_lowerBound iX iY z t;
       r ← rd2 (reachedLimit t) iX iY;
       t ← write_solutionDepth iX iY (if bool_decide (r = 0) then -1 else n) t;
       Ok (z, t)
     else
       z ← rd2 (lowerBound t) iX iY; Ok (z, t));
  r ← rd2 (reachedLimit t) iX iY;
  iL ← rdm (indexX t) L;
  iW ← rdm (indexY t) W;
  t ← (if bool_decide (r = 1) then write_reachedLimit iL iW 1 t else Ok t);
  let S_lb := S_lb a - zi_lb + z in
  let S_ub := S_ub a - zi_ub + z in
  if bool_decide (z_lb a >= S_ub) then Ok (Break, mkAttempt S_lb S_ub (z_lb a) t)
  else if bool_decide (S_lb > z_lb a) then
    let '(x1, x2, y1, y2) := cut in
    t ← storeCutPoint L W x1 x2 y1 y2 t;
    if bool_decide (S_lb = z_ub) then
      t ← write_solutionDepth iL iW (-1) t;
      t ← write_reachedLimit iL iW 0 t;
      Ok (Return1, mkAttempt S_lb S_ub S_lb t)
    else Ok (Continue, mkAttempt S_lb S_ub S_lb t)
  else Ok (Continue, mkAttempt S_lb S_ub (z_lb a) t).

Fixpoint solveLoop (rec : Tables → Z → Z → Z → result (Z * Tables))
    (L W n z_ub : Z) (cut : Z * Z * Z * Z)
    (blks : list (Z * Z * Z * Z)) (zs : list (Z * Z)) (a : Attempt)
  : result (bool * Attempt) :=
  match blks, zs with
  | blk :: blks', zi :: zs' =>
      '(e, a') ← solveStep rec L W n z_ub cut blk zi a;
      match e with
      | Continue => solveLoop rec L W n z_ub cut blks' zs' a'
      | Break => Ok (false, a')
      | Return1 => Ok (true, a')
      end
  | _, _ => Ok (false, a)
  end.

Fixpoint sumLower (t : Tables) (bs : list (Z * Z * Z * Z)) : result Z :=
  match bs with
  | [] => Ok 0
  | (_, _, iX, iY) :: bs' =>
      v ← rd2 (lowerBound t) iX iY; s ← sumLower t bs'; Ok (v + s)
  end.

(** [solve] of bd.cpp: try the partitioning [blocks] of [(L, W)] given by the
    cut [(x1, x2, y1, y2)]; the result is the returned flag with the new
    [z_lb] and tables. *)
Definition solve (rec : Tables → Z → Z → Z → result (Z * Tables))
    (L W n : Z) (blocks : list (Z * Z)) (z_ub : Z) (cut : Z * Z * Z * Z)
    (st : Z * Tables) : result (bool * (Z * Tables)) :=
  let '(z_lb, t) := st in
  blks ← normBlocks t blocks;
  if bool_decide (n < depthN t) then
    '(S_lb, S_ub, zs) ← sumBounds t blks;
    if bool_decide (z_lb < S_ub) then
      '(ret, a) ← solveLoop rec L W n z_ub cut blks zs (mkAttempt S_lb S_ub z_lb t);
      Ok (ret, (FiveBlock.z_lb a, tables a))
    else Ok (false, (z_lb, t))
  else
    iL ← rdm (indexX t) L;
    iW ← rdm (indexY t) W;
    t ← write_reachedLimit iL iW 1 t;
    S_lb ← sumLower t blks;
    if bool_decide (S_lb > z_lb) then
      let '(x1, x2, y1, y2) := cut in
      t ← storeCutPoint L W x1 x2 y1 y2 t;
      if bool_decide (S_lb = z_ub) then
        t ← write_solutionDepth iL iW (-1) t;
        t ← write_reachedLimit iL iW 0 t;
        Ok (true, (S_lb, t))
      else Ok (false, (S_lb, t))
    else Ok (false, (z_lb, t)).

(** The body of [BD], with [rec] for its recursive calls. *)
Definition BD_body (rec : Tables → Z → Z → Z → result (Z * Tables))
    (t : Tables) (L W n : Z) : result (Z * Tables) :=
  let '(L, W) := if bool_decide (W > L) then (W, L) else (L, W) in
  iL ← rdm (indexX t) L;
  iW ← rdm (indexY t) W;
  z_lb ← rd2 (lowerBound t) iL iW;
  z_ub ← localUpperBound t iL iW;
  if bool_decide (z_lb = 0 ∨ z_lb = z_ub) then
    t ← write_solutionDepth iL iW (-1) t;
    t ← write_reachedLimit iL iW 0 t;
    Ok (z_lb, t)
  else
    '(rasterX, rasterY) ← constructRasterPoints (normalize t) L W (normalSetX t);
    t ← write_reachedLimit iL iW 0 t;
    (* first order non-guillotine cuts *)
    '(solved, st) ←
      scan (λ x1, bool_decide (x1 <= cdiv L 2)) (λ x1 afterX1 st,
        scan (λ x2, bool_decide (x2 + x1 <= L)) (λ x2 _ st,
          scan (λ y1, bool_decide (y1 < W)) (λ y1 afterY1 st,
            scan (λ y2, bool_decide (y2 < W)
                        && negb (bool_decide (x1 + x2 = L ∧ y1 + y2 > W)))
              (λ y2 _ st,
                solve rec L W n
                  [(x1, W - y1); (L - x1, W - y2); (x2 - x1, y2 - y1);
                   (x2, y1); (L - x2, y2)]
                  z_ub (x1, x2, y1, y2) st)
              afterY1 st)
            (drop 1 rasterY) st)
          afterX1 st)
        (drop 1 rasterX) (z_lb, t);
    if solved : bool then Ok st else
    (* vertical guillotine cuts *)
    '(solved, st) ←
      scan (λ x1, bool_decide (x1 <= cdiv L 2)) (λ x1 _ st,
        solve rec L W n [(x1, W - 0); (L - x1, W - 0)] z_ub (x1, x1, 0, 0) st)
        (drop 1 rasterX) st;
    if solved : bool then Ok st else
    (* horizontal guillotine cuts *)
    '(solved, st) ←
      scan (λ y1, bool_decide (y1 <= cdiv W 2)) (λ y1 _ st,
        solve rec L W n [(L - 0, W - y1); (L - 0, y1)] z_ub (0, 0, y1, y1) st)
        (drop 1 rasterY) st;
    Ok st.

(** [BD]: the recursion is unfolded [fuel] times. *)
Fixpoint BD (fuel : nat) (t : Tables) (L W n : Z) : result (Z * Tables) :=
  match fuel with
  | O => OutOfFuel
  | S fuel' => BD_body (BD fuel') t L W n
  end.

(** [solve_BD]; the arrays [reachedLimit] and [solutionDepth] are released
    at the end and the others stay for the reconstruction. *)
Definition solve_BD (L W l w N_max : Z) : result (Z * Tables) :=
  let N := if bool_decide (N_max <= 0) then INFINITY_ else N_max in
  let '(L, W) := if bool_decide (W > L) then (W, L) else (L, W) in
  t ← initialize N L W l w;
  L_n ← rd (normalize t) L;
  W_n ← rd (normalize t) W;
  '(solution, t) ← BD (S (Z.to_nat (L_n * W_n))) t L_n W_n N;
  iL ← rdm (indexX t) L_n;
  iW ← rdm (indexY t) W_n;
  t ← write_lowerBound iL iW solution t;
  Ok (solution, t).

End FiveBlock.

(** ** Reconstruction of rectangles (draw_bd.cpp) *)

Module DrawBD.
Import Sets Bounds FiveBlock.

Definition HORIZONTAL : Z := 0.
Definition VERTICAL : Z := 1.

(** A row of [ptoRet]: the corners [(row[0], row[1])] and [(row[2], row[3])]
    of a box. *)
Definition Box : Type := Z * Z * Z * Z.

(** The rows of [ptoRet] (not written at first) and [boxesDrawn]. *)
Record Canvas : Type := mkCanvas {
  ptoRet : list (option Box);
  boxesDrawn : Z
}.

(** [boxOrientation] *)
Definition boxOrientation (l w x y : Z) : Z :=
  let a := cdiv x l * cdiv y w in
  let b := cdiv x w * cdiv y l in
  if bool_decide (a > b) then HORIZONTAL else VERTICAL.

(** [for (i = 0; i + step <= limit; i += step) body (i)]; a positive [step]
    ends the loop within [limit] rounds. *)
Fixpoint stepLoop {S : Type} (fuel : nat) (step limit i : Z)
    (body : Z → S → result S) (s : S) : result S :=
  if bool_decide (i + step <= limit) then
    match fuel with
    | O => OutOfFuel
    | S fuel' => s' ← body i s; stepLoop fuel' step limit (i + step) body s'
    end
  else Ok s.

(** The four assignments to [ptoRet[boxesDrawn]] and [boxesDrawn++]. *)
Definition putBox (b : Box) (c : Canvas) : result Canvas :=
  rows ← wr (ptoRet c) (boxesDrawn c) (Some b);
  Ok (mkCanvas rows (boxesDrawn c + 1)).

(** [drawHomogeneous] *)
Definition drawHomogeneous (l w x y dx dy : Z) (c : Canvas) : result Canvas :=
  let corte := boxOrientation l w x y in
  if bool_decide (corte = HORIZONTAL) then
    stepLoop (Z.to_nat x) l x 0 (λ i c,
      stepLoop (Z.to_nat y) w y 0 (λ j c,
        putBox (i + dx, j + dy, i + l + dx, j + w + dy) c) c) c
  else
    stepLoop (Z.to_nat x) w x 0 (λ i c,
      stepLoop (Z.to_nat y) l y 0 (λ j c,
        putBox (i + dx, j + dy, i + w + dx, j + l + dy) c) c) c.

(** [getSubproblems]: the sides [(L_[i], W_[i])], [i = 1 .. 5]. *)
Definition getSubproblems (t : Tables) (cutPoint : CutPoint) (L W : Z)
  : result (list (Z * Z)) :=
  match coords cutPoint with
  | None => Undef
  | Some (x1, x2, y1, y2) =>
      W1 ← rd (normalize t) (W - y1);
      L2 ← rd (normalize t) (L - x1);
      W2 ← rd (normalize t) (W - y2);
      L3 ← rd (normalize t) (x2 - x1);
      W3 ← rd (normalize t) (y2 - y1);
      L5 ← rd (normalize t) (L - x2);
      Ok [(x1, W1); (L2, W2); (L3, W3); (x2, y1); (L5, y2)]
  end.

(** The test that guards the recursive calls of [drawNormal] and
    [drawRotation]. *)
Definition drawable (L W Li Wi : Z) : bool :=
  bool_decide (Li ≠ 0) && bool_decide (Wi ≠ 0)
  && negb (bool_decide ((Li = L ∧ Wi = W) ∨ (Li = W ∧ Wi = L))).

(** The loop [for (i = 1; i <= 5; i++)] over the subproblems, each with the
    offsets of its [case]. *)
Fixpoint drawBlocks (rec : Z → Z → Z → Z → Canvas → result Canvas)
    (L W : Z) (blocks : list (Z * Z * Z * Z)) (c : Canvas) : result Canvas :=
  match blocks with
  | [] => Ok c
  | (Li, Wi, dx, dy) :: rest =>
      c' ← (if drawable L W Li Wi then rec Li Wi dx dy c else Ok c);
      drawBlocks rec L W rest c'
  end.

(** [drawNormal] *)
Definition drawNormal (rec : Z → Z → Z → Z → Canvas → result Canvas)
    (t : Tables) (L W dx dy : Z) (c : Canvas) : result Canvas :=
  iX ← rdm (indexX t) L;
  iY ← rdm (indexY t) W;
  cp ← rd2 (cutPoints t) iX iY;
  if bool_decide (homogeneous cp ≠ 0) then
    drawHomogeneous (boxl t) (boxw t) L W dx dy c
  else
    sub ← getSubproblems t cp L W;
    match sub with
    | [(L1, W1); (L2, W2); (L3, W3); (L4, W4); (L5, W5)] =>
        drawBlocks rec L W
          [(L1, W1, dx, dy + W4);
           (L2, W2, dx + L1, dy + W5);
           (L3, W3, dx + L1, dy + W4);
           (L4, W4, dx, dy);
           (L5, W5, dx + L4, dy)] c
    | _ => Undef
    end.

(** [drawRotation]: the sides are exchanged for the look-up and every
    subproblem is drawn with its sides exchanged. *)
Definition drawRotation (rec : Z → Z → Z → Z → Canvas → result Canvas)
    (t : Tables) (L W dx dy : Z) (c : Canvas) : result Canvas :=
  let '(L, W) := (W, L) in
  iX ← rdm (indexX t) L;
  iY ← rdm (indexY t) W;
  cp ← rd2 (cutPoints t) iX iY;
  if bool_decide (homogeneous cp ≠ 0) then
    drawHomogeneous (boxl t) (boxw t) W L dx dy c
  else
    sub ← getSubproblems t cp L W;
    match sub with
    | [(L1, W1); (L2, W2); (L3, W3); (L4, W4); (L5, W5)] =>
        drawBlocks rec L W
          [(W1, L1, dx + W4, dy + L2);
           (W2, L2, dx + W5, dy);
           (W3, L3, dx + W4, dy + L5);
           (W4, L4, dx, dy + L5);
           (W5, L5, dx, dy)] c
    | _ => Undef
    end.

(** [draw (L, W, dx, dy)]: the recursion is unfolded [fuel] times. *)
Fixpoint draw (fuel : nat) (t : Tables) (L W dx dy : Z) (c : Canvas)
  : result Canvas :=
  match fuel with
  | O => OutOfFuel
  | S fuel' =>
      if bool_decide (L >= W) then drawNormal (draw fuel' t) t L W dx dy c
      else drawRotation (draw fuel' t) t L W dx dy c
  end.

(** [drawBD]: [boxesDrawn = ret; draw (L, W, 0, 0); return boxesDrawn]. *)
Definition drawBD (t : Tables) (L W : Z) (rows : list (option Box)) (ret : Z)
  : result (list (option Box) * Z) :=
  c ← draw (S (Z.to_nat (L * W))) t L W 0 0 (mkCanvas rows ret);
  Ok (ptoRet c, boxesDrawn c).

End DrawBD.

(** ** The entry point (main.cpp) and the output (draw.cpp) *)

Module Pack.
Import Sets Bounds FiveBlock DrawBD.

(** The value of a [float]: the nearest number with a significand of 24
    bits, the even one of two nearest.  The numbers of [MakeJsonString] are
    integers and halves of integers far from the ends of the exponent
    range, and a scaling by 2 does not change the significand, so the
    rounding is stated for integers and used for doubled values as well. *)
Definition roundFloat (z : Z) : Z :=
  let m := Z.abs z in
  if bool_decide (m < 2^24) then z
  else
    let e := Z.log2 m - 23 in
    let q := m / 2^e in
    let r := m mod 2^e in
    let q' := if bool_decide (2 * r < 2^e) then q
              else if bool_decide (2^e < 2 * r) then q + 1
              else if Z.even q then q else q + 1 in
    Z.sgn z * (q' * 2^e).

(** One object of the JSON text.  The coordinates of the centre are halves
    of integers; [x2] and [y2] are twice the values written under the keys
    "x" and "y" ([std::to_string] writes them with six decimals, which is
    exact for them).  [box] is the row of [ptoRet] the object is made
    from. *)
Record Placement : Type := mkPlacement {
  box : Box;
  x2 : Z;
  y2 : Z;
  rotated : bool
}.

(** One round of the loop of [MakeJsonString]. *)
Definition jsonObject (l w : Z) (swap : bool) (row : option Box)
  : result Placement :=
  match row with
  | None => Undef
  | Some (r0, r1, r2, r3) =>
      let sym := bool_decide (0 = l - w) in
      let cmp := if swap then l else w in
      let rotated :=
        if sym then false
        else if bool_decide (0 = r3 - r1 - cmp) then false else true in
      (* xh = (float)ptoRet[i][0], ... *)
      let xh := roundFloat r0 in
      let yh := roundFloat r1 in
      let xl := roundFloat r2 in
      let yl := roundFloat r3 in
      (* x = (xl - xh) / 2.0 + xh: the difference is a float, the quotient
         and the sum are doubles and exact, the assignment rounds to float;
         twice the value is kept *)
      let x := roundFloat (roundFloat (xl - xh) + 2 * xh) in
      let y := roundFloat (roundFloat (yl - yh) + 2 * yh) in
      Ok (mkPlacement (r0, r1, r2, r3)
            (if swap then x else y) (if swap then y else x) rotated)
  end.

(** [MakeJsonString]: the objects of the rows [0 .. n-1]. *)
Fixpoint makeJson (l w : Z) (swap : bool) (n : nat) (i : Z)
    (rows : list (option Box)) : result (list Placement) :=
  match n with
  | O => Ok []
  | S n' =>
      row ← rd rows i;
      p ← jsonObject l w swap row;
      ps ← makeJson l w swap n' (i + 1) rows;
      Ok (p :: ps)
  end.

(** [draw] of draw.cpp for [solvedWithL = false], the value [pack] passes:
    [n] rows are allocated, [drawBD] fills them and [MakeJsonString] reads
    [n] of them. *)
Definition draw (t : Tables) (q : Z * Z * Z * Z) (n : Z) (l w : Z) (swap : bool)
  : result (list Placement) :=
  let '(q0, q1, _, _) := q in
  let rows := replicate (Z.to_nat n) None in
  '(rows, ret) ← drawBD t q0 q1 rows 0;
  makeJson l w swap (Z.to_nat n) 0 rows.

(** What [pack] returns, a [const char *]: the null pointer, or
    [result.c_str ()] for the local string [result], which is destroyed when
    [pack] returns.  [Released text] is the address of a buffer that has
    been released; [text] is what the buffer held, the objects of the JSON
    text. *)
Inductive CString : Type :=
| NullPtr
| Released (text : list Placement).

(** [pack] *)
Definition pack (inL inW inl inw : Z) : result CString :=
  let L := inL in
  let W := inW in
  let l := inl in
  let w := inw in
  if bool_decide (L <= 0 ∨ W <= 0 ∨ l <= 0 ∨ w <= 0) then Ok NullPtr
  else
    let '(L, W, swap) := if bool_decide (L < W) then (W, L, true) else (L, W, false) in
    '(BD_solution, t) ← solve_BD L W l w 0;
    L_n ← rd (normalize t) L;
    W_n ← rd (normalize t) W;
    result ← draw t (L_n, W_n, L_n, W_n) BD_solution l w swap;
    Ok (Released result).

End Pack.

(** ** L-shaped pieces (util.cpp) *)

Module LPiece.

Definition MEM_TYPE_1 : Z := 1.
Definition MEM_TYPE_2 : Z := 2.
Definition MEM_TYPE_3 : Z := 3.
Definition MEM_TYPE_4 : Z := 4.

(** The L-piece [q = {q[0], q[1], q[2], q[3]}]. *)
Definition Piece : Type := Z * Z * Z * Z.

Definition q0 (q : Piece) : Z := q.1.1.1.
Definition q1 (q : Piece) : Z := q.1.1.2.
Definition q2 (q : Piece) : Z := q.1.2.
Definition q3 (q : Piece) : Z := q.2.

(** [normalizePiece]; a discarded piece has [-1] as its first component. *)
Definition normalizePiece (l w : Z) (q : Piece) : Piece :=
  let '(i, j, i1, j1) := q in
  let '(i, j, i1, j1) :=
    if bool_decide (i1 = 0) then (i, j1, i, j1)
    else if bool_decide (j1 = 0) then (i1, j, i1, j)
    else if bool_decide (i1 = i ∨ j1 = j) then (i, j, i, j)
    else (i, j, i1, j1) in
  if bool_decide (i * j - (i - i1) * (j - j1) < l * w) then
    (-1, q1 q, q2 q, q3 q)
  else
    let '(i, j, i1, j1) :=
      if bool_decide (i = i1 ∧ j = j1 ∧ i < j) then (j, i, j1, i1)
      else (i, j, i1, j1) in
    if bool_decide (0 < i1 ∧ i1 < i ∧ 0 < j1 ∧ j1 < j ∧ i < j) then (j, i, j1, i1)
    else if bool_decide (0 < i1 ∧ i1 < i ∧ 0 < j1 ∧ j1 < j ∧ i = j ∧ i1 < j1)
    then (i, j, j1, i1)
    else (i, j, i1, j1).

(** The point of a division: [i[0]], [i[1]] and, for B6 and B7, [i[2]]. *)
Definition Point : Type := Z * Z * Z.

Section StandardPosition.
Context (normalize : list Z).

Definition standardPositionB1 (i : Point) (q : Piece) : result (Piece * Piece) :=
  let '(i0, i1, _) := i in
  a ← rd normalize (q1 q - i1);
  b ← rd normalize (q1 q - q3 q);
  c ← rd normalize (q0 q - i0);
  Ok ((q2 q, a, i0, b), (q0 q, q3 q, c, i1)).

Definition standardPositionB2 (i : Point) (q : Piece) : result (Piece * Piece) :=
  let '(i0, i1, _) := i in
  a ← rd normalize (q1 q - q3 q);
  b ← rd normalize (q2 q - i0);
  c ← rd normalize (q1 q - i1);
  Ok ((q2 q, a, b, c), (q0 q, i1, i0, q3 q)).

Definition standardPositionB3 (i : Point) (q : Piece) : result (Piece * Piece) :=
  let '(i0, i1, _) := i in
  a ← rd normalize (q0 q - i0);
  b ← rd normalize (q1 q - i1);
  c ← rd normalize (q2 q - i0);
  d ← rd normalize (q3 q - i1);
  Ok ((q0 q, q1 q, i0, i1), (a, b, c, d)).

Definition standardPositionB4 (i : Point) (q : Piece) : result (Piece * Piece) :=
  let '(i0, i1, _) := i in
  a ← rd normalize (q0 q - q2 q);
  b ← rd normalize (q0 q - i0);
  c ← rd normalize (q3 q - i1);
  Ok ((i0, q1 q, q2 q, i1), (a, q3 q, b, c)).

Definition standardPositionB5 (i : Point) (q : Piece) : result (Piece * Piece) :=
  let '(i0, i1, _) := i in
  a ← rd normalize (q1 q - i1);
  b ← rd normalize (q0 q - i0);
  c ← rd normalize (q0 q - q2 q);
  Ok ((q2 q, q1 q, i0, a), (b, q3 q, c, i1)).

Definition standardPositionB6 (i : Point) (q : Piece) : result (Piece * Piece) :=
  let '(i0, i1, i2) := i in
  a ← rd normalize (q1 q - i1);
  b ← rd normalize (q0 q - i0);
  c ← rd normalize (q0 q - i2);
  Ok ((i2, q1 q, i0, a), (b, q1 q, c, i1)).

Definition standardPositionB7 (i : Point) (q : Piece) : result (Piece * Piece) :=
  let '(i0, i1, i2) := i in
  a ← rd normalize (q1 q - i1);
  b ← rd normalize (q1 q - i2);
  c ← rd normalize (q0 q - i0);
  Ok ((q0 q, a, i0, b), (q0 q, i2, c, i1)).

Definition standardPositionB8 (i : Point) (q : Piece) : result (Piece * Piece) :=
  let '(i0, i1, _) := i in
  a ← rd normalize (q1 q - i1);
  b ← rd normalize (q0 q - i0);
  c ← rd normalize (q2 q - i0);
  Ok ((q2 q, q1 q, i0, a), (b, i1, c, q3 q)).

Definition standardPositionB9 (i : Point) (q : Piece) : result (Piece * Piece) :=
  let '(i0, i1, _) := i in
  a ← rd normalize (q1 q - i1);
  b ← rd normalize (q3 q - i1);
  c ← rd normalize (q0 q - i0);
  Ok ((i0, a, q2 q, b), (q0 q, q3 q, c, i1)).

(** The subdivision with the tag [B]. *)
Definition standardPosition (B : Z) : Point → Piece → result (Piece * Piece) :=
  if bool_decide (B = 1) then standardPositionB1
  else if bool_decide (B = 2) then standardPositionB2
  else if bool_decide (B = 3) then standardPositionB3
  else if bool_decide (B = 4) then standardPositionB4
  else if bool_decide (B = 5) then standardPositionB5
  else if bool_decide (B = 6) then standardPositionB6
  else if bool_decide (B = 7) then standardPositionB7
  else if bool_decide (B = 8) then standardPositionB8
  else standardPositionB9.

End StandardPosition.

(** The index arrays of [makeIndices] with their counters. *)
Record RasterIndex : Type := mkRasterIndex {
  indexRasterX : list Z;
  indexRasterY : list Z;
  numRasterX : Z;
  numRasterY : Z
}.

(** [getKey]; the arithmetic is that of [int]. *)
Definition getKey (r : RasterIndex) (q : Piece) (type : Z) : result Z :=
  if bool_decide (type = MEM_TYPE_4) then Ok 0
  else if bool_decide (type = MEM_TYPE_3) then Ok (q3 q)
  else if bool_decide (type = MEM_TYPE_2) then
    a ← rd (indexRasterX r) (q2 q);
    b ← rd (indexRasterY r) (q3 q);
    Ok (add32 (mul32 a (numRasterY r)) b)
  else if bool_decide (type = MEM_TYPE_1) then
    a ← rd (indexRasterY r) (q1 q);
    b ← rd (indexRasterX r) (q2 q);
    c ← rd (indexRasterY r) (q3 q);
    Ok (add32 (mul32 (add32 (mul32 a (numRasterX r)) b) (numRasterY r)) c)
  else Ok 0.

(** [LIndex]; the arithmetic is that of [int]. *)
Definition LIndex (r : RasterIndex) (q : Piece) (type : Z) : result Z :=
  if bool_decide (type = MEM_TYPE_4) then
    a ← rd (indexRasterX r) (q0 q);
    b ← rd (indexRasterY r) (q1 q);
    c ← rd (indexRasterX r) (q2 q);
    d ← rd (indexRasterY r) (q3 q);
    Ok (add32 (mul32 (add32 (mul32 (add32 (mul32 a (numRasterY r)) b)
                               (numRasterX r)) c)
                 (numRasterY r)) d)
  else if bool_decide (type = MEM_TYPE_3) then
    a ← rd (indexRasterX r) (q0 q);
    b ← rd (indexRasterY r) (q1 q);
    c ← rd (indexRasterX r) (q2 q);
    Ok (add32 (mul32 (add32 (mul32 a (numRasterY r)) b) (numRasterX r)) c)
  else if bool_decide (type = MEM_TYPE_2) then
    a ← rd (indexRasterX r) (q0 q);
    b ← rd (indexRasterY r) (q1 q);
    Ok (add32 (mul32 a (numRasterY r)) b)
  else if bool_decide (type = MEM_TYPE_1) then
    rd (indexRasterX r) (q0 q)
  else Ok 0.

End LPiece.

(** ** The L-solver (main.cpp) and LCut (draw.cpp) *)

Module LSolver.
Import Sets Bounds FiveBlock LPiece Codec.

Definition HORIZONTAL_CUT : Z := 0.
Definition VERTICAL_CUT : Z := 1.

(** The globals of main.cpp that the L-solver reads and writes. *)
Record LState : Type := mkLState {
  tabs : Tables;
  memory_type : Z;
  rasterIndex : RasterIndex;
  solution : list Z;
  divisionPoint : list (option Z);
  solutionMap : list (gmap Z Z);
  divisionPointMap : list (gmap Z Z)
}.

Definition set_tabs (v : Tables) (s : LState) : LState :=
  mkLState v (memory_type s) (rasterIndex s) (solution s) (divisionPoint s)
    (solutionMap s) (divisionPointMap s).
Definition set_solution (v : list Z) (s : LState) : LState :=
  mkLState (tabs s) (memory_type s) (rasterIndex s) v (divisionPoint s)
    (solutionMap s) (divisionPointMap s).
Definition set_divisionPoint (v : list (option Z)) (s : LState) : LState :=
  mkLState (tabs s) (memory_type s) (rasterIndex s) (solution s) v
    (solutionMap s) (divisionPointMap s).
Definition set_solutionMap (v : list (gmap Z Z)) (s : LState) : LState :=
  mkLState (tabs s) (memory_type s) (rasterIndex s) (solution s) (divisionPoint s)
    v (divisionPointMap s).
Definition set_divisionPointMap (v : list (gmap Z Z)) (s : LState) : LState :=
  mkLState (tabs s) (memory_type s) (rasterIndex s) (solution s) (divisionPoint s)
    (solutionMap s) v.

(** [R_UpperBound] *)
Definition R_UpperBound (t : Tables) (x y : Z) : result Z :=
  x ← rd (normalize t) x;
  y ← rd (normalize t) y;
  iX ← rdm (indexX t) x;
  iY ← rdm (indexY t) y;
  rd2 (upperBound t) iX iY.

(** [L_UpperBound] *)
Definition L_UpperBound (l w : Z) (q : Piece) : Z :=
  cdiv (q0 q * q1 q - (q0 q - q2 q) * (q1 q - q3 q)) (l * w).

(** [R_LowerBound] (main.cpp and draw.cpp) *)
Definition R_LowerBound (t : Tables) (x y : Z) : result Z :=
  x ← rd (normalize t) x;
  y ← rd (normalize t) y;
  iX ← rdm (indexX t) x;
  iY ← rdm (indexY t) y;
  rd2 (lowerBound t) iX iY.

(** [L_LowerBound]: the bound and [*horizontalCut]. *)
Definition L_LowerBound (t : Tables) (q : Piece) : result (Z * bool) :=
  a1 ← R_LowerBound t (q2 q) (q1 q - q3 q);
  a2 ← R_LowerBound t (q0 q) (q3 q);
  b1 ← R_LowerBound t (q2 q) (q1 q);
  b2 ← R_LowerBound t (q0 q - q2 q) (q3 q);
  let a := a1 + a2 in
  let b := b1 + b2 in
  if bool_decide (a > b) then Ok (a, true) else Ok (b, false).

(** [LCut] of draw.cpp *)
Definition LCut (t : Tables) (q : Piece) : result Z :=
  a1 ← R_LowerBound t (q2 q) (q1 q);
  a2 ← R_LowerBound t (q0 q - q2 q) (q3 q);
  b1 ← R_LowerBound t (q2 q) (q1 q - q3 q);
  b2 ← R_LowerBound t (q0 q) (q3 q);
  let a := a1 + a2 in
  let b := b1 + b2 in
  Ok (if bool_decide (a > b) then VERTICAL_CUT else HORIZONTAL_CUT).

(** [divide] *)
Definition divide (t : Tables) (B : Z) (i : Point) (q : Piece)
  : result (Piece * Piece) :=
  '(qa, qb) ← standardPosition (normalize t) B i q;
  Ok (normalizePiece (boxl t) (boxw t) qa, normalizePiece (boxl t) (boxw t) qb).

(** [map[key]] of [std::map]: a missing key is inserted with the value 0. *)
Definition mapGet (m : gmap Z Z) (key : Z) : Z * gmap Z Z :=
  match m !! key with
  | Some v => (v, m)
  | None => (0, <[key := 0]> m)
  end.

(** [getSolution (L, q, &key)]: the stored word and the key. *)
Definition getSolution (L : Z) (q : Piece) (s : LState) : result (Z * Z * LState) :=
  if bool_decide (memory_type s = MEM_TYPE_4) then
    v ← rd (solution s) L; Ok (v, 0, s)
  else
    key ← getKey (rasterIndex s) q (memory_type s);
    m ← rd (solutionMap s) L;
    let '(v, m') := mapGet m key in
    maps ← wr (solutionMap s) L m';
    Ok (v, key, set_solutionMap maps s).

(** [storeSolution] *)
Definition storeSolution (L key LSolution : Z) (s : LState) : result LState :=
  if bool_decide (memory_type s = MEM_TYPE_4) then
    a ← wr (solution s) L LSolution; Ok (set_solution a s)
  else
    m ← rd (solutionMap s) L;
    maps ← wr (solutionMap s) L (<[key := LSolution]> m);
    Ok (set_solutionMap maps s).

(** [storeDivisionPoint] *)
Definition storeDivisionPoint (L key point : Z) (s : LState) : result LState :=
  if bool_decide (memory_type s = MEM_TYPE_4) then
    a ← wr (divisionPoint s) L (Some point); Ok (set_divisionPoint a s)
  else
    m ← rd (divisionPointMap s) L;
    maps ← wr (divisionPointMap s) L (<[key := point]> m);
    Ok (set_divisionPointMap maps s).

(** The body of the innermost loop of [divideL], [divideB6] and [divideB7]:
    divide [q] at [i_k] by the subdivision [B], solve the two pieces and keep
    the better solution.  [true] is the [return] of an optimal solution. *)
Definition tryDivision (rec : Z → Piece → LState → result (Z * LState))
    (L key : Z) (q : Piece) (B : Z) (upperBound : Z) (i_k : Point)
    (st : Z * LState) : result (bool * (Z * LState)) :=
  let '(LSolution, s) := st in
  '(qa, qb) ← divide (tabs s) B i_k q;
  if bool_decide (q0 qa < 0 ∨ q0 qb < 0) then Ok (false, st)
  else
    let l := boxl (tabs s) in
    let w := boxw (tabs s) in
    if bool_decide (L_UpperBound l w qa + L_UpperBound l w qb > Z.land LSolution nRet)
    then
      L1 ← LIndex (rasterIndex s) qa (memory_type s);
      L2 ← LIndex (rasterIndex s) qb (memory_type s);
      '(L1Solution, s) ← rec L1 qa s;
      '(L2Solution, s) ← rec L2 qb s;
      let sum := Z.land L1Solution nRet + Z.land L2Solution nRet in
      if bool_decide (sum > Z.land LSolution nRet) then
        let LSolution := packSolution sum B in
        s ← storeSolution L key LSolution s;
        let '(i0, i1, i2) := i_k in
        s ← storeDivisionPoint L key (packDivision i0 i1 i2) s;
        if bool_decide (Z.land LSolution nRet = upperBound)
        then Ok (true, (LSolution, s))
        else Ok (false, (LSolution, s))
      else Ok (false, (LSolution, s))
    else Ok (false, st).

(** [divideL]; [X] and [Y] are the raster points from [startX] and [startY]
    on, and the bounds are [constraints[1]] and [constraints[3]]. *)
Definition divideL (rec : Z → Piece → LState → result (Z * LState))
    (L : Z) (q : Piece) (maxX maxY : Z) (B : Z) (X Y : list Z) (s : LState)
  : result (Z * LState) :=
  '(LSolution, key, s) ← getSolution L q s;
  let upperBound := L_UpperBound (boxl (tabs s)) (boxw (tabs s)) q in
  '(_, st) ←
    scan (λ x, bool_decide (x <= maxX)) (λ x _ st,
      scan (λ y, bool_decide (y <= maxY)) (λ y _ st,
        tryDivision rec L key q B upperBound (x, y, 0) st) Y st)
      X (LSolution, s);
  Ok st.

(** [divideB6] *)
Definition divideB6 (rec : Z → Piece → LState → result (Z * LState))
    (L : Z) (q : Piece) (X Y : list Z) (s : LState) : result (Z * LState) :=
  '(LSolution, key, s) ← getSolution L q s;
  upperBound ← R_UpperBound (tabs s) (q0 q) (q1 q);
  '(_, st) ←
    scan (λ _, true) (λ x' after st,
      scan (λ _, true) (λ x'' _ st,
        if bool_decide (x' = 0 ∧ x'' = 0) then Ok (false, st)
        else
          scan (λ _, true) (λ y' _ st,
            tryDivision rec L key q B6 upperBound (x', y', x'') st) Y st)
        (x' :: after) st)
      X (LSolution, s);
  Ok st.

(** [divideB7] *)
Definition divideB7 (rec : Z → Piece → LState → result (Z * LState))
    (L : Z) (q : Piece) (X Y : list Z) (s : LState) : result (Z * LState) :=
  '(LSolution, key, s) ← getSolution L q s;
  upperBound ← R_UpperBound (tabs s) (q0 q) (q1 q);
  '(_, st) ←
    scan (λ _, true) (λ y' after st,
      scan (λ _, true) (λ y'' _ st,
        if bool_decide (y' = 0 ∧ y'' = 0) then Ok (false, st)
        else
          scan (λ _, true) (λ x' _ st,
            tryDivision rec L key q B7 upperBound (x', y', y'') st) X st)
        (y' :: after) st)
      Y (LSolution, s);
  Ok st.

(** [for (start = 0; points[start] < bound; start++);]: the points from
    [start] on. *)
Fixpoint startFrom (bound : Z) (points : list Z) : result (list Z) :=
  match points with
  | [] => Undef
  | p :: rest => if bool_decide (p < bound) then startFrom bound rest else Ok points
  end.

(** The subdivisions tried one after the other by [solve], each with its
    bounds and raster points; the first optimal solution is returned. *)
Fixpoint divideAll (rec : Z → Piece → LState → result (Z * LState))
    (L : Z) (q : Piece) (upperBound : Z)
    (plan : list (Z * Z * Z * list Z * list Z)) (st : Z * LState)
  : result (Z * LState) :=
  match plan with
  | [] => Ok st
  | (B, maxX, maxY, X, Y) :: rest =>
      '(LSolution, s) ← divideL rec L q maxX maxY B X Y st.2;
      if bool_decide (Z.land LSolution nRet = upperBound) then Ok (LSolution, s)
      else divideAll rec L q upperBound rest (LSolution, s)
  end.

Definition write_lowerBoundL (x y v : Z) (s : LState) : result LState :=
  iX ← rdm (indexX (tabs s)) x;
  iY ← rdm (indexY (tabs s)) y;
  t ← write_lowerBound iX iY v (tabs s);
  Ok (set_tabs t s).

(** The body of [solve], with [rec] for the recursive calls. *)
Definition solve_body (rec : Z → Piece → LState → result (Z * LState))
    (L : Z) (q : Piece) (s : LState) : result (Z * LState) :=
  '(cached, key, s) ←
    (if bool_decide (memory_type s = MEM_TYPE_4) then
       v ← rd (solution s) L;
       Ok (if bool_decide (v ≠ -1) then Some v else None, 0, s)
     else
       key ← getKey (rasterIndex s) q (memory_type s);
       m ← rd (solutionMap s) L;
       Ok (m !! key, key, s));
  match cached with
  | Some v => Ok (v, s)
  | None =>
    let t := tabs s in
    if bool_decide (q0 q ≠ q2 q) then
      '(lowerBound, horizontalCut) ← L_LowerBound t q;
      let upperBound := L_UpperBound (boxl t) (boxw t) q in
      let LSolution := packSolution lowerBound B1 in
      s ← (if horizontalCut : bool
           then storeDivisionPoint L key (packDivision 0 (q3 q) 0) s
           else storeDivisionPoint L key (packDivision (q2 q) 0 0) s);
      s ← storeSolution L key LSolution s;
      if bool_decide (Z.land LSolution nRet ≠ upperBound) then
        '(X, Y) ← constructRasterPoints (normalize t) (q0 q) (q1 q) (normalSetX t);
        fromX ← startFrom (q2 q) X;
        fromY ← startFrom (q3 q) Y;
        lastY ← rd Y (Z.of_nat (length Y) - 1);
        lastX ← rd X (Z.of_nat (length X) - 1);
        divideAll rec L q upperBound
          [(B1, q2 q, q3 q, X, Y);
           (B3, q2 q, q3 q, X, Y);
           (B5, q2 q, q3 q, X, Y);
           (B2, q2 q, lastY, X, fromY);
           (B8, q2 q, lastY, X, fromY);
           (B4, lastX, q3 q, fromX, Y);
           (B9, lastX, q3 q, fromX, Y)]
          (LSolution, s)
      else Ok (LSolution, s)
    else
      lb ← R_LowerBound t (q0 q) (q1 q);
      let LSolution := packSolution lb HOMOGENEOUS in
      upperBound ← R_UpperBound t (q0 q) (q1 q);
      s ← storeSolution L key LSolution s;
      if bool_decide (Z.land LSolution nRet ≠ upperBound) then
        '(X, Y) ← constructRasterPoints (normalize t) (q0 q) (q1 q) (normalSetX t);
        '(LSolution, s) ← divideB6 rec L q X Y s;
        if bool_decide (Z.land LSolution nRet = upperBound) then
          s ← write_lowerBoundL (q0 q) (q1 q) (Z.land LSolution nRet) s;
          Ok (LSolution, s)
        else
          '(LSolution, s) ← divideB7 rec L q X Y s;
          s ← write_lowerBoundL (q0 q) (q1 q) (Z.land LSolution nRet) s;
          Ok (LSolution, s)
      else Ok (LSolution, s)
  end.

(** [solve]: the recursion is unfolded [fuel] times. *)
Fixpoint solve (fuel : nat) (L : Z) (q : Piece) (s : LState) : result (Z * LState) :=
  match fuel with
  | O => OutOfFuel
  | S fuel' => solve_body (solve fuel') L q s
  end.

(** The loops of [makeIndices] that fill [indexRasterX] and [indexRasterY]:
    [rest] is [raster.points[j ..]], [num] the counter, [acc] the cells
    written so far. *)
Fixpoint indexRasterLoop (n : nat) (i : Z) (rest : list Z) (num : Z) (acc : list Z)
  : result (list Z * Z) :=
  match n with
  | O => Ok (acc, num)
  | S n' =>
      match rest with
      | [] => Undef
      | p :: rest' =>
          if bool_decide (p = i) then
            indexRasterLoop n' (i + 1) rest' (num + 1) (acc ++ [num])
          else
            prev ← rd acc (i - 1);
            indexRasterLoop n' (i + 1) rest num (acc ++ [prev])
      end
  end.

(** The first part of [makeIndices]: the set [raster]. *)
Definition makeRaster (t : Tables) (L W : Z) : result set :=
  '(X, Y) ← constructRasterPoints (normalize t) L W (normalSetX t);
  mergeRaster L W X Y.

(** [makeIndices] *)
Definition makeIndices (t : Tables) (L W : Z) : result RasterIndex :=
  raster ← makeRaster t L W;
  '(ix, numX) ← indexRasterLoop (Z.to_nat (L + 1)) 0 raster 0 [];
  lastx ← rd ix L;
  '(iy, numY) ← indexRasterLoop (Z.to_nat (W + 1)) 0 raster 0 [];
  lasty ← rd iy W;
  Ok (mkRasterIndex (ix ++ [lastx + 1]) (iy ++ [lasty + 1]) numX numY).

(** [allocateMemory] when the number [nL = numRasterX^2 * numRasterY^2] of
    cells is an [int] and the first allocation succeeds: the memory type
    stays [MEM_TYPE_4], [solution] is filled with [-1] and [divisionPoint]
    is not written. *)
Definition allocateMemory (t : Tables) (r : RasterIndex) : LState :=
  let nL := Z.to_nat (numRasterX r ^ 2 * numRasterY r ^ 2) in
  mkLState t MEM_TYPE_4 r (replicate nL (-1)) (replicate nL None) [] [].

End LSolver.

(** ** Vocabulary of the statements *)

(** The two bounds as formulas over the integers, where no product wraps:
    the better homogeneous packing and the bound of Barnes (1979).
    [Bounds.lowerBoundH] and [Bounds.barnesBound] are what bd.cpp computes
    of them in [int]. *)
Definition homValue (L W l w : Z) : Z :=
  Z.max (cdiv L l * cdiv W w) (cdiv L w * cdiv W l).

Definition barnesValue (L W l w : Z) : Z :=
  let minWaste := cmod (L * W) (l * w) in
  let A := (let r := cmod L l in let s := cmod W l in
            Z.min (r * s) ((l - r) * (l - s))) in
  let B := (let r := cmod L w in let s := cmod W w in
            Z.min (r * s) ((w - r) * (w - s))) in
  let maxAB := Z.max A B in
  let D :=
    if bool_decide (minWaste >= cmod maxAB (l * w))
    then cdiv maxAB (l * w) * (l * w) + minWaste
    else (cdiv maxAB (l * w) + 1) * (l * w) + minWaste in
  cdiv (L * W - D) (l * w).

(** Sides up to [sideLimit] keep the [int] arithmetic of the bounds within
    32 bits ([3 * sideLimit ^ 2 < 2 ^ 31]) and the centres of the boxes
    within the significand of a [float]. *)
Definition sideLimit : Z := 16384.

(** The total view of a cell of an integer array. *)
Definition cell (c : list Z) (j : Z) : Z := default 0 (c !! Z.to_nat j).

(** Strictly ascending lists. *)
Definition asc (l : list Z) : Prop :=
  ∀ (i j : nat) a b, (i < j)%nat → l !! i = Some a → l !! j = Some b → a < b.

(** [x] is a conic combination of [l] and [w]. *)
Definition Conic (l w x : Z) : Prop :=
  ∃ r s, 0 <= r ∧ 0 <= s ∧ x = r * l + s * w.

(** The members of the set built by [constructConicCombinations]: the conic
    combinations up to [L], and [L] itself. *)
Definition InX (L l w x : Z) : Prop := 0 <= x <= L ∧ (Conic l w x ∨ x = L).

(** [v] is the greatest element of [X] that is at most [j]. *)
Definition IsNorm (X : list Z) (j v : Z) : Prop :=
  v ∈ X ∧ v <= j ∧ ∀ s, s ∈ X → s <= j → s <= v.

(** The components of an L-piece are raster points of [raster]: [q0], [q2]
    within the length [L] and [q1], [q3] within the width [W]. *)
Definition rasterTuple (raster : list Z) (L W : Z) (q : LPiece.Piece) : Prop :=
  (LPiece.q0 q ∈ raster ∧ LPiece.q0 q <= L) ∧
  (LPiece.q1 q ∈ raster ∧ LPiece.q1 q <= W) ∧
  (LPiece.q2 q ∈ raster ∧ LPiece.q2 q <= L) ∧
  (LPiece.q3 q ∈ raster ∧ LPiece.q3 q <= W).

(** The count of the split of an L-piece into two rectangles, by a
    horizontal cut at [q3] or by a vertical cut at [q2], read from the
    lower bounds of the rectangles. *)
Definition splitSum (t : FiveBlock.Tables) (q : LPiece.Piece) (horizontal : bool)
  : result Z :=
  if horizontal then
    a1 ← LSolver.R_LowerBound t (LPiece.q2 q) (LPiece.q1 q - LPiece.q3 q);
    a2 ← LSolver.R_LowerBound t (LPiece.q0 q) (LPiece.q3 q);
    Ok (a1 + a2)
  else
    b1 ← LSolver.R_LowerBound t (LPiece.q2 q) (LPiece.q1 q);
    b2 ← LSolver.R_LowerBound t (LPiece.q0 q - LPiece.q2 q) (LPiece.q3 q);
    Ok (b1 + b2).

(** The raster points of the pallet [(L, W)]: the points that [initialize]
    leaves in [normalSetX], apart from the last one, [L + 1]. *)
Definition RasterM (L W l w : Z) (norm : list Z) (p : Z) : Prop :=
  (∃ q, InX L l w q ∧ p = cell norm (L - q)) ∨
  (∃ q, InX L l w q ∧ q <= W ∧ p = cell norm (W - q)).

(** The points that index the second dimension of the tables. *)
Definition widthsOf (W_n : Z) (points : list Z) : list Z :=
  filter (λ p, p <= W_n) points.

(** A table with one row per point and one column per width. *)
Definition tableOf {A} (points ys : list Z) (f : Z → Z → A) : list (list A) :=
  (λ x, (λ y, f x y) <$> ys) <$> points.

(** What [initialize (L, W, l, w)] leaves in the tables whatever the values
    of the bounds are: the box, the array [normalize] and the merged raster
    points. *)
Record InitFrame (L W l w : Z) (t : FiveBlock.Tables) : Prop := mkInitFrame {
  if_boxl : FiveBlock.boxl t = l;
  if_boxw : FiveBlock.boxw t = w;
  if_len : Z.of_nat (length (FiveBlock.normalize t)) = L + 1;
  if_norm : ∃ X, (∀ x, x ∈ X ↔ InX L l w x) ∧
                 ∀ j, 0 <= j <= L → IsNorm X j (cell (FiveBlock.normalize t) j);
  if_points : ∀ p, p ∈ FiveBlock.normalSetX t ↔
                   p = L + 1 ∨ RasterM L W l w (FiveBlock.normalize t) p
}.

(** The tables as [initialize (L, W, l, w)] leaves them when no product of
    the bounds wraps. *)
Record InitOK (L W l w N : Z) (t : FiveBlock.Tables) : Prop := mkInitOK {
  io_boxl : FiveBlock.boxl t = l;
  io_boxw : FiveBlock.boxw t = w;
  io_depthN : FiveBlock.depthN t = N;
  io_len : Z.of_nat (length (FiveBlock.normalize t)) = L + 1;
  io_norm : ∃ X, (∀ x, x ∈ X ↔ InX L l w x) ∧
                 ∀ j, 0 <= j <= L → IsNorm X j (cell (FiveBlock.normalize t) j);
  io_asc : asc (FiveBlock.normalSetX t);
  io_points : ∀ p, p ∈ FiveBlock.normalSetX t ↔
                   p = L + 1 ∨ RasterM L W l w (FiveBlock.normalize t) p;
  io_indexX : ∀ p k, FiveBlock.indexX t !! p = Some k ↔
                     0 <= k ∧ FiveBlock.normalSetX t !! Z.to_nat k = Some p;
  io_indexY : ∀ p k, FiveBlock.indexY t !! p = Some k ↔
                     0 <= k ∧
                     widthsOf (cell (FiveBlock.normalize t) W) (FiveBlock.normalSetX t)
                       !! Z.to_nat k = Some p;
  io_upper : FiveBlock.upperBound t =
    tableOf (FiveBlock.normalSetX t)
      (widthsOf (cell (FiveBlock.normalize t) W) (FiveBlock.normalSetX t))
      (λ x y, barnesValue x y l w);
  io_lower : FiveBlock.lowerBound t =
    tableOf (FiveBlock.normalSetX t)
      (widthsOf (cell (FiveBlock.normalize t) W) (FiveBlock.normalSetX t))
      (λ x y, homValue x y l w);
  io_depth : FiveBlock.solutionDepth t =
    tableOf (FiveBlock.normalSetX t)
      (widthsOf (cell (FiveBlock.normalize t) W) (FiveBlock.normalSetX t))
      (λ _ _, N);
  io_reached : FiveBlock.reachedLimit t =
    tableOf (FiveBlock.normalSetX t)
      (widthsOf (cell (FiveBlock.normalize t) W) (FiveBlock.normalSetX t))
      (λ _ _, 1);
  io_cut : FiveBlock.cutPoints t =
    tableOf (FiveBlock.normalSetX t)
      (widthsOf (cell (FiveBlock.normalize t) W) (FiveBlock.normalSetX t))
      (λ _ _, FiveBlock.mkCutPoint None 1)
}.

(** ** Packings *)

(** The two boxes have disjoint interiors. *)
Definition apart (a b : DrawBD.Box) : Prop :=
  let '(ax0, ay0, ax1, ay1) := a in
  let '(bx0, by0, bx1, by1) := b in
  ax1 <= bx0 ∨ bx1 <= ax0 ∨ ay1 <= by0 ∨ by1 <= ay0.

(** The box has the sides [l] and [w], in one of the two orientations. *)
Definition isBox (l w : Z) (b : DrawBD.Box) : Prop :=
  let '(x0, y0, x1, y1) := b in
  (x1 - x0 = l ∧ y1 - y0 = w) ∨ (x1 - x0 = w ∧ y1 - y0 = l).

(** The box lies in the rectangle [[dx, dx + L] x [dy, dy + W]]. *)
Definition inRect (dx dy L W : Z) (b : DrawBD.Box) : Prop :=
  let '(x0, y0, x1, y1) := b in
  dx <= x0 ∧ x1 <= dx + L ∧ dy <= y0 ∧ y1 <= dy + W.

Definition pairwiseApart (bs : list DrawBD.Box) : Prop :=
  ∀ (i j : nat) a b, i ≠ j → bs !! i = Some a → bs !! j = Some b → apart a b.

(** [bs] is a packing of [(l, w)]-boxes into the rectangle
    [[dx, dx + L] x [dy, dy + W]]. *)
Definition PackingAt (dx dy L W l w : Z) (bs : list DrawBD.Box) : Prop :=
  (∀ b, b ∈ bs → isBox l w b ∧ inRect dx dy L W b) ∧ pairwiseApart bs.

Definition Packing (L W l w : Z) (bs : list DrawBD.Box) : Prop :=
  PackingAt 0 0 L W l w bs.

(** ** Counting unit cells *)

(** [f 0 + ... + f (n - 1)] *)
Fixpoint sumZ (n : nat) (f : Z → Z) : Z :=
  match n with
  | O => 0
  | S n' => sumZ n' f + f (Z.of_nat n')
  end.

(** The sum of [f] over a list. *)
Definition sumList {A} (f : A → Z) (xs : list A) : Z :=
  foldr (λ x acc, f x + acc) 0 xs.

(** The cells [(i, j)] with [i + j = l - 1] modulo [l] are marked. *)
Definition mark (l c : Z) : Z := if bool_decide (c mod l = l - 1) then 1 else 0.

(** The box covers the unit cell [[i, i + 1] x [j, j + 1]]. *)
Definition covers (b : DrawBD.Box) (i j : Z) : Z :=
  let '(x0, y0, x1, y1) := b in
  if bool_decide (x0 <= i < x1) then
    if bool_decide (y0 <= j < y1) then 1 else 0
  else 0.

(** The number of marked cells of the rectangle [L x W] that satisfy [f]. *)
Definition markedCells (l : Z) (L W : nat) (f : Z → Z → Z) : Z :=
  sumZ L (λ i, sumZ W (λ j, f i j * mark l (i + j))).

(** ** The boxes of a homogeneous packing *)

(** The values [i, i + step, ...] of the counter of a [stepLoop] of [k]
    rounds. *)
Fixpoint steps (k : nat) (i step : Z) : list Z :=
  match k with
  | O => []
  | S k' => i :: steps k' (i + step) step
  end.

(** The boxes with sides [(a, b)] that fill [(x, y)] from the corner
    [(dx, dy)] on, column by column. *)
Definition grid (a b x y dx dy : Z) : list DrawBD.Box :=
  i ← steps (Z.to_nat (x / a)) 0 a;
  j ← steps (Z.to_nat (y / b)) 0 b;
  [(i + dx, j + dy, i + a + dx, j + b + dy)].

(** The boxes that [drawHomogeneous] draws. *)
Definition homBoxes (l w x y dx dy : Z) : list DrawBD.Box :=
  if bool_decide (DrawBD.boxOrientation l w x y = DrawBD.HORIZONTAL)
  then grid l w x y dx dy else grid w l x y dx dy.

(** A loop body run for each index of a list. *)
Fixpoint iterM {S : Type} (body : Z → S → result S) (idx : list Z) (s : S)
  : result S :=
  match idx with
  | [] => Ok s
  | i :: rest => s' ← body i s; iterM body rest s'
  end.

Definition putBoxes (bs : list DrawBD.Box) (c : DrawBD.Canvas) : result DrawBD.Canvas :=
  foldl (λ r b, c ← r; DrawBD.putBox b c) (Ok c) bs.

(** The first rows of the canvas hold the boxes [bs], and [boxesDrawn]
    counts them. *)
Definition Filled (c : DrawBD.Canvas) (bs : list DrawBD.Box) : Prop :=
  DrawBD.boxesDrawn c = Z.of_nat (length bs) ∧
  take (length bs) (DrawBD.ptoRet c) = Some <$> bs.

(** ** The cut that BD stores for the pallet *)

(** The raster points of the two sides of the pallet. *)
Definition RX (L l w : Z) (norm : list Z) (x : Z) : Prop :=
  ∃ q, InX L l w q ∧ x = cell norm (L - q).
Definition RY (L W l w : Z) (norm : list Z) (y : Z) : Prop :=
  ∃ q, InX L l w q ∧ q <= W ∧ y = cell norm (W - q).

(** The five blocks of the cut [(x1, x2, y1, y2)] of [(L, W)] as
    [getSubproblems] computes them, each with the offsets at which
    [drawNormal] draws it. *)
Definition children (norm : list Z) (L W : Z) (cut : Z * Z * Z * Z)
  : list (Z * Z * Z * Z) :=
  let '(x1, x2, y1, y2) := cut in
  [(x1, cell norm (W - y1), 0, y1);
   (cell norm (L - x1), cell norm (W - y2), x1, y2);
   (cell norm (x2 - x1), cell norm (y2 - y1), x1, y1);
   (x2, y1, 0, 0);
   (cell norm (L - x2), y2, x2, 0)].

(** The sum of the homogeneous packings of the blocks. *)
Definition sumLBH (l w : Z) (blocks : list (Z * Z * Z * Z)) : Z :=
  sumList (λ '(a, b, _, _), homValue a b l w) blocks.

(** A cut of the pallet [(L, normalize[W])] whose blocks with non-zero sides
    are raster points and differ from the pallet. *)
Definition GoodCut (L W l w : Z) (norm : list Z) (cut : Z * Z * Z * Z) : Prop :=
  let '(x1, x2, y1, y2) := cut in
  (0 <= x1 ∧ x1 <= x2 ∧ x2 <= L ∧ 0 <= y1 ∧ y1 <= y2 ∧ y2 <= cell norm W) ∧
  ∀ a b dx dy, (a, b, dx, dy) ∈ children norm L (cell norm W) cut →
    a ≠ 0 → b ≠ 0 →
    RX L l w norm a ∧ RY L W l w norm b ∧ (a < L ∨ b < cell norm W).

(** The tables agree apart from [solutionDepth], [reachedLimit] and
    [cutPoints]. *)
Definition sameFrame (t t' : FiveBlock.Tables) : Prop :=
  FiveBlock.boxl t' = FiveBlock.boxl t ∧
  FiveBlock.boxw t' = FiveBlock.boxw t ∧
  FiveBlock.depthN t' = FiveBlock.depthN t ∧
  FiveBlock.normalize t' = FiveBlock.normalize t ∧
  FiveBlock.normalSetX t' = FiveBlock.normalSetX t ∧
  FiveBlock.indexX t' = FiveBlock.indexX t ∧
  FiveBlock.indexY t' = FiveBlock.indexY t ∧
  FiveBlock.upperBound t' = FiveBlock.upperBound t ∧
  FiveBlock.lowerBound t' = FiveBlock.lowerBound t.

(** The lengths of the rows of a table. *)
Definition shape {A} (m : list (list A)) : list nat := length <$> m.

(** What BD at the depth limit keeps true of its current bound [st.1] and
    of the tables [st.2], for the pallet [(L, normalize[W])] and the tables
    [t0] of [initialize]. *)
Record BDInv (L W l w : Z) (t0 : FiveBlock.Tables) (st : Z * FiveBlock.Tables)
  : Prop := mkBDInv {
  bi_frame : sameFrame t0 st.2;
  bi_depth : shape (FiveBlock.solutionDepth st.2) = shape (FiveBlock.solutionDepth t0);
  bi_reached : shape (FiveBlock.reachedLimit st.2) = shape (FiveBlock.reachedLimit t0);
  bi_lower :
    homValue L (cell (FiveBlock.normalize t0) W) l w <= st.1;
  bi_cut :
    (st.1 = homValue L (cell (FiveBlock.normalize t0) W) l w ∧
     FiveBlock.cutPoints st.2 = FiveBlock.cutPoints t0) ∨
    (∃ cut iL iW,
       FiveBlock.indexX t0 !! L = Some iL ∧
       FiveBlock.indexY t0 !! cell (FiveBlock.normalize t0) W = Some iW ∧
       FiveBlock.wr2 (FiveBlock.cutPoints t0) iL iW
         (FiveBlock.mkCutPoint (Some cut) 0) = Ok (FiveBlock.cutPoints st.2) ∧
       GoodCut L W l w (FiveBlock.normalize t0) cut ∧
       0 < homValue L (cell (FiveBlock.normalize t0) W) l w ∧
       st.1 = sumLBH l w
                (children (FiveBlock.normalize t0) L
                   (cell (FiveBlock.normalize t0) W) cut))
}.

(** ** The boxes that the reconstruction draws *)

(** The rectangle in which [drawNormal] draws a block. *)
Definition regionOf (blk : Z * Z * Z * Z) : DrawBD.Box :=
  let '(a, b, dx, dy) := blk in (dx, dy, dx + a, dy + b).

(** The homogeneous packings of the blocks. *)
Definition blockBoxes (l w : Z) (blocks : list (Z * Z * Z * Z)) : list DrawBD.Box :=
  blocks ≫= λ '(a, b, dx, dy), homBoxes l w a b dx dy.

(** ** A run of solve_BD *)

(** The steps of [solve_BD (L, W, l, w, N_max)] for [L >= W]: the tables
    [t0] of [initialize], the count [z] and the tables [t1] of BD, and the
    tables [t] after the last write to [lowerBound]. *)
Record SolveRun (L W l w N_max z : Z) (t0 t1 t : FiveBlock.Tables) : Prop :=
  mkSolveRun {
  sr_init :
    FiveBlock.initialize
      (if bool_decide (N_max <= 0) then FiveBlock.INFINITY_ else N_max) L W l w
    = Ok t0;
  sr_ok :
    InitOK L W l w
      (if bool_decide (N_max <= 0) then FiveBlock.INFINITY_ else N_max) t0;
  sr_BD :
    FiveBlock.BD (S (Z.to_nat (L * cell (FiveBlock.normalize t0) W))) t0
      L (cell (FiveBlock.normalize t0) W)
      (if bool_decide (N_max <= 0) then FiveBlock.INFINITY_ else N_max)
    = Ok (z, t1);
  sr_inv : BDInv L W l w t0 (z, t1);
  sr_write :
    ∃ iL iW,
      rdm (FiveBlock.indexX t1) L = Ok iL ∧
      rdm (FiveBlock.indexY t1) (cell (FiveBlock.normalize t0) W) = Ok iW ∧
      FiveBlock.rd2 (FiveBlock.lowerBound t1) iL iW
      = Ok (homValue L (cell (FiveBlock.normalize t0) W) l w) ∧
      FiveBlock.write_lowerBound iL iW z t1 = Ok t;
  sr_result : FiveBlock.solve_BD L W l w N_max = Ok (z, t)
}.

(** ** The output of pack *)

(** A box in doubled coordinates, and a box with its axes exchanged. *)
Definition doubled (b : DrawBD.Box) : DrawBD.Box :=
  let '(x0, y0, x1, y1) := b in (2 * x0, 2 * y0, 2 * x1, 2 * y1).
Definition transposed (b : DrawBD.Box) : DrawBD.Box :=
  let '(x0, y0, x1, y1) := b in (y0, x0, y1, x1).

(** The rectangle that an object of the output describes, in doubled
    coordinates: its centre is [(x, y)], and its side [l] lies along the
    first axis when [rotated] is set and along the second axis otherwise. *)
Definition placed (l w : Z) (p : Pack.Placement) : DrawBD.Box :=
  let '(ex, ey) := if Pack.rotated p then (l, w) else (w, l) in
  (Pack.x2 p - ex, Pack.y2 p - ey, Pack.x2 p + ex, Pack.y2 p + ey).

(** Modelled from the spec: the run of the L-solver that the control flow of
    the spec places after BD ("run L-solver seeded with the whole pallet
    treated as a degenerate L").  The sources hold [makeIndices],
    [allocateMemory], [LIndex] and [solve], and no caller of them; the run
    sets up the indices and the memory for the normalised pallet and solves
    the piece [(L_n, W_n, L_n, W_n)]. *)
Definition solveL (fuel : nat) (t : FiveBlock.Tables) (L_n W_n : Z) : result Z :=
  r ← LSolver.makeIndices t L_n W_n;
  let s := LSolver.allocateMemory t r in
  let q := (L_n, W_n, L_n, W_n) in
  i ← LPiece.LIndex r q LPiece.MEM_TYPE_4;
  '(v, _) ← LSolver.solve fuel i q s;
  Ok (Codec.solCount v).

(** ** Termination *)

(** The computation ends within its fuel, and [I] holds of its result if it
    has one. *)
Definition safe {A} (I : A → Prop) (r : result A) : Prop :=
  match r with
  | Ok x => I x
  | Undef => True
  | OutOfFuel => False
  end.

(** What the recursions use of the array [normalize]: a cell holds a value
    between 0 and its index, and the values do not decrease. *)
Definition SaneNorm (norm : list Z) : Prop :=
  (∀ j v, rd norm j = Ok v → 0 <= v <= j) ∧
  (∀ i j u v, rd norm i = Ok u → rd norm j = Ok v → i <= j → u <= v).

(** The box, the array [normalize] and the set [normalSetX] are those of
    [t0]. *)
Definition sameBase (t0 t : FiveBlock.Tables) : Prop :=
  FiveBlock.boxl t = FiveBlock.boxl t0 ∧
  FiveBlock.boxw t = FiveBlock.boxw t0 ∧
  FiveBlock.normalize t = FiveBlock.normalize t0 ∧
  FiveBlock.normalSetX t = FiveBlock.normalSetX t0.

(** Tables with positive box sides, a sane [normalize] and non-negative
    points. *)
Definition SaneTables (t : FiveBlock.Tables) : Prop :=
  0 < FiveBlock.boxl t ∧ 0 < FiveBlock.boxw t ∧
  SaneNorm (FiveBlock.normalize t) ∧
  ∀ p, p ∈ FiveBlock.normalSetX t → 0 <= p.

(** The measure of a rectangle in the recursion of BD: the area of the
    rectangle with each side one longer, which also decreases from a
    rectangle without area to its parts. *)
Definition rectMeasure (L W : Z) : Z := (L + 1) * (W + 1).

(** The area of an L-piece. *)
Definition areaL (q : LPiece.Piece) : Z :=
  LPiece.q0 q * LPiece.q1 q
  - (LPiece.q0 q - LPiece.q2 q) * (LPiece.q1 q - LPiece.q3 q).

(** An L-piece in standard position. *)
Definition validPiece (q : LPiece.Piece) : Prop :=
  0 <= LPiece.q2 q ∧ LPiece.q2 q <= LPiece.q0 q ∧
  0 <= LPiece.q3 q ∧ LPiece.q3 q <= LPiece.q1 q.

(** The points at which [solve] divides the piece [q] by the subdivision
    [B]: the first two components of the point are raster points of the
    sides of [q], within the bounds of the loops of [divideL], [divideB6]
    and [divideB7]. *)
Definition DivisionAt (B : Z) (i : LPiece.Point) (q : LPiece.Piece) : Prop :=
  let '(i0, i1, i2) := i in
  if bool_decide (B = 1 ∨ B = 3 ∨ B = 5) then
    0 <= i0 <= LPiece.q2 q ∧ 0 <= i1 <= LPiece.q3 q
  else if bool_decide (B = 2 ∨ B = 8) then
    0 <= i0 <= LPiece.q2 q ∧ LPiece.q3 q <= i1 <= LPiece.q1 q
  else if bool_decide (B = 4 ∨ B = 9) then
    LPiece.q2 q <= i0 <= LPiece.q0 q ∧ 0 <= i1 <= LPiece.q3 q
  else if bool_decide (B = 6) then
    LPiece.q0 q = LPiece.q2 q ∧
    0 <= i0 ∧ i0 <= i2 ∧ i2 <= LPiece.q0 q ∧ 0 <= i1 <= LPiece.q1 q
  else if bool_decide (B = 7) then
    LPiece.q0 q = LPiece.q2 q ∧
    0 <= i0 <= LPiece.q0 q ∧ 0 <= i1 ∧ i1 <= i2 ∧ i2 <= LPiece.q1 q
  else False.

(** ** Vocabulary of the further properties *)

(** [r] is the set of raster points of a side [A]: strictly ascending, from
    0 to [normalize[A]], with the values [normalize[A - p]] for the members
    [p <= A] of [X]. *)
Definition RasterOf (X norm : list Z) (A : Z) (r : list Z) : Prop :=
  asc r ∧ list.head r = Some 0 ∧
  (∃ a, rd norm A = Ok a ∧ list.last r = Some a) ∧
  ∀ x, x ∈ r ↔ ∃ p, p ∈ X ∧ p <= A ∧ rd norm (A - p) = Ok x.

(** * The record codec *)

Section CodecFacts.
Import Codec.

Lemma testbit_high a k n : 0 <= a < 2^k -> k <= n -> Z.testbit a n = false.
Proof.
  intros Ha Hn. destruct (decide (a = 0)) as [->|Hne]; [apply Z.bits_0|].
  apply Z.bits_above_log2; [lia|].
  assert (0 <= k). { destruct (decide (0 <= k)); [done|]. rewrite Z.pow_neg_r in Ha; lia. }
  apply Z.lt_le_trans with k; [|done].
  apply Z.log2_lt_pow2; lia.
Qed.

Lemma to_uint32_int32 z : to_uint32 (to_int32 z) = z mod 2^32.
Proof.
  unfold to_uint32, to_int32.
  rewrite Zminus_mod_idemp_l. f_equal. lia.
Qed.

Lemma land_int32_mask z m : 0 <= m < 2^31 -> Z.land (to_int32 z) m = Z.land z m.
Proof.
  intros Hm. apply Z.bits_inj'. intros n Hn.
  rewrite !Z.land_spec.
  destruct (Z.testbit m n) eqn:E; [|by rewrite !andb_false_r].
  rewrite !andb_true_r.
  assert (n < 31).
  { destruct (decide (n < 31)); [done|].
    rewrite (testbit_high m 31 n) in E; [done|lia|lia]. }
  unfold to_int32.
  replace ((z + 2 ^ 31) `mod` 2 ^ 32 - 2 ^ 31) with (z + 2^32 * (- ((z + 2^31) / 2^32))).
  2:{ pose proof (Z.div_mod (z + 2^31) (2^32)). lia. }
  rewrite <- (Z.mod_pow2_bits_low _ 32 n) by lia.
  rewrite <- (Z.mod_pow2_bits_low z 32 n) by lia.
  f_equal. rewrite Z.mul_comm, Z_mod_plus_full. done.
Qed.

Lemma lor_shiftl_add a b k : 0 <= k -> 0 <= a < 2^k -> Z.lor a (Z.shiftl b k) = a + b * 2^k.
Proof.
  intros Hk Ha. rewrite <- Z.shiftl_mul_pow2 by done.
  assert (Z.land a (Z.shiftl b k) = 0) as H0.
  { apply Z.bits_inj'; intros n Hn; rewrite Z.land_spec, Z.bits_0.
    destruct (decide (n < k)).
    - rewrite (Z.shiftl_spec_low b k n) by lia. apply andb_false_r.
    - rewrite (testbit_high a k n); [done|lia|lia]. }
  rewrite <- Z.lxor_lor, <- Z.add_nocarry_lxor; done.
Qed.

Lemma land_low a b k : 0 <= k -> 0 <= a < 2^k -> Z.land (a + b * 2^k) (Z.ones k) = a.
Proof.
  intros. rewrite Z.land_ones by done. rewrite Z_mod_plus_full. apply Z.mod_small; lia.
Qed.

Lemma field_extract v m k : 0 <= k -> 0 <= m ->
  Z.shiftr (Z.land v (Z.shiftl (Z.ones m) k)) k = (v / 2^k) mod 2^m.
Proof.
  intros. rewrite Z.shiftr_land, Z.shiftr_shiftl_l by done.
  rewrite Z.sub_diag, Z.shiftl_0_r, Z.land_ones, Z.shiftr_div_pow2 by done. done.
Qed.

Lemma to_int32_small v : 0 <= v < 2^31 -> to_int32 v = v.
Proof.
  intros Hv. unfold to_int32. rewrite Z.mod_small; lia.
Qed.

Lemma solution_word_value c t :
  0 <= c < 2^27 -> 0 <= t <= 9 -> packSolution c t = c + t * 2^27.
Proof.
  intros Hc Ht. unfold packSolution, descSol.
  rewrite lor_shiftl_add by lia. apply to_int32_small. lia.
Qed.

Lemma division_word_value d1 d2 d3 :
  0 <= d1 < 2^11 -> 0 <= d2 < 2^11 -> 0 <= d3 ->
  to_uint32 (packDivision d1 d2 d3) = (d1 + d2 * 2^11 + d3 * 2^22) mod 2^32.
Proof.
  intros H1 H2 H3. unfold packDivision, descPtoDiv2, descPtoDiv3.
  rewrite to_uint32_int32. f_equal.
  rewrite (lor_shiftl_add d1) by lia. rewrite lor_shiftl_add by lia. done.
Qed.

Lemma solution_word_fields c t :
  0 <= c <= 2^27 - 1 -> 0 <= t <= 9 ->
  solCount (packSolution c t) = c /\ solTag (packSolution c t) = t.
Proof.
  intros Hc Ht. rewrite !solution_word_value by lia.
  unfold solCount, solTag.
  change nRet with (Z.ones 27). change solucao with (Z.shiftl (Z.ones 4) 27).
  unfold descSol. rewrite !field_extract, !Z.land_ones by lia.
  split.
  - rewrite Z_mod_plus_full. apply Z.mod_small; lia.
  - rewrite Z.div_add by lia. rewrite (Z.div_small c) by lia. apply Z.mod_small; lia.
Qed.

Lemma division_word_fields d1 d2 d3 :
  0 <= d1 <= 2047 -> 0 <= d2 <= 2047 -> 0 <= d3 <= 1023 ->
  div1 (packDivision d1 d2 d3) = d1 /\
  div2 (packDivision d1 d2 d3) = d2 /\
  div3 (packDivision d1 d2 d3) = d3.
Proof.
  intros H1 H2 H3.
  unfold div1, div2, div3.
  rewrite division_word_value by lia.
  rewrite (Z.mod_small (_ + _ + _)) by lia.
  change ptoDiv1 with (Z.ones 11).
  change ptoDiv2 with (Z.shiftl (Z.ones 11) 11).
  change ptoDiv3 with (Z.shiftl (Z.ones 10) 22).
  unfold descPtoDiv2, descPtoDiv3.
  rewrite !field_extract, !Z.land_ones by lia.
  repeat split.
  - replace (d1 + d2 * 2^11 + d3 * 2^22) with (d1 + (d2 + d3 * 2^11) * 2^11) by lia.
    rewrite Z_mod_plus_full. apply Z.mod_small; lia.
  - replace (d1 + d2 * 2^11 + d3 * 2^22) with (d1 + (d2 + d3 * 2^11) * 2^11) by lia.
    rewrite Z.div_add by lia. rewrite (Z.div_small d1) by lia.
    rewrite Z.add_0_l, Z_mod_plus_full. apply Z.mod_small; lia.
  - replace (d1 + d2 * 2^11 + d3 * 2^22) with ((d1 + d2 * 2^11) + d3 * 2^22) by lia.
    rewrite Z.div_add by lia. rewrite (Z.div_small (_ + _)) by lia.
    apply Z.mod_small; lia.
Qed.

(** C8 (as stated) fails: the third coordinate has only the ten bits 22..31
    of the division word, so the coordinate 1024, which fits in eleven bits,
    is read back as 0. *)
Lemma codec_third_coordinate_truncated :
  0 <= 1024 <= 2047 /\
  div3 (packDivision 0 0 1024) = 0 /\
  div3 (packDivision 0 0 1024) <> 1024.
Proof. split; [lia|]. split; [reflexivity|]. vm_compute. discriminate. Qed.

(** C8 (amended): a count below 2^27, a tag in 0..9, two coordinates of at
    most eleven bits and a third coordinate of at most ten bits (<= 1023)
    are all recovered from the packed solution and division words. *)
Theorem codec_roundtrip c t d1 d2 d3 :
  0 <= c <= 2^27 - 1 -> 0 <= t <= 9 ->
  0 <= d1 <= 2047 -> 0 <= d2 <= 2047 -> 0 <= d3 <= 1023 ->
  solCount (packSolution c t) = c /\
  solTag (packSolution c t) = t /\
  div1 (packDivision d1 d2 d3) = d1 /\
  div2 (packDivision d1 d2 d3) = d2 /\
  div3 (packDivision d1 d2 d3) = d3.
Proof.
  intros Hc Ht H1 H2 H3.
  destruct (solution_word_fields c t Hc Ht) as [-> ->].
  split; [done|]. split; [done|]. by apply division_word_fields.
Qed.

Lemma codec_roundtrip_witness :
  solCount (packSolution 28 6) = 28 /\
  solTag (packSolution 28 6) = 6 /\
  div1 (packDivision 7 3 14) = 7 /\
  div2 (packDivision 7 3 14) = 3 /\
  div3 (packDivision 7 3 14) = 14.
Proof. apply (codec_roundtrip 28 6 7 3 14); lia. Defined.

End CodecFacts.

(** * Arithmetic of int within 32 bits *)

Section IntFacts.

Lemma to_int32_within z : - 2^31 <= z < 2^31 → Codec.to_int32 z = z.
Proof. intros Hz. unfold Codec.to_int32. rewrite Z.mod_small; lia. Qed.

Lemma mul32_small a b : - 2^31 <= a * b < 2^31 → mul32 a b = a * b.
Proof. apply to_int32_within. Qed.

Lemma add32_small a b : - 2^31 <= a + b < 2^31 → add32 a b = a + b.
Proof. apply to_int32_within. Qed.

Lemma sub32_small a b : - 2^31 <= a - b < 2^31 → sub32 a b = a - b.
Proof. apply to_int32_within. Qed.

Lemma div32_pos a b : 0 < b → div32 a b = Ok (cdiv a b).
Proof. intros Hb. unfold div32. rewrite bool_decide_eq_false_2; [done|lia]. Qed.

Lemma mod32_pos a b : 0 < b → mod32 a b = Ok (cmod a b).
Proof. intros Hb. unfold mod32. rewrite bool_decide_eq_false_2; [done|lia]. Qed.

(** The product of two numbers within their bounds. *)
Lemma mul_within a b A B : 0 <= a <= A → 0 <= b <= B → 0 <= a * b <= A * B.
Proof.
  intros Ha Hb. split; [apply Z.mul_nonneg_nonneg; lia|].
  apply Z.mul_le_mono_nonneg; lia.
Qed.

(** One step of a mixed-radix index. *)
Lemma radix_step u v n N : 0 <= u < N → 0 <= v < n → 0 <= u * n + v < N * n.
Proof.
  intros Hu Hv. assert (0 <= u * n) by (apply Z.mul_nonneg_nonneg; lia).
  assert ((u + 1) * n <= N * n) by (apply Z.mul_le_mono_nonneg_r; lia). lia.
Qed.

End IntFacts.

(** * Facts about array reads and writes *)

Section ArrayFacts.
Context {A : Type}.
Implicit Types (a : list A) (i j : Z) (v : A).

Lemma bind_Ok {B C} (m : result B) (f : B → result C) (c : C) :
  m ≫= f = Ok c ↔ ∃ b, m = Ok b ∧ f b = Ok c.
Proof.
  destruct m as [b| |]; simpl; split.
  - intros Hf. exists b. done.
  - intros (b'&[= <-]&Hf). done.
  - done.
  - intros (b'&Hb&_). done.
  - done.
  - intros (b'&Hb&_). done.
Qed.

Lemma rd_Ok a i v : rd a i = Ok v ↔ 0 <= i ∧ a !! Z.to_nat i = Some v.
Proof.
  unfold rd. case_bool_decide as Hi.
  - destruct (a !! Z.to_nat i) eqn:E; split; try (intros [? ?]); try done.
    + intros [= ->]. done.
    + congruence.
  - split; [done|]. intros [? _]. lia.
Qed.

Lemma rd_in a i : 0 <= i < Z.of_nat (length a) → ∃ v, rd a i = Ok v.
Proof.
  intros Hi. destruct (lookup_lt_is_Some_2 a (Z.to_nat i)) as [v Hv]; [lia|].
  exists v. apply rd_Ok. split; [lia|done].
Qed.

Lemma rd_bound a i v : rd a i = Ok v → 0 <= i < Z.of_nat (length a).
Proof.
  intros [Hi Hv]%rd_Ok. apply lookup_lt_Some in Hv. lia.
Qed.

Lemma wr_in a i v : 0 <= i < Z.of_nat (length a) → wr a i v = Ok (<[Z.to_nat i := v]> a).
Proof. intros Hi. unfold wr. rewrite bool_decide_eq_true_2; done. Qed.

Lemma wr_Ok a i v a' :
  wr a i v = Ok a' ↔ 0 <= i < Z.of_nat (length a) ∧ a' = <[Z.to_nat i := v]> a.
Proof.
  unfold wr. case_bool_decide; split; try (intros [? ?]); try done.
  - intros [= <-]. done.
  - congruence.
Qed.

Lemma rd_insert_eq a i v : 0 <= i < Z.of_nat (length a) → rd (<[Z.to_nat i := v]> a) i = Ok v.
Proof.
  intros Hi. apply rd_Ok. split; [lia|]. apply list_lookup_insert_eq. lia.
Qed.

Lemma rd_insert_ne a i j v : 0 <= i → i ≠ j → rd (<[Z.to_nat i := v]> a) j = rd a j.
Proof.
  intros Hi Hne. unfold rd. case_bool_decide; [|done].
  rewrite list_lookup_insert_ne; [done|lia].
Qed.

End ArrayFacts.

Lemma rd_cell c j : 0 <= j < Z.of_nat (length c) → rd c j = Ok (cell c j).
Proof.
  intros Hj. destruct (rd_in c j Hj) as [v Hv]. rewrite Hv.
  apply rd_Ok in Hv as [_ Hv]. unfold cell. by rewrite Hv.
Qed.

Lemma cell_insert_eq c j v : 0 <= j < Z.of_nat (length c) → cell (<[Z.to_nat j := v]> c) j = v.
Proof. intros Hj. unfold cell. rewrite list_lookup_insert_eq; [done|lia]. Qed.

Lemma cell_insert_ne c i j v : 0 <= i → 0 <= j → i ≠ j → cell (<[Z.to_nat i := v]> c) j = cell c j.
Proof. intros. unfold cell. rewrite list_lookup_insert_ne; [done|lia]. Qed.

Lemma cell_replicate n j : cell (replicate n 0) j = 0.
Proof.
  unfold cell. destruct (replicate n 0 !! Z.to_nat j) eqn:E; [|done].
  apply lookup_replicate in E as [-> _]. done.
Qed.

(** * Ascending lists *)

Lemma asc_nil : asc [].
Proof. intros i j a b _ H. done. Qed.

Lemma asc_singleton x : asc [x].
Proof.
  intros i j a b Hij Hi Hj. apply lookup_lt_Some in Hj. simpl in Hj. lia.
Qed.

Lemma asc_snoc l x : asc l → (∀ a, a ∈ l → a < x) → asc (l ++ [x]).
Proof.
  intros Hl Hx i j a b Hij Hi Hj.
  assert (i < length l)%nat as Hil.
  { apply lookup_lt_Some in Hj. rewrite length_app in Hj. simpl in Hj. lia. }
  rewrite lookup_app_l in Hi by done.
  destruct (decide (j < length l)%nat).
  - rewrite lookup_app_l in Hj by done. eauto.
  - rewrite lookup_app_r in Hj by lia.
    destruct (j - length l)%nat eqn:E; simpl in Hj; [|done].
    injection Hj as <-. apply Hx. eapply list_elem_of_lookup_2. done.
Qed.

Lemma asc_cons x l : asc l → (∀ a, a ∈ l → x < a) → asc (x :: l).
Proof.
  intros Hl Hx i j a b Hij Hi Hj.
  destruct j as [|j]; [lia|]. simpl in Hj.
  destruct i as [|i]; simpl in Hi.
  - injection Hi as <-. apply Hx. eapply list_elem_of_lookup_2. done.
  - apply (Hl i j); [lia|done|done].
Qed.

Lemma asc_cons_inv x l : asc (x :: l) → asc l ∧ (∀ a, a ∈ l → x < a).
Proof.
  intros H. split.
  - intros i j a b Hij Hi Hj. apply (H (S i) (S j)); [lia|done|done].
  - intros a [k Hk]%list_elem_of_lookup. apply (H 0%nat (S k)); [lia|done|done].
Qed.

Lemma asc_app_inv l1 l2 : asc (l1 ++ l2) →
  asc l1 ∧ asc l2 ∧ (∀ a b, a ∈ l1 → b ∈ l2 → a < b).
Proof.
  intros H. repeat split.
  - intros i j a b Hij Hi Hj. apply (H i j); [done| |].
    all: apply lookup_app_l_Some; done.
  - intros i j a b Hij Hi Hj. apply (H (length l1 + i)%nat (length l1 + j)%nat); [lia| |].
    all: rewrite lookup_app_r by lia.
    + replace (length l1 + i - length l1)%nat with i by lia. done.
    + replace (length l1 + j - length l1)%nat with j by lia. done.
  - intros a b [i Hi]%list_elem_of_lookup [j Hj]%list_elem_of_lookup.
    apply (H i (length l1 + j)%nat).
    + apply lookup_lt_Some in Hi. lia.
    + apply lookup_app_l_Some. done.
    + rewrite lookup_app_r by lia.
      replace (length l1 + j - length l1)%nat with j by lia. done.
Qed.

Lemma asc_app l1 l2 : asc l1 → asc l2 → (∀ a b, a ∈ l1 → b ∈ l2 → a < b) → asc (l1 ++ l2).
Proof.
  intros H1 H2 H12. induction l1 as [|x l1 IH]; [done|].
  apply asc_cons_inv in H1 as [H1 Hx]. simpl. apply asc_cons.
  - apply IH; [done|]. intros a b Ha Hb. apply H12; [by right|done].
  - intros a [Ha|Ha]%elem_of_app; [by apply Hx|]. apply H12; [by left|done].
Qed.

Lemma asc_NoDup l : asc l → NoDup l.
Proof.
  intros H. apply NoDup_alt. intros i j x Hi Hj.
  destruct (Nat.lt_trichotomy i j) as [Hij|[->|Hij]]; [|done|].
  - pose proof (H i j x x Hij Hi Hj). lia.
  - pose proof (H j i x x Hij Hj Hi). lia.
Qed.

Lemma asc_filter (P : Z → Prop) `{!∀ x, Decision (P x)} l : asc l → asc (filter P l).
Proof.
  induction l as [|x l IH]; [done|]. intros [Hl Hx]%asc_cons_inv.
  rewrite filter_cons. case_decide; [|by apply IH].
  apply asc_cons; [by apply IH|]. intros a [_ Ha]%list_elem_of_filter. by apply Hx.
Qed.

Lemma asc_seqZ m n : asc (seqZ m n).
Proof.
  intros i j a b Hij Hi Hj.
  apply lookup_seqZ in Hi as [-> _]. apply lookup_seqZ in Hj as [-> _]. lia.
Qed.

Lemma asc_last_max l x a : asc l → list.last l = Some x → a ∈ l → a <= x.
Proof.
  intros Hl Hx [i Hi]%list_elem_of_lookup.
  rewrite last_lookup in Hx.
  assert (i < length l)%nat by (by eapply lookup_lt_Some).
  destruct (decide (i = Nat.pred (length l))) as [->|].
  - rewrite Hi in Hx. injection Hx as ->. lia.
  - assert (a < x); [|lia]. apply (Hl i (Nat.pred (length l))); [lia|done|done].
Qed.

Lemma asc_head_min l x a : asc l → list.head l = Some x → a ∈ l → x <= a.
Proof.
  intros Hl Hx Ha. destruct l as [|y l]; [done|]. injection Hx as ->.
  apply asc_cons_inv in Hl as [_ Hl].
  apply elem_of_cons in Ha as [->|Ha]; [lia|]. apply Hl in Ha. lia.
Qed.

Lemma filter_all {A} (P : A → Prop) `{!∀ x, Decision (P x)} (l : list A) :
  (∀ x, x ∈ l → P x) → filter P l = l.
Proof.
  induction l as [|x l IH]; [done|]. intros Hall.
  rewrite filter_cons_True by (apply Hall; by left).
  f_equal. apply IH. intros y Hy. apply Hall. by right.
Qed.

(** Run a computation and give its result as the witness of an existential
    statement [∃ r, e = Ok r ∧ _]; the equation is kept as [H]. *)
Ltac compute_exists_as H :=
  match goal with
  | |- ∃ r, ?e = Ok r ∧ @?P r =>
      let x := eval vm_compute in e in
      match x with
      | Ok ?v =>
          assert (e = Ok v) as H by (vm_compute; reflexivity);
          exists v; split; [exact H|]
      end
  end.

Lemma elem_of_check (x : Z) (l : list Z) : bool_decide (x ∈ l) = true → x ∈ l.
Proof. apply bool_decide_eq_true_1. Qed.

Lemma filter_none {A} (P : A → Prop) `{!∀ x, Decision (P x)} (l : list A) :
  (∀ x, x ∈ l → ¬ P x) → filter P l = [].
Proof.
  induction l as [|x l IH]; [done|]. intros Hall.
  rewrite filter_cons_False by (apply Hall; by left).
  apply IH. intros y Hy. apply Hall. by right.
Qed.

(** * The set of conic combinations *)

Section ConicFacts.
Import Sets.

Lemma Conic_0 l w : Conic l w 0.
Proof. exists 0, 0. lia. Qed.

Lemma Conic_add l w x y : Conic l w x → Conic l w y → Conic l w (x + y).
Proof.
  intros (r1&s1&?&?&->) (r2&s2&?&?&->). exists (r1 + r2), (s1 + s2). lia.
Qed.

Lemma Conic_nonneg l w x : 0 < l → 0 < w → Conic l w x → 0 <= x.
Proof. intros Hl Hw (r&s&?&?&->). nia. Qed.

Lemma Conic_mult_l l w k : 0 <= k → Conic l w (l * k).
Proof. intros Hk. exists k, 0. lia. Qed.

Lemma conicLoop_spec step n i c :
  0 < step → step <= i → (n = 0%nat ∨ i + Z.of_nat n <= Z.of_nat (length c)) →
  ∃ c', conicLoop step n i c = Ok c' ∧
    length c' = length c ∧
    (∀ j, 0 <= j → ¬ (i <= j < i + Z.of_nat n) → cell c' j = cell c j) ∧
    (∀ j, i <= j < i + Z.of_nat n →
       cell c' j = Z.max (cell c j) (cell c' (j - step) + step)).
Proof.
  intros Hstep. revert i c. induction n as [|n IH]; intros i c Hi Hlen.
  { exists c. split; [done|]. split; [done|]. split; [done|]. intros j Hj. lia. }
  destruct Hlen as [?|Hlen]; [done|].
  cbn [conicLoop].
  rewrite (rd_cell c i), (rd_cell c (i - step)) by lia. cbn [mbind result_bind].
  set (c1 := if bool_decide (cell c i < cell c (i - step) + step)
             then <[Z.to_nat i := cell c (i - step) + step]> c else c).
  assert ((if bool_decide (cell c i < cell c (i - step) + step)
           then wr c i (cell c (i - step) + step) else Ok c) = Ok c1) as ->.
  { unfold c1. case_bool_decide; [|done]. apply wr_in. lia. }
  cbn [mbind result_bind].
  assert (length c1 = length c) as Hl1.
  { unfold c1. case_bool_decide; [apply length_insert|done]. }
  assert (cell c1 i = Z.max (cell c i) (cell c (i - step) + step)) as Hc1i.
  { unfold c1. case_bool_decide.
    - rewrite cell_insert_eq by lia. lia.
    - lia. }
  assert (∀ j, 0 <= j → j ≠ i → cell c1 j = cell c j) as Hc1o.
  { intros j Hj Hne. unfold c1. case_bool_decide; [|done].
    apply cell_insert_ne; lia. }
  destruct (IH (i + 1) c1) as (c'&Hrun&Hlen'&Hframe&Hrec); [lia|right; lia|].
  exists c'. split; [done|]. split; [congruence|]. split.
  - intros j Hj Hout. rewrite Hframe by lia. apply Hc1o; lia.
  - intros j Hj. destruct (decide (j = i)) as [->|Hne].
    + rewrite (Hframe i) by lia. rewrite (Hframe (i - step)) by lia.
      rewrite (Hc1o (i - step)) by lia. done.
    + rewrite Hrec by lia. rewrite Hc1o by lia. done.
Qed.

Lemma collectLoop_spec c n i inX X :
  0 <= i → i + Z.of_nat n <= Z.of_nat (length c) → length inX = length c →
  (∀ j, i <= j → cell inX j = 0) →
  collectLoop c n i inX X =
    Ok (X ++ filter (λ j, cell c j = j) (seqZ i (Z.of_nat n))).
Proof.
  revert i inX X. induction n as [|n IH]; intros i inX X Hi Hlen HlenX Hz.
  { simpl. by rewrite app_nil_r. }
  cbn [collectLoop]. rewrite (rd_cell c i) by lia. cbn [mbind result_bind].
  rewrite Nat2Z.inj_succ, seqZ_cons by lia. rewrite filter_cons.
  replace (Z.pred (Z.succ (Z.of_nat n))) with (Z.of_nat n) by lia.
  replace (Z.succ i) with (i + 1) by lia.
  case_bool_decide as Hci.
  - rewrite (rd_cell inX i) by lia. cbn [mbind result_bind].
    rewrite (Hz i) by lia. rewrite bool_decide_eq_true_2 by done.
    rewrite wr_in by lia. cbn [mbind result_bind].
    rewrite IH; [|lia|lia|by rewrite length_insert|].
    + rewrite decide_True by done. by rewrite <- app_assoc.
    + intros j Hj. rewrite cell_insert_ne by lia. apply Hz. lia.
  - rewrite IH; [|lia|lia|done|].
    + by rewrite decide_False by done.
    + intros j Hj. apply Hz. lia.
Qed.

Context (L l w : Z).
Hypothesis Hl : 0 < l.
Hypothesis Hw : 0 < w.
Hypothesis HL : 0 <= L.

Lemma pass1_value c1 :
  (∀ j, 0 <= j → ¬ (l <= j < l + Z.of_nat (Z.to_nat (L - l + 1))) → cell c1 j = 0) →
  (∀ j, l <= j < l + Z.of_nat (Z.to_nat (L - l + 1)) →
     cell c1 j = Z.max 0 (cell c1 (j - l) + l)) →
  ∀ j, 0 <= j <= L → cell c1 j = l * (j / l).
Proof.
  intros Hframe Hrec j.
  induction j as [j IH] using (well_founded_induction (Z.lt_wf 0)).
  intros [Hj0 HjL].
  destruct (decide (j < l)) as [Hlt|Hge].
  - rewrite Hframe by lia. rewrite Z.div_small by lia. lia.
  - rewrite Hrec by lia. rewrite IH by lia.
    replace j with ((j - l) + 1 * l) at 2 by lia.
    rewrite Z.div_add by lia.
    assert (0 <= (j - l) / l) by (apply Z.div_pos; lia). lia.
Qed.

Lemma pass2_value c1 c2 :
  (∀ j, 0 <= j <= L → cell c1 j = l * (j / l)) →
  (∀ j, 0 <= j → ¬ (w <= j < w + Z.of_nat (Z.to_nat (L - w + 1))) → cell c2 j = cell c1 j) →
  (∀ j, w <= j < w + Z.of_nat (Z.to_nat (L - w + 1)) →
     cell c2 j = Z.max (cell c1 j) (cell c2 (j - w) + w)) →
  ∀ j, 0 <= j <= L → (cell c2 j = j ↔ Conic l w j).
Proof.
  intros H1 Hframe Hrec.
  assert (∀ j, 0 <= j <= L → l * (j / l) <= j) as Hdiv.
  { intros j Hj. apply Z.mul_div_le. lia. }
  assert (∀ j, 0 <= j → j <= L → cell c2 j <= j ∧ Conic l w (cell c2 j)) as Hab.
  { intros j.
    induction j as [j IH] using (well_founded_induction (Z.lt_wf 0)).
    intros Hj0 HjL.
    assert (Conic l w (cell c1 j)) as Hc1.
    { rewrite H1 by lia. apply Conic_mult_l. apply Z.div_pos; lia. }
    destruct (decide (j < w)) as [Hlt|Hge].
    - rewrite Hframe by lia. split; [|done]. rewrite H1 by lia. apply Hdiv. lia.
    - rewrite Hrec by lia. destruct (IH (j - w)) as [Hle Hcon]; [lia|lia|lia|].
      pose proof (Hdiv j ltac:(lia)). rewrite <- H1 in H by lia.
      split; [lia|].
      destruct (Z.max_spec (cell c1 j) (cell c2 (j - w) + w)) as [[_ ->]|[_ ->]]; [|done].
      apply Conic_add; [done|]. exists 0, 1. lia. }
  assert (∀ j, 0 <= j → j <= L → Conic l w j → j <= cell c2 j) as Hc.
  { intros j.
    induction j as [j IH] using (well_founded_induction (Z.lt_wf 0)).
    intros Hj0 HjL (r&s&Hr&Hs&Hrs).
    assert (cell c1 j <= cell c2 j) as Hmono.
    { destruct (decide (j < w)); [rewrite Hframe by lia; lia|rewrite Hrec by lia; lia]. }
    destruct (decide (s = 0)) as [->|Hs0].
    - assert (cell c1 j = j); [|lia]. rewrite H1 by lia.
      replace j with (r * l) by lia. rewrite Z.div_mul by lia. lia.
    - assert (w <= j) by nia.
      rewrite Hrec by lia.
      assert (j - w <= cell c2 (j - w)); [|lia].
      apply IH; [lia|lia|lia|]. exists r, (s - 1). lia. }
  intros j Hj. split.
  - intros Heq. rewrite <- Heq. apply Hab; lia.
  - intros Hcon. pose proof (Hc j ltac:(lia) ltac:(lia) Hcon).
    destruct (Hab j) as [? _]; lia.
Qed.

(** What [constructConicCombinations] returns. *)
Theorem constructConicCombinations_spec :
  ∃ X, constructConicCombinations L l w = Ok X ∧
       asc X ∧ list.head X = Some 0 ∧ list.last X = Some L ∧
       (∀ x, x ∈ X ↔ InX L l w x).
Proof.
  unfold constructConicCombinations.
  set (zeros := replicate (Z.to_nat (L + 2)) 0).
  assert (length zeros = Z.to_nat (L + 2)) as Hlz by apply length_replicate.
  assert (∀ j, cell zeros j = 0) as Hzeros by (intros j; apply cell_replicate).
  clearbody zeros.
  rewrite wr_in by lia. cbn [mbind result_bind].
  destruct (conicLoop_spec l (Z.to_nat (L - l + 1)) l zeros) as (c1&->&Hl1&Hf1&Hr1);
    [done|lia|lia|].
  cbn [mbind result_bind].
  destruct (conicLoop_spec w (Z.to_nat (L - w + 1)) w c1) as (c2&->&Hl2&Hf2&Hr2);
    [done|lia|lia|].
  cbn [mbind result_bind].
  rewrite collectLoop_spec; [|lia|lia|rewrite length_insert; congruence|]; cycle 1.
  { intros j Hj. rewrite cell_insert_ne by lia. apply Hzeros. }
  cbn [mbind result_bind]. rewrite Z2Nat.id by lia.
  assert (∀ j, 0 <= j <= L → cell c2 j = j ↔ Conic l w j) as Hconic.
  { apply (pass2_value c1 c2); [|done|done].
    apply pass1_value.
    - intros j Hj Hout. rewrite Hf1 by done. apply Hzeros.
    - intros j Hj. rewrite Hr1 by done. by rewrite Hzeros. }
  set (F := filter (λ j, cell c2 j = j) (seqZ 1 L)).
  assert (∀ x, x ∈ F ↔ 1 <= x <= L ∧ Conic l w x) as HF.
  { intros x. unfold F. rewrite list_elem_of_filter, elem_of_seqZ.
    split.
    - intros [Hc Hx]. split; [lia|]. apply Hconic; [lia|done].
    - intros [Hx Hc]. split; [|lia]. apply Hconic; [lia|done]. }
  assert (asc ([0] ++ F)) as HascF.
  { apply asc_app; [apply asc_singleton|apply asc_filter, asc_seqZ|].
    intros a b ->%list_elem_of_singleton Hb%HF. lia. }
  assert (∀ a, a ∈ [0] ++ F → 0 <= a <= L) as Hrange.
  { intros a [->%list_elem_of_singleton|Ha%HF]%elem_of_app; lia. }
  destruct (list.last ([0] ++ F)) as [lastX|] eqn:Hlast; cycle 1.
  { apply last_None in Hlast. done. }
  assert (rd ([0] ++ F) (Z.of_nat (length ([0] ++ F)) - 1) = Ok lastX) as ->.
  { apply rd_Ok. rewrite last_lookup in Hlast. split; [simpl; lia|].
    rewrite <- Hlast. f_equal. simpl. lia. }
  cbn [mbind result_bind].
  assert (lastX ∈ [0] ++ F) as HlastIn by (by apply last_Some_elem_of).
  case_bool_decide as HlastL.
  - eexists. split; [done|]. split; [|split; [|split]].
    + apply asc_snoc; [done|]. intros a Ha.
      pose proof (asc_last_max _ _ a HascF Hlast Ha).
      pose proof (Hrange _ HlastIn). lia.
    + done.
    + apply last_snoc.
    + intros x. rewrite elem_of_app, elem_of_app, !list_elem_of_singleton, HF.
      unfold InX. split.
      * intros [[->|[? ?]]| ->]; (split; [lia|]); eauto using Conic_0.
      * intros [Hx [Hc| ->]]; [|by right]. left.
        destruct (decide (x = 0)); [by left|right]. split; [lia|done].
  - subst lastX.
    eexists. split; [done|]. split; [done|]. split; [done|]. split; [done|].
    intros x. rewrite elem_of_app, !list_elem_of_singleton, HF. unfold InX. split.
    + intros [->|[? ?]]; (split; [lia|]); eauto using Conic_0.
    + intros [Hx [Hc| ->]].
      * destruct (decide (x = 0)); [by left|right]. split; [lia|done].
      * apply elem_of_app in HlastIn. by rewrite list_elem_of_singleton, HF in HlastIn.
Qed.

End ConicFacts.

(** * The normalisation table *)

Section NormalizeFacts.
Import Sets.

Lemma IsNorm_unique X j v v' : IsNorm X j v → IsNorm X j v' → v = v'.
Proof.
  intros (Hv&Hvj&Hmax) (Hv'&Hvj'&Hmax').
  pose proof (Hmax _ Hv' Hvj'). pose proof (Hmax' _ Hv Hvj). lia.
Qed.

Lemma advance_spec j prev rest :
  ∃ moved rest', advance j prev rest = (from_option Some prev (list.last moved), rest') ∧
    rest = moved ++ rest' ∧ (∀ a, a ∈ moved → a <= j) ∧
    (∀ p, list.head rest' = Some p → j < p).
Proof.
  revert prev. induction rest as [|p rest IH]; intros prev.
  { exists [], []. simpl. repeat split; try done.
    all: try (by intros a ?%elem_of_nil). }
  simpl. case_bool_decide as Hp.
  - destruct (IH (Some p)) as (moved&rest'&->&->&Hmoved&Hhead).
    exists (p :: moved), rest'. split; [|split; [done|split]].
    + f_equal. destruct moved as [|m moved]; [done|].
      rewrite last_cons_cons. destruct (list.last (m :: moved)) eqn:E; [done|].
      by apply last_None in E.
    + intros a [->|Ha]%elem_of_cons; [done|by apply Hmoved].
    + done.
  - exists [], (p :: rest). repeat split; try done.
    all: try (by intros a ?%elem_of_nil).
    all: try (intros p' [= <-]; lia).
Qed.

Lemma normalizeLoop_spec X n j prev done rest acc :
  asc X → list.head X = Some 0 → 0 <= j →
  X = done ++ rest → prev = list.last done → (∀ a, a ∈ done → a < j) →
  ∃ vs, normalizeLoop n j prev rest acc = Ok (acc ++ vs) ∧ length vs = n ∧
        ∀ k v, vs !! k = Some v → IsNorm X (j + Z.of_nat k) v.
Proof.
  intros Hasc Hhead. revert j prev done rest acc.
  induction n as [|n IH]; intros j prev done rest acc Hj HX Hprev Hdone.
  { exists []. rewrite app_nil_r. done. }
  cbn [normalizeLoop].
  destruct (advance_spec j prev rest) as (moved&rest'&->&Hrest&Hmoved&Hhead').
  set (done' := done ++ moved).
  assert (X = done' ++ rest') as HX' by (unfold done'; rewrite <- app_assoc; congruence).
  assert (from_option Some prev (list.last moved) = list.last done') as Hlast.
  { unfold done'. subst prev. destruct moved as [|m moved _] using rev_ind.
    - by rewrite app_nil_r.
    - by rewrite app_assoc, !last_snoc. }
  rewrite Hlast.
  assert (∀ a, a ∈ done' → a <= j) as Hdone'.
  { intros a [Ha|Ha]%elem_of_app; [apply Hdone in Ha; lia|by apply Hmoved]. }
  destruct (list.last done') as [v|] eqn:Hv; cycle 1.
  { apply last_None in Hv. rewrite Hv in HX'. simpl in HX'. subst rest'.
    apply Hhead' in Hhead. lia. }
  assert (IsNorm X j v) as Hnorm.
  { assert (v ∈ done') as Hin by (by apply last_Some_elem_of).
    rewrite HX' in Hasc. apply asc_app_inv in Hasc as (Hasc1&Hasc2&Hasc12).
    split; [rewrite HX'; apply elem_of_app; by left|]. split; [by apply Hdone'|].
    intros s Hs Hsj. rewrite HX' in Hs. apply elem_of_app in Hs as [Hs|Hs].
    - by apply (asc_last_max done').
    - destruct rest' as [|p rest']; [by apply elem_of_nil in Hs|].
      pose proof (Hhead' p eq_refl).
      apply elem_of_cons in Hs as [->|Hs]; [lia|].
      apply asc_cons_inv in Hasc2 as [_ Hp]. apply Hp in Hs. lia. }
  destruct (IH (j + 1) (Some v) done' rest' (acc ++ [v])) as (vs&->&Hlen&Hvs);
    [lia|done|done| |].
  { intros a Ha. apply Hdone' in Ha. lia. }
  exists (v :: vs). split; [by rewrite <- app_assoc|]. split; [simpl; lia|].
  intros [|k] v' Hk; simpl in Hk.
  - injection Hk as <-. by rewrite Z.add_0_r.
  - apply Hvs in Hk. replace (j + Z.of_nat (S k)) with (j + 1 + Z.of_nat k) by lia. done.
Qed.

(** What [buildNormalize] returns for an ascending set that starts with 0. *)
Lemma buildNormalize_spec L X :
  asc X → list.head X = Some 0 → 0 <= L →
  ∃ norm, buildNormalize L X = Ok norm ∧ Z.of_nat (length norm) = L + 1 ∧
          ∀ j, 0 <= j <= L → IsNorm X j (cell norm j).
Proof.
  intros Hasc Hhead HL. unfold buildNormalize.
  destruct (normalizeLoop_spec X (Z.to_nat (L + 1)) 0 None [] X []) as (vs&->&Hlen&Hvs);
    try done.
  { by intros a ?%elem_of_nil. }
  exists vs. split; [done|]. split; [simpl; lia|].
  intros j Hj. unfold cell.
  destruct (lookup_lt_is_Some_2 vs (Z.to_nat j)) as [v Hv]; [lia|].
  rewrite Hv. simpl. apply Hvs in Hv. by rewrite Z2Nat.id in Hv by lia.
Qed.

End NormalizeFacts.

(** * The conic set and its normalisation table together *)

Section ConicNormalize.
Import Sets.
Context (L l w : Z).
Hypothesis Hl : 0 < l.
Hypothesis Hw : 0 < w.
Hypothesis HL : 0 <= L.

(** C6: after constructConicCombinations and the normalize loop of
    initialize, for every x in 0..L: normalize[x] = x when x is in X, and
    normalize[x] < x when it is not. *)
Theorem conic_set_closure :
  ∃ X norm,
    Sets.constructConicCombinations L l w = Ok X ∧
    Sets.buildNormalize L X = Ok norm ∧
    ∀ x, 0 <= x <= L →
      ∃ v, rd norm x = Ok v ∧ (x ∈ X → v = x) ∧ (x ∉ X → v < x).
Proof.
  destruct (constructConicCombinations_spec L l w Hl Hw HL) as (X&HX&Hasc&Hhead&Hlast&Hmem).
  destruct (buildNormalize_spec L X Hasc Hhead HL) as (norm&Hnorm&Hlen&Hspec).
  exists X, norm. split; [done|]. split; [done|].
  intros x Hx. exists (cell norm x). split; [apply rd_cell; lia|].
  destruct (Hspec x Hx) as (Hin&Hle&Hmax). split.
  - intros HxX. pose proof (Hmax x HxX). lia.
  - intros HxX. destruct (decide (cell norm x = x)) as [Heq|Hne]; [|lia].
    rewrite Heq in Hin. done.
Qed.

End ConicNormalize.

Lemma conic_set_closure_witness :
  ∃ X norm,
    Sets.constructConicCombinations 13 5 3 = Ok X ∧
    Sets.buildNormalize 13 X = Ok norm ∧
    ∀ x, 0 <= x <= 13 →
      ∃ v, rd norm x = Ok v ∧ (x ∈ X → v = x) ∧ (x ∉ X → v < x).
Proof. apply (conic_set_closure 13 5 3); lia. Defined.

(** * Raster points and their merge *)

Section RasterFacts.
Import Sets FiveBlock.

Lemma insert_asc x s : asc s → asc (insert x s).
Proof.
  intros Hs. unfold insert. destruct (list.last s) as [p|] eqn:Hp.
  - case_bool_decide; [|done]. apply asc_snoc; [done|].
    intros a Ha. pose proof (asc_last_max s p a Hs Hp Ha). lia.
  - apply last_None in Hp. subst s. apply asc_singleton.
Qed.

Lemma insert_elem x s a : a ∈ insert x s → a ∈ s ∨ a = x.
Proof.
  unfold insert. destruct (list.last s); [case_bool_decide|].
  all: rewrite ?elem_of_app, ?list_elem_of_singleton; tauto.
Qed.

Lemma insert_keeps x s a : a ∈ s → a ∈ insert x s.
Proof.
  unfold insert. destruct (list.last s); [case_bool_decide|].
  all: rewrite ?elem_of_app; tauto.
Qed.

Lemma insert_head x s : s ≠ [] → list.head (insert x s) = list.head s.
Proof.
  intros Hs. unfold insert. destruct (list.last s); [case_bool_decide|]; try done.
  all: by destruct s.
Qed.

(** An element that is at least the last one is in the set afterwards. *)
Lemma insert_adds x s : (∀ p, list.last s = Some p → p <= x) → x ∈ insert x s.
Proof.
  intros Hx. unfold insert. destruct (list.last s) as [p|] eqn:Hp.
  - case_bool_decide.
    + apply elem_of_app. right. by apply list_elem_of_singleton.
    + pose proof (Hx p eq_refl). assert (x = p) as -> by lia.
      by apply last_Some_elem_of.
  - apply elem_of_app. right. by apply list_elem_of_singleton.
Qed.

Lemma insert_last x s :
  (∀ p, list.last s = Some p → p <= x) → list.last (insert x s) = Some x.
Proof.
  intros Hx. unfold insert. destruct (list.last s) as [p|] eqn:Hp.
  - case_bool_decide; [apply last_snoc|].
    pose proof (Hx p eq_refl). rewrite Hp. f_equal. lia.
  - apply last_snoc.
Qed.

Lemma rasterLoop_asc norm L ps acc r :
  rasterLoop norm L ps acc = Ok r → asc acc →
  asc r ∧ (∀ x, x ∈ r → x ∈ acc ∨ ∃ p, p ∈ ps ∧ rd norm (L - p) = Ok x) ∧
  (acc ≠ [] → list.head r = list.head acc).
Proof.
  revert acc. induction ps as [|p ps IH]; intros acc Hrun Hacc.
  { injection Hrun as <-. split; [done|]. split; [by left|done]. }
  simpl in Hrun. apply bind_Ok in Hrun as (x&Hx&Hrun).
  destruct (IH _ Hrun (insert_asc x acc Hacc)) as (Hasc&Hmem&Hhead).
  split; [done|]. split.
  - intros y Hy. destruct (Hmem y Hy) as [[Hin| ->]%insert_elem|(p'&Hp'&Hrd)].
    + by left.
    + right. exists p. split; [by left|done].
    + right. exists p'. split; [by right|done].
  - intros Hne. rewrite Hhead, insert_head; [done|done|].
    unfold insert. destruct (list.last acc); [case_bool_decide|]; try done.
    all: by destruct acc.
Qed.

(** With values that do not decrease along the loop every value is kept. *)
Lemma rasterLoop_complete norm L ps acc :
  (∀ p, p ∈ ps → 0 <= L - p < Z.of_nat (length norm)) →
  (∀ (i j : nat) p p', (i <= j)%nat → ps !! i = Some p → ps !! j = Some p' →
     cell norm (L - p) <= cell norm (L - p')) →
  (∀ a p, list.last acc = Some a → list.head ps = Some p → a <= cell norm (L - p)) →
  ∃ r, rasterLoop norm L ps acc = Ok r ∧
       (∀ a, a ∈ acc → a ∈ r) ∧ (∀ p, p ∈ ps → cell norm (L - p) ∈ r) ∧
       (ps ≠ [] → ∃ p, list.last ps = Some p ∧ list.last r = Some (cell norm (L - p))).
Proof.
  revert acc. induction ps as [|p ps IH]; intros acc Hrange Hmono Hacc.
  { exists acc. split; [done|]. split; [done|]. split; [by intros p ?%elem_of_nil|done]. }
  simpl. rewrite rd_cell by (apply Hrange; by left). cbn [mbind result_bind].
  assert (∀ a, list.last acc = Some a → a <= cell norm (L - p)) as Hle.
  { intros a Ha. by apply (Hacc a p). }
  destruct (IH (insert (cell norm (L - p)) acc)) as (r&Hr&Hkeep&Hall&Hlast).
  - intros p' Hp'. apply Hrange. by right.
  - intros i j a b Hij Hi Hj. apply (Hmono (S i) (S j)); [lia|done|done].
  - intros a p' Ha Hp'. rewrite insert_last in Ha by done. injection Ha as <-.
    destruct ps as [|p'' ps]; [done|]. injection Hp' as ->.
    apply (Hmono 0%nat 1%nat); [lia|done|done].
  - exists r. split; [done|]. split; [|split].
    + intros a Ha. by apply Hkeep, insert_keeps.
    + intros p' [->|Hp']%elem_of_cons; [|by apply Hall].
      by apply Hkeep, insert_adds.
    + intros _. destruct ps as [|p' ps].
      * exists p. split; [done|]. simpl in Hr. injection Hr as <-.
        by apply insert_last.
      * destruct Hlast as (pl&Hpl&Hrl); [done|]. exists pl. split; [|done].
        by rewrite last_cons_cons.
Qed.

Lemma below_spec L ps : below L ps = ps ∨ ∃ p, p ∈ ps ∧ L < p.
Proof.
  destruct ps as [|p ps]; [by left|]. simpl. case_bool_decide; [|by left].
  right. exists p. split; [by left|lia].
Qed.

Lemma below_all L ps : (∀ p, p ∈ ps → p <= L) → below L ps = ps.
Proof.
  intros H. destruct (below_spec L ps) as [?|(p&Hp&?)]; [done|].
  apply H in Hp. lia.
Qed.

Lemma below_suffix L ps : ∃ pre, ps = pre ++ below L ps ∧ ∀ p, p ∈ pre → L < p.
Proof.
  induction ps as [|p ps IH].
  { exists []. split; [done|]. by intros a ?%elem_of_nil. }
  simpl. case_bool_decide.
  - destruct IH as (pre&Hpre&Hgt). exists (p :: pre). split; [simpl; congruence|].
    intros a [->|Ha]%elem_of_cons; [lia|by apply Hgt].
  - exists []. split; [done|]. by intros a ?%elem_of_nil.
Qed.

(** The points that the loops of [constructRasterPoints] keep, for an
    ascending set: those that are at most [L]. *)
Lemma below_reverse_asc L cc :
  asc cc → below L (reverse cc) = reverse (filter (λ p, p <= L) cc).
Proof.
  induction cc as [|p cc IH] using rev_ind; [done|]. intros Hasc.
  apply asc_app_inv in Hasc as (Hcc&_&Hlt).
  rewrite reverse_snoc, list.filter_app. simpl. rewrite filter_cons, filter_nil.
  case_bool_decide as Hp; case_decide; try lia.
  - rewrite IH, app_nil_r by done. done.
  - rewrite reverse_snoc. f_equal. f_equal. symmetry.
    apply filter_all. intros x Hx.
    assert (x < p) by (apply Hlt; [done|by apply list_elem_of_singleton]). lia.
Qed.

Lemma mergeLoop_spec L_n W_n xs ys acc acc' xs' :
  mergeLoop L_n W_n xs ys acc = (acc', xs') →
  asc xs → asc ys → asc acc →
  (∀ a b, a ∈ acc → b ∈ xs ++ ys → a < b) →
  asc (acc' ++ xs') ∧
  (∀ a, a ∈ acc' ++ xs' → a ∈ acc ∨ a ∈ xs ∨ a ∈ ys) ∧
  (∀ a, a ∈ acc ∨ a ∈ xs → a ∈ acc' ++ xs') ∧
  (acc ≠ [] → list.head acc' = list.head acc).
Proof.
  revert ys acc. induction xs as [|x xs IHx]; intros ys acc.
  { destruct ys; simpl; intros [= <- <-] _ _ Hacc _; rewrite app_nil_r.
    all: split; [done|]; split; [tauto|]; split; [|done].
    all: intros a [?|?%elem_of_nil]; done. }
  induction ys as [|y ys IHy] in acc |- *; intros Hrun Hx Hy Hacc Hlt.
  { simpl in Hrun. injection Hrun as <- <-. split.
    - apply asc_app; [done|done|]. intros a b Ha Hb. apply Hlt; [done|].
      by rewrite app_nil_r.
    - split; [|split; [|done]]; intros a; rewrite elem_of_app; tauto. }
  simpl in Hrun.
  pose proof (asc_cons_inv _ _ Hx) as [Hxs Hxlt].
  pose proof (asc_cons_inv _ _ Hy) as [Hys Hylt].
  case_bool_decide as Hb.
  2:{ injection Hrun as <- <-. split.
      - apply asc_app; [done|done|]. intros a b Ha Hb'. apply Hlt; [done|].
        apply elem_of_app. by left.
      - split; [|split; [|done]]; intros a; rewrite elem_of_app; tauto. }
  case_bool_decide as Heq; [|case_bool_decide as Hxy].
  - subst y. destruct (IHx ys (acc ++ [x]) Hrun Hxs Hys) as (H1&H2&H3&H4).
    + apply asc_snoc; [done|]. intros a Ha. apply Hlt; [done|]. by left.
    + intros a b [Ha|Ha%list_elem_of_singleton]%elem_of_app Hb'.
      * apply Hlt; [done|]. rewrite elem_of_app in Hb' |- *.
        destruct Hb'; [left|right]; by right.
      * subst a. apply elem_of_app in Hb' as [?|?]; eauto.
    + split; [done|]. split; [|split].
      * intros a Ha. destruct (H2 a Ha) as [[?|?%list_elem_of_singleton]%elem_of_app|[?|?]].
        -- by left.
        -- subst a. right; left; by left.
        -- right; left; by right.
        -- right; right; by right.
      * intros a [Ha|[->|Ha]%elem_of_cons]; apply H3.
        -- left. apply elem_of_app. by left.
        -- left. apply elem_of_app. right. by apply list_elem_of_singleton.
        -- by right.
      * intros Hne. rewrite H4 by (by destruct acc). by destruct acc.
  - destruct (IHx (y :: ys) (acc ++ [x]) Hrun Hxs Hy) as (H1&H2&H3&H4).
    + apply asc_snoc; [done|]. intros a Ha. apply Hlt; [done|]. by left.
    + intros a b [Ha|Ha%list_elem_of_singleton]%elem_of_app Hb'.
      * apply Hlt; [done|]. rewrite elem_of_app in Hb' |- *.
        destruct Hb'; [left; by right|by right].
      * subst a. apply elem_of_app in Hb' as [?|[->|?]%elem_of_cons]; eauto.
        assert (y < b) by eauto. lia.
    + split; [done|]. split; [|split].
      * intros a Ha. destruct (H2 a Ha) as [[?|?%list_elem_of_singleton]%elem_of_app|[?|?]].
        -- by left.
        -- subst a. right; left; by left.
        -- right; left; by right.
        -- by right; right.
      * intros a [Ha|[->|Ha]%elem_of_cons]; apply H3.
        -- left. apply elem_of_app. by left.
        -- left. apply elem_of_app. right. by apply list_elem_of_singleton.
        -- by right.
      * intros Hne. rewrite H4 by (by destruct acc). by destruct acc.
  - destruct (IHy (acc ++ [y]) Hrun Hx Hys) as (H1&H2&H3&H4).
    + apply asc_snoc; [done|]. intros a Ha. apply Hlt; [done|].
      apply elem_of_app. right. by left.
    + intros a b [Ha|Ha%list_elem_of_singleton]%elem_of_app Hb'.
      * apply Hlt; [done|]. rewrite elem_of_app in Hb' |- *.
        destruct Hb'; [by left|right; by right].
      * subst a. apply elem_of_app in Hb' as [[->|?]%elem_of_cons|?]; eauto.
        -- lia.
        -- assert (x < b) by eauto. lia.
    + split; [done|]. split; [|split].
      * intros a Ha. destruct (H2 a Ha) as [[?|?%list_elem_of_singleton]%elem_of_app|[?|?]].
        -- by left.
        -- subst a. right; right; by left.
        -- by right; left.
        -- right; right; by right.
      * intros a [Ha|Ha]; apply H3.
        -- left. apply elem_of_app. by left.
        -- by right.
      * intros Hne. rewrite H4 by (by destruct acc). by destruct acc.
Qed.

End RasterFacts.

Section MergeFacts.
Import Sets FiveBlock.

Lemma mergeLoop_bound L_n W_n xs ys acc acc' xs' :
  mergeLoop L_n W_n xs ys acc = (acc', xs') →
  ∀ a, a ∈ acc' → a ∈ acc ∨ a <= L_n.
Proof.
  revert ys acc. induction xs as [|x xs IHx]; intros ys acc.
  { destruct ys; simpl; intros [= <- <-] a Ha; by left. }
  induction ys as [|y ys IHy] in acc |- *; intros Hrun a Ha.
  { simpl in Hrun. injection Hrun as <- <-. by left. }
  simpl in Hrun. case_bool_decide as Hb.
  2:{ injection Hrun as <- <-. by left. }
  case_bool_decide as Heq; [|case_bool_decide as Hxy].
  - destruct (IHx _ _ Hrun a Ha) as [[?| ->%list_elem_of_singleton]%elem_of_app|?];
      [by left|right; lia|by right].
  - destruct (IHx _ _ Hrun a Ha) as [[?| ->%list_elem_of_singleton]%elem_of_app|?];
      [by left|right; lia|by right].
  - destruct (IHy (acc ++ [y]) Hrun a Ha) as [[?| ->%list_elem_of_singleton]%elem_of_app|?];
      [by left|right; lia|by right].
Qed.

Lemma mergeLoop_prefix L_n W_n xs ys acc acc' xs' :
  mergeLoop L_n W_n xs ys acc = (acc', xs') → ∀ a, a ∈ acc → a ∈ acc'.
Proof.
  revert ys acc. induction xs as [|x xs IHx]; intros ys acc.
  { destruct ys; simpl; by intros [= <- <-] a Ha. }
  induction ys as [|y ys IHy] in acc |- *; intros Hrun a Ha.
  { simpl in Hrun. by injection Hrun as <- <-. }
  simpl in Hrun. case_bool_decide as Hb.
  2:{ by injection Hrun as <- <-. }
  case_bool_decide as Heq; [|case_bool_decide as Hxy].
  - apply (IHx _ _ Hrun). apply elem_of_app. by left.
  - apply (IHx _ _ Hrun). apply elem_of_app. by left.
  - apply (IHy (acc ++ [y]) Hrun). apply elem_of_app. by left.
Qed.

(** While the bounds do not stop the loop, a point of [ys] is merged or is
    greater than every point of [xs]. *)
Lemma mergeLoop_ys L_n W_n xs ys acc acc' xs' :
  mergeLoop L_n W_n xs ys acc = (acc', xs') → asc ys →
  (∀ a, a ∈ xs → a <= L_n) → (∀ b, b ∈ ys → b <= W_n) →
  ∀ b, b ∈ ys → b ∈ acc' ∨ (∀ a, a ∈ xs → a < b).
Proof.
  revert ys acc. induction xs as [|x xs IHx]; intros ys acc.
  { intros _ _ _ _ b _. right. by intros a ?%elem_of_nil. }
  induction ys as [|y ys IHy] in acc |- *; intros Hrun Hy HxL HyW b Hb.
  { by apply elem_of_nil in Hb. }
  simpl in Hrun.
  pose proof (asc_cons_inv _ _ Hy) as [Hys Hylt].
  rewrite bool_decide_eq_true_2 in Hrun by (split; [apply HxL|apply HyW]; by left).
  assert (∀ a, a ∈ xs → a <= L_n) as HxL' by (intros a Ha; apply HxL; by right).
  assert (∀ b, b ∈ ys → b <= W_n) as HyW' by (intros a Ha; apply HyW; by right).
  case_bool_decide as Heq; [|case_bool_decide as Hxy].
  - subst y. apply elem_of_cons in Hb as [->|Hb].
    + left. apply (mergeLoop_prefix _ _ _ _ _ _ _ Hrun).
      apply elem_of_app. right. by apply list_elem_of_singleton.
    + destruct (IHx _ _ Hrun Hys HxL' HyW' b Hb) as [?|Hgt]; [by left|right].
      intros a [->|Ha]%elem_of_cons; [by apply Hylt|by apply Hgt].
  - destruct (IHx _ _ Hrun Hy HxL' HyW b Hb) as [?|Hgt]; [by left|right].
    intros a [->|Ha]%elem_of_cons; [|by apply Hgt].
    apply elem_of_cons in Hb as [->|Hb]; [done|]. apply Hylt in Hb. lia.
  - change (mergeLoop L_n W_n (x :: xs) ys (acc ++ [y]) = (acc', xs')) in Hrun.
    apply elem_of_cons in Hb as [->|Hb].
    + left. apply (mergeLoop_prefix _ _ _ _ _ _ _ Hrun).
      apply elem_of_app. right. by apply list_elem_of_singleton.
    + by apply (IHy (acc ++ [y]) Hrun Hys HxL HyW').
Qed.

Lemma drainLoop_Ok L_n xs acc r :
  drainLoop L_n xs acc = Ok r → asc (acc ++ xs) →
  ∃ pre post, xs = pre ++ post ∧ r = acc ++ pre ∧ (∀ a, a ∈ pre → a <= L_n) ∧
    (∀ p, list.head post = Some p → L_n < p).
Proof.
  revert acc. induction xs as [|x xs IH]; intros acc Hrun Hasc.
  { injection Hrun as <-. exists [], []. split; [done|].
    split; [by rewrite app_nil_r|]. split; [by intros a ?%elem_of_nil|done]. }
  simpl in Hrun. case_bool_decide as Hx.
  - destruct (list.last acc) as [p|] eqn:Hp; [|done].
    assert (p < x) as Hpx.
    { apply asc_app_inv in Hasc as (_&_&Hlt). apply Hlt; [|by left].
      by apply last_Some_elem_of. }
    rewrite bool_decide_eq_true_2 in Hrun by lia.
    destruct (IH (acc ++ [x]) Hrun) as (pre&post&->&->&Hpre&Hpost).
    { by rewrite <- app_assoc. }
    exists (x :: pre), post. split; [done|]. split; [by rewrite <- app_assoc|].
    split; [|done]. intros a [->|Ha]%elem_of_cons; [done|by apply Hpre].
  - injection Hrun as <-. exists [], (x :: xs). split; [done|].
    split; [by rewrite app_nil_r|]. split; [by intros a ?%elem_of_nil|].
    intros p [= <-]. lia.
Qed.

Lemma drainLoop_total L_n xs acc : acc ≠ [] → ∃ r, drainLoop L_n xs acc = Ok r.
Proof.
  revert acc. induction xs as [|x xs IH]; intros acc Hacc; [by eexists|].
  simpl. case_bool_decide; [|by eexists].
  destruct (list.last acc) as [p|] eqn:Hp; [|by apply last_None in Hp].
  apply IH. case_bool_decide; [|done]. by destruct acc.
Qed.

(** The set that [mergeRaster] returns is ascending; without its last
    point, [L_n + 1], its points are at most [L_n] and come from the two
    raster sets or are [L_n]. *)
Lemma mergeRaster_Ok L_n W_n rx ry raster :
  mergeRaster L_n W_n rx ry = Ok raster → asc rx → asc ry →
  ∃ m, raster = m ++ [L_n + 1] ∧ asc raster ∧
       (∀ a, a ∈ m → a <= L_n ∧ (a ∈ rx ∨ a ∈ ry ∨ a = L_n)).
Proof.
  intros Hrun Hrx Hry. unfold mergeRaster in Hrun.
  destruct (mergeLoop L_n W_n rx ry []) as [acc xs] eqn:Hmerge.
  apply bind_Ok in Hrun as (acc1&Hdrain&Hrun).
  destruct (mergeLoop_spec _ _ _ _ _ _ _ Hmerge Hrx Hry asc_nil) as (Hasc&Hmem&_&_).
  { by intros a b ?%elem_of_nil. }
  pose proof (mergeLoop_bound _ _ _ _ _ _ _ Hmerge) as Hbound.
  destruct (drainLoop_Ok _ _ _ _ Hdrain Hasc) as (pre&post&->&->&Hpre&_).
  assert (asc (acc ++ pre)) as Hasc1.
  { rewrite app_assoc in Hasc. by apply asc_app_inv in Hasc as (?&_&_). }
  assert (∀ a, a ∈ acc ++ pre → a <= L_n ∧ (a ∈ rx ∨ a ∈ ry ∨ a = L_n)) as Hm1.
  { intros a Ha. split.
    - apply elem_of_app in Ha as [Ha|Ha]; [|by apply Hpre].
      destruct (Hbound a Ha) as [?%elem_of_nil|?]; done.
    - destruct (Hmem a) as [?%elem_of_nil|[?|?]]; [|done|tauto|tauto].
      rewrite elem_of_app in Ha. rewrite !elem_of_app. tauto. }
  set (m := match list.last (acc ++ pre) with
            | Some p => if bool_decide (p < L_n) then (acc ++ pre) ++ [L_n] else acc ++ pre
            | None => acc ++ pre
            end) in Hrun.
  injection Hrun as <-.
  assert (asc m ∧ ∀ a, a ∈ m → a <= L_n ∧ (a ∈ rx ∨ a ∈ ry ∨ a = L_n)) as [Hascm Hm].
  { unfold m. destruct (list.last (acc ++ pre)) as [p|] eqn:Hp; [|done].
    case_bool_decide; [|done]. split.
    - apply asc_snoc; [done|]. intros a Ha.
      pose proof (asc_last_max _ _ _ Hasc1 Hp Ha). lia.
    - intros a [Ha| ->%list_elem_of_singleton]%elem_of_app; [by apply Hm1|].
      split; [lia|tauto]. }
  exists m. split; [done|]. split; [|done].
  apply asc_snoc; [done|]. intros a Ha. apply Hm in Ha. lia.
Qed.

End MergeFacts.

(** * The dense index of L-pieces *)

Section LIndexFacts.
Import Sets FiveBlock LPiece LSolver.

(** The index loop of [makeIndices] numbers the raster points in order. *)
Lemma indexRasterLoop_Ok raster n i done rest num acc acc' num' :
  indexRasterLoop n i rest num acc = Ok (acc', num') →
  asc raster → raster = done ++ rest →
  Z.of_nat (length acc) = i → num = Z.of_nat (length done) →
  (∀ (k : nat) p, done !! k = Some p → 0 <= p < i ∧ rd acc p = Ok (Z.of_nat k)) →
  (0 < i → ∀ p, p ∈ rest → i <= p) →
  ∃ done' rest', raster = done' ++ rest' ∧
    Z.of_nat (length acc') = i + Z.of_nat n ∧ num' = Z.of_nat (length done') ∧
    (∀ (k : nat) p, done' !! k = Some p →
       0 <= p < i + Z.of_nat n ∧ rd acc' p = Ok (Z.of_nat k)) ∧
    (0 < i + Z.of_nat n → ∀ p, p ∈ rest' → i + Z.of_nat n <= p).
Proof.
  intros Hrun Hasc. revert i done rest num acc Hrun.
  induction n as [|n IH]; intros i done rest num acc Hrun Hraster Hlen Hnum Hdone Hrest.
  { injection Hrun as <- <-. exists done, rest. rewrite Z.add_0_r. done. }
  cbn [indexRasterLoop] in Hrun. destruct rest as [|p rest']; [done|].
  assert (∀ j v, rd acc j = Ok v → ∀ x, rd (acc ++ [x]) j = Ok v) as Hkeep.
  { intros j v [Hj Hv]%rd_Ok x. apply rd_Ok. split; [done|].
    by apply lookup_app_l_Some. }
  case_bool_decide as Hp.
  - subst p.
    destruct (IH (i + 1) (done ++ [i]) rest' (num + 1) (acc ++ [num]) Hrun)
      as (done'&rest''&?&?&?&H2&H3).
    + by rewrite <- app_assoc.
    + rewrite length_app. simpl. lia.
    + rewrite length_app. simpl. lia.
    + intros k p Hk. apply lookup_app_Some in Hk as [Hk|[Hk1 Hk2]].
      * destruct (Hdone k p Hk) as [? ?]. split; [lia|]. by apply Hkeep.
      * destruct (k - length done)%nat eqn:E; [|done]. injection Hk2 as <-.
        assert (0 <= i) by lia. split; [lia|]. apply rd_Ok. split; [done|].
        replace (Z.to_nat i) with (length acc) by lia.
        rewrite lookup_app_r, Nat.sub_diag by lia. simpl. f_equal. lia.
    + intros _ p Hp. rewrite Hraster, cons_middle, app_assoc in Hasc.
      apply asc_app_inv in Hasc as (_&_&Hlt).
      assert (i < p); [|lia]. apply Hlt; [|done].
      apply elem_of_app. right. by left.
    + exists done', rest''. split; [done|]. split; [lia|]. split; [done|]. split.
      * intros k p' Hk. destruct (H2 k p' Hk). split; [lia|done].
      * intros Hpos p' Hp'. assert (i + 1 + Z.of_nat n <= p') by (apply H3; [lia|done]).
        lia.
  - apply bind_Ok in Hrun as (prev&Hprev&Hrun).
    assert (0 < i).
    { apply rd_bound in Hprev. lia. }
    destruct (IH (i + 1) done (p :: rest') num (acc ++ [prev]) Hrun)
      as (done'&rest''&?&?&?&H2&H3).
    + done.
    + rewrite length_app. simpl. lia.
    + done.
    + intros k p' Hk. destruct (Hdone k p' Hk) as [? ?]. split; [lia|]. by apply Hkeep.
    + intros _ p' Hp'. assert (i <= p') by (by apply Hrest). 
      destruct (decide (p' = i)) as [->|]; [|lia].
      apply elem_of_cons in Hp' as [<-|Hp']; [done|].
      rewrite Hraster in Hasc. apply asc_app_inv in Hasc as (_&Hasc&_).
      apply asc_cons_inv in Hasc as [_ Hlt]. apply Hlt in Hp'.
      assert (i <= p) by (apply Hrest; [done|by left]). lia.
    + exists done', rest''. split; [done|]. split; [lia|]. split; [done|]. split.
      * intros k p' Hk. destruct (H2 k p' Hk). split; [lia|done].
      * intros Hpos p' Hp'. assert (i + 1 + Z.of_nat n <= p') by (apply H3; [lia|done]).
        lia.
Qed.

(** The index of a raster point: its position in the raster set. *)
Lemma indexRaster_point raster n ix num p :
  indexRasterLoop n 0 raster 0 [] = Ok (ix, num) → asc raster →
  p ∈ raster → 0 <= p < Z.of_nat n →
  ∃ k : nat, raster !! k = Some p ∧ rd ix p = Ok (Z.of_nat k) ∧ Z.of_nat k < num.
Proof.
  intros Hrun Hasc Hp Hpn.
  destruct (indexRasterLoop_Ok raster n 0 [] raster 0 [] ix num Hrun Hasc)
    as (done'&rest'&Hraster&Hlen&Hnum&Hdone&Hrest); [done|done|done|done|lia|].
  rewrite Hraster in Hp. apply elem_of_app in Hp as [Hp|Hp].
  - apply list_elem_of_lookup in Hp as [k Hk]. exists k.
    split; [rewrite Hraster; by apply lookup_app_l_Some|].
    split; [by apply Hdone|]. apply lookup_lt_Some in Hk. lia.
  - apply Hrest in Hp; lia.
Qed.

Lemma rd_snoc_keep (a : list Z) j v x : rd a j = Ok v → rd (a ++ [x]) j = Ok v.
Proof.
  intros [Hj Hv]%rd_Ok. apply rd_Ok. split; [done|]. by apply lookup_app_l_Some.
Qed.

Lemma mixed_radix a b c d a' b' c' d' nX nY :
  0 <= a → 0 <= a' → 0 <= b < nY → 0 <= b' < nY → 0 <= c < nX → 0 <= c' < nX →
  0 <= d < nY → 0 <= d' < nY →
  ((a * nY + b) * nX + c) * nY + d = ((a' * nY + b') * nX + c') * nY + d' →
  a = a' ∧ b = b' ∧ c = c' ∧ d = d'.
Proof.
  intros Ha Ha' Hb Hb' Hc Hc' Hd Hd' Heq.
  assert (∀ u v u' v' n, 0 <= v < n → 0 <= v' < n → u * n + v = u' * n + v' →
            u = u' ∧ v = v') as Hstep.
  { intros u v u' v' n Hv Hv' He.
    assert (u = u') by nia. subst. split; [done|lia]. }
  apply Hstep in Heq as [Heq ->]; [|done|done].
  apply Hstep in Heq as [Heq ->]; [|done|done].
  apply Hstep in Heq as [-> ->]; done.
Qed.

(** The index of memory type 4 within 32 bits. *)
Lemma index4_small a b c d nX nY :
  0 <= a < nX → 0 <= b < nY → 0 <= c < nX → 0 <= d < nY →
  nX ^ 2 * nY ^ 2 <= 2 ^ 31 - 1 →
  add32 (mul32 (add32 (mul32 (add32 (mul32 a nY) b) nX) c) nY) d
  = ((a * nY + b) * nX + c) * nY + d.
Proof.
  intros Ha Hb Hc Hd Hn.
  pose proof (radix_step a b nY nX Ha Hb) as H1.
  pose proof (radix_step _ c nX _ H1 Hc) as H2.
  pose proof (radix_step _ d nY _ H2 Hd) as H3.
  replace (nX * nY * nX * nY) with (nX ^ 2 * nY ^ 2) in H3 by lia.
  assert (nX * nY <= nX * nY * nX).
  { rewrite <- (Z.mul_1_r (nX * nY)) at 1. apply Z.mul_le_mono_nonneg_l; lia. }
  assert (nX * nY * nX <= nX * nY * nX * nY).
  { rewrite <- (Z.mul_1_r (nX * nY * nX)) at 1. apply Z.mul_le_mono_nonneg_l; lia. }
  replace (nX * nY * nX * nY) with (nX ^ 2 * nY ^ 2) in * by lia.
  assert (0 <= a * nY) by (apply Z.mul_nonneg_nonneg; lia).
  assert (0 <= (a * nY + b) * nX) by (apply Z.mul_nonneg_nonneg; lia).
  assert (0 <= ((a * nY + b) * nX + c) * nY) by (apply Z.mul_nonneg_nonneg; lia).
  rewrite (mul32_small a nY) by lia. rewrite (add32_small (a * nY) b) by lia.
  rewrite (mul32_small (a * nY + b) nX) by lia.
  rewrite (add32_small ((a * nY + b) * nX) c) by lia.
  rewrite (mul32_small ((a * nY + b) * nX + c) nY) by lia.
  rewrite add32_small by lia. done.
Qed.

(** C10: with memory type 4, which [allocateMemory] keeps when the dense
    solution array of [numRasterX^2 * numRasterY^2] cells has an [int]
    size, two L-pieces whose components are raster points and that have the
    same index in the array are the same piece. *)
Theorem LIndex_injective t L W raster r q q' i :
  makeRaster t L W = Ok raster →
  makeIndices t L W = Ok r →
  numRasterX r ^ 2 * numRasterY r ^ 2 <= 2 ^ 31 - 1 →
  rasterTuple raster L W q → rasterTuple raster L W q' →
  LIndex r q MEM_TYPE_4 = Ok i → LIndex r q' MEM_TYPE_4 = Ok i →
  q = q'.
Proof.
  intros Hraster Hidx Hsize Hq Hq' Hi Hi'.
  assert (asc raster) as Hasc.
  { unfold makeRaster in Hraster. apply bind_Ok in Hraster as ([X Y]&HXY&Hmerge).
    unfold constructRasterPoints in HXY.
    apply bind_Ok in HXY as (X'&HX&HXY). apply bind_Ok in HXY as (Y'&HY&[= <- <-]).
    destruct (mergeRaster_Ok _ _ _ _ _ Hmerge) as (m&_&Hasc&_); [| |done].
    - by apply (rasterLoop_asc _ _ _ _ _ HX asc_nil).
    - by apply (rasterLoop_asc _ _ _ _ _ HY asc_nil). }
  unfold makeIndices in Hidx. rewrite Hraster in Hidx. cbn [mbind result_bind] in Hidx.
  apply bind_Ok in Hidx as ([ix numX]&HloopX&Hidx).
  apply bind_Ok in Hidx as (lastx&_&Hidx).
  apply bind_Ok in Hidx as ([iy numY]&HloopY&Hidx).
  apply bind_Ok in Hidx as (lasty&_&[= <-]). cbn [numRasterX numRasterY] in Hsize.
  assert (∀ p, p ∈ raster → 0 <= p <= L → ∃ k : nat,
            raster !! k = Some p ∧ rd (ix ++ [lastx + 1]) p = Ok (Z.of_nat k) ∧
            Z.of_nat k < numX) as HX.
  { intros p Hp Hr. destruct (indexRaster_point _ _ _ _ p HloopX Hasc Hp) as (k&?&?&?);
      [lia|]. exists k. split; [done|]. split; [by apply rd_snoc_keep|done]. }
  assert (∀ p, p ∈ raster → 0 <= p <= W → ∃ k : nat,
            raster !! k = Some p ∧ rd (iy ++ [lasty + 1]) p = Ok (Z.of_nat k) ∧
            Z.of_nat k < numY) as HY.
  { intros p Hp Hr. destruct (indexRaster_point _ _ _ _ p HloopY Hasc Hp) as (k&?&?&?);
      [lia|]. exists k. split; [done|]. split; [by apply rd_snoc_keep|done]. }
  destruct q as [[[a b] c] d], q' as [[[a' b'] c'] d'].
  unfold LIndex in Hi, Hi'. rewrite bool_decide_eq_true_2 in Hi, Hi' by done.
  unfold rasterTuple, q0, q1, q2, q3 in *. simpl in *.
  assert (0 <= a ∧ 0 <= b ∧ 0 <= c ∧ 0 <= d) as Hpos.
  { apply bind_Ok in Hi as (?&?%rd_bound&Hi). apply bind_Ok in Hi as (?&?%rd_bound&Hi).
    apply bind_Ok in Hi as (?&?%rd_bound&Hi). apply bind_Ok in Hi as (?&?%rd_bound&Hi).
    lia. }
  assert (0 <= a' ∧ 0 <= b' ∧ 0 <= c' ∧ 0 <= d') as Hpos'.
  { apply bind_Ok in Hi' as (?&?%rd_bound&Hi'). apply bind_Ok in Hi' as (?&?%rd_bound&Hi').
    apply bind_Ok in Hi' as (?&?%rd_bound&Hi'). apply bind_Ok in Hi' as (?&?%rd_bound&Hi').
    lia. }
  destruct Hq as ((Ha&?)&(Hb&?)&(Hc&?)&(Hd&?)).
  destruct Hq' as ((Ha'&?)&(Hb'&?)&(Hc'&?)&(Hd'&?)).
  destruct (HX a Ha) as (ka&Hka&Ea&?); [lia|].
  destruct (HY b Hb) as (kb&Hkb&Eb&?); [lia|].
  destruct (HX c Hc) as (kc&Hkc&Ec&?); [lia|].
  destruct (HY d Hd) as (kd&Hkd&Ed&?); [lia|].
  destruct (HX a' Ha') as (ka'&Hka'&Ea'&?); [lia|].
  destruct (HY b' Hb') as (kb'&Hkb'&Eb'&?); [lia|].
  destruct (HX c' Hc') as (kc'&Hkc'&Ec'&?); [lia|].
  destruct (HY d' Hd') as (kd'&Hkd'&Ed'&?); [lia|].
  rewrite Ea, Eb, Ec, Ed in Hi. rewrite Ea', Eb', Ec', Ed' in Hi'.
  cbn [mbind result_bind numRasterX numRasterY] in Hi, Hi'.
  rewrite index4_small in Hi, Hi' by lia.
  injection Hi as Hi. injection Hi' as Hi'.
  destruct (mixed_radix (Z.of_nat ka) (Z.of_nat kb) (Z.of_nat kc) (Z.of_nat kd)
              (Z.of_nat ka') (Z.of_nat kb') (Z.of_nat kc') (Z.of_nat kd') numX numY)
    as (?&?&?&?); try lia.
  assert (ka = ka' ∧ kb = kb' ∧ kc = kc' ∧ kd = kd') as (->&->&->&->) by lia.
  congruence.
Qed.

End LIndexFacts.

Lemma LIndex_injective_witness :
  ∃ t, FiveBlock.initialize FiveBlock.INFINITY_ 8 7 3 2 = Ok t ∧
  ∃ raster, LSolver.makeRaster t 8 7 = Ok raster ∧
  ∃ r, LSolver.makeIndices t 8 7 = Ok r ∧
  ∃ i, LPiece.LIndex r (6, 4, 2, 2) LPiece.MEM_TYPE_4 = Ok i ∧
       (6, 4, 2, 2) = (6, 4, 2, 2).
Proof.
  compute_exists_as Ht. compute_exists_as Hraster. compute_exists_as Hr.
  compute_exists_as Hi.
  eapply LIndex_injective; [exact Hraster|exact Hr| | | |exact Hi|exact Hi].
  - vm_compute. discriminate.
  - unfold rasterTuple; cbn; repeat split; try lia;
      apply elem_of_check; vm_compute; reflexivity.
  - unfold rasterTuple; cbn; repeat split; try lia;
      apply elem_of_check; vm_compute; reflexivity.
Defined.

(** * The split of an L-piece into two rectangles *)

Section LCutFacts.
Import Sets FiveBlock LPiece LSolver Codec.




End LCutFacts.

(** * Arithmetic of the normalisation *)

Lemma cdiv_eq a b : 0 <= a → 0 < b → cdiv a b = a / b.
Proof. intros. by apply Z.quot_div_nonneg. Qed.

Lemma cmod_eq a b : 0 <= a → 0 < b → cmod a b = a mod b.
Proof. intros. by apply Z.rem_mod_nonneg. Qed.

Section BoundArith.
Context (l w : Z).
Hypothesis Hl : 0 < l.
Hypothesis Hw : 0 < w.

Lemma homValue_comm a b : homValue a b l w = homValue b a l w.
Proof. unfold homValue. lia. Qed.

Lemma homValue_nonneg a b : 0 <= a → 0 <= b → 0 <= homValue a b l w.
Proof.
  intros Ha Hb. unfold homValue. rewrite !cdiv_eq by lia.
  assert (0 <= a / l) by (apply Z.div_pos; lia).
  assert (0 <= b / w) by (apply Z.div_pos; lia). nia.
Qed.

Lemma homValue_0_l b : homValue 0 b l w = 0.
Proof. unfold homValue, cdiv. rewrite !Z.quot_0_l by lia. lia. Qed.

Lemma homValue_0_r a : homValue a 0 l w = 0.
Proof. rewrite homValue_comm. apply homValue_0_l. Qed.

End BoundArith.

Section ConicMembers.
Context (L l w : Z).
Hypothesis HL : 0 <= L.

Lemma InX_0 : InX L l w 0.
Proof. split; [lia|]. left. apply Conic_0. Qed.

Lemma InX_L : InX L l w L.
Proof. split; [lia|]. by right. Qed.

Lemma InX_add a b : InX L l w a → InX L l w b → a + b <= L → InX L l w (a + b).
Proof.
  intros [Ha [Ca| ->]] [Hb [Cb| ->]] Hab.
  - split; [lia|]. left. by apply Conic_add.
  - split; [lia|]. right. lia.
  - split; [lia|]. right. lia.
  - split; [lia|]. right. lia.
Qed.

End ConicMembers.

Section NormArith.
Context (L l w : Z) (X norm : list Z).
Hypothesis Hl : 0 < l.
Hypothesis Hw : 0 < w.
Hypothesis HL : 0 <= L.
Hypothesis HX : ∀ x, x ∈ X ↔ InX L l w x.
Hypothesis Hlen : Z.of_nat (length norm) = L + 1.
Hypothesis Hnorm : ∀ j, 0 <= j <= L → IsNorm X j (cell norm j).

Local Abbreviation nm := (cell norm).

Lemma nm_rd j : 0 <= j <= L → rd norm j = Ok (nm j).
Proof. intros Hj. apply rd_cell. lia. Qed.

Lemma nm_InX j : 0 <= j <= L → InX L l w (nm j).
Proof. intros Hj. apply HX. by destruct (Hnorm j Hj). Qed.

Lemma nm_max j s : 0 <= j <= L → InX L l w s → s <= j → s <= nm j.
Proof. intros Hj Hs Hsj. destruct (Hnorm j Hj) as (_&_&Hmax). apply Hmax; [by apply HX|done]. Qed.

Lemma nm_range j : 0 <= j <= L → 0 <= nm j <= j.
Proof.
  intros Hj. split.
  - apply nm_max; [done|by apply InX_0|lia].
  - by destruct (Hnorm j Hj) as (_&?&_).
Qed.

Lemma nm_fix x : InX L l w x → nm x = x.
Proof.
  intros Hx. destruct Hx as [Hr Hx]. pose proof (nm_range x Hr).
  pose proof (nm_max x x Hr (conj Hr Hx)). lia.
Qed.

Lemma nm_idem j : 0 <= j <= L → nm (nm j) = nm j.
Proof. intros Hj. by apply nm_fix, nm_InX. Qed.

Lemma nm_mono i j : 0 <= i → i <= j → j <= L → nm i <= nm j.
Proof.
  intros Hi Hij Hj. apply nm_max; [lia|apply nm_InX; lia|].
  pose proof (nm_range i). lia.
Qed.

Lemma nm_0 : nm 0 = 0.
Proof. apply nm_fix. by apply InX_0. Qed.

Lemma nm_L : nm L = L.
Proof. apply nm_fix. by apply InX_L. Qed.

(** Normalising the length before subtracting a member changes nothing. *)
Lemma nm_sub A b :
  0 <= A <= L → InX L l w b → b <= A → nm (nm A - b) = nm (A - b).
Proof.
  intros HA Hb HbA.
  assert (b <= nm A) as HbnA by (by apply nm_max).
  pose proof (nm_range A HA). destruct Hb as [Hb0 Hb'].
  apply Z.le_antisymm.
  - apply nm_mono; lia.
  - apply nm_max; [lia|apply nm_InX; lia|].
    assert (nm (A - b) + b <= nm A); [|lia].
    pose proof (nm_range (A - b) ltac:(lia)).
    apply nm_max; [done| |lia].
    apply InX_add; [done|apply nm_InX; lia|by split|lia].
Qed.

(** The raster points of a side [A] of the pallet: [nm (A - p)] for a member
    [p] of the conic set. *)
Lemma nm_raster_sub A p x1 :
  0 <= A <= L → InX L l w p → p <= A → InX L l w x1 → x1 <= nm (A - p) →
  nm (nm (A - p) - x1) = nm (A - (p + x1)) ∧ InX L l w (p + x1) ∧ p + x1 <= A.
Proof.
  intros HA Hp HpA Hx1 Hle.
  destruct Hp as [Hp0 Hp'], Hx1 as [Hx0 Hx1'].
  pose proof (nm_range (A - p) ltac:(lia)).
  rewrite nm_sub; [|lia|by split|lia].
  split; [f_equal; lia|]. split; [|lia].
  apply InX_add; [done|by split|by split|lia].
Qed.

(** The homogeneous bound of a side is that of its normalisation. *)
Lemma div_nm j k : 0 <= j <= L → (k = l ∨ k = w) → nm j / k = j / k.
Proof.
  intros Hj Hk. pose proof (nm_range j Hj).
  assert (0 < k) by (destruct Hk; lia).
  apply Z.le_antisymm; [apply Z.div_le_mono; lia|].
  assert (k * (j / k) <= nm j) as Hle.
  { apply nm_max; [done| |apply Z.mul_div_le; lia].
    assert (0 <= j / k) by (apply Z.div_pos; lia).
    pose proof (Z.mul_div_le j k ltac:(lia)).
    split; [nia|]. left.
    destruct Hk as [-> | ->]; [exists (j / l), 0|exists 0, (j / w)]; lia. }
  apply Z.div_le_lower_bound; lia.
Qed.

Lemma homValue_nm a b :
  0 <= a <= L → 0 <= b <= L →
  homValue (nm a) (nm b) l w = homValue a b l w.
Proof.
  intros Ha Hb. pose proof (nm_range a Ha). pose proof (nm_range b Hb).
  unfold homValue. rewrite !cdiv_eq by lia.
  rewrite !div_nm by (done || tauto). done.
Qed.

End NormArith.

(** * What the loops of initialize compute *)

Section RasterOfSide.
Import Sets FiveBlock.
Context (L l w : Z) (X norm : list Z).
Hypothesis Hl : 0 < l.
Hypothesis Hw : 0 < w.
Hypothesis HL : 0 <= L.
Hypothesis HX : ∀ x, x ∈ X ↔ InX L l w x.
Hypothesis Hlen : Z.of_nat (length norm) = L + 1.
Hypothesis Hnorm : ∀ j, 0 <= j <= L → IsNorm X j (cell norm j).

Local Abbreviation nm := (cell norm).

(** The raster points of a side [A] computed from an ascending set [cc] of
    non-negative points that contains 0. *)
Lemma rasterLoop_side A cc :
  0 <= A <= L → asc cc → (∀ p, p ∈ cc → 0 <= p) → 0 ∈ cc →
  ∃ r, rasterLoop norm A (below A (reverse cc)) [] = Ok r ∧ asc r ∧
       (∀ x, x ∈ r ↔ ∃ p, p ∈ cc ∧ p <= A ∧ x = nm (A - p)) ∧
       list.last r = Some (nm A).
Proof.
  intros HA Hasc Hpos H0.
  rewrite below_reverse_asc by done.
  set (ps := reverse (filter (λ p, p <= A) cc)).
  assert (∀ p, p ∈ ps ↔ p ∈ cc ∧ p <= A) as Hps.
  { intros p. unfold ps. rewrite elem_of_reverse, list_elem_of_filter. tauto. }
  assert (∀ (i j : nat) p p', (i <= j)%nat → ps !! i = Some p → ps !! j = Some p' → p' <= p)
    as Hdesc.
  { intros i j p p' Hij Hi Hj. unfold ps in Hi, Hj.
    apply reverse_lookup_Some in Hi as [Hi Hil]. apply reverse_lookup_Some in Hj as [Hj Hjl].
    destruct (decide (i = j)) as [->|Hne]; [assert (p = p') by congruence; lia|].
    assert (p' < p); [|lia].
    eapply (asc_filter (λ p, p <= A) cc Hasc); [|exact Hj|exact Hi]. lia. }
  destruct (rasterLoop_complete norm A ps []) as (r&Hr&_&Hall&Hlast).
  - intros p [Hp HpA]%Hps. apply Hpos in Hp. lia.
  - intros i j p p' Hij Hi Hj. pose proof (Hdesc i j p p' Hij Hi Hj).
    assert (p ∈ ps) as [?%Hpos ?]%Hps by (by eapply list_elem_of_lookup_2).
    assert (p' ∈ ps) as [?%Hpos ?]%Hps by (by eapply list_elem_of_lookup_2).
    apply (nm_mono L l w X norm); try done; lia.
  - done.
  - exists r. split; [done|].
    destruct (rasterLoop_asc _ _ _ _ _ Hr asc_nil) as (Hascr&Hmem&_).
    split; [done|]. split.
    + intros x. split.
      * intros Hx. destruct (Hmem x Hx) as [?%elem_of_nil|(p&Hp&Hrd)]; [done|].
        apply Hps in Hp as [Hp HpA]. exists p. split; [done|]. split; [done|].
        pose proof (Hpos p Hp). rewrite (nm_rd L norm) in Hrd by (done || lia).
        congruence.
      * intros (p&Hp&HpA&->). apply Hall. by apply Hps.
    + destruct Hlast as (p&Hp&->).
      { intros Hnil. assert (0 ∈ ps) as Hin by (apply Hps; split; [done|lia]).
        rewrite Hnil in Hin. by apply elem_of_nil in Hin. }
      f_equal. assert (p = 0); [|subst; f_equal; lia].
      assert (p ∈ ps) as [?%Hpos ?]%Hps by (by apply last_Some_elem_of).
      assert (0 ∈ ps) as [k Hk]%list_elem_of_lookup by (apply Hps; split; [done|lia]).
      rewrite last_lookup in Hp.
      assert (k <= Nat.pred (length ps))%nat by (apply lookup_lt_Some in Hk; lia).
      pose proof (Hdesc k _ 0 p ltac:(done) Hk Hp). lia.
Qed.

End RasterOfSide.

Section InitLoops.
Import Sets FiveBlock.

Lemma mergeRaster_total L_n W_n rx ry :
  asc rx → asc ry →
  (∀ a, a ∈ rx → a <= L_n) → (∀ b, b ∈ ry → b <= W_n) →
  list.last rx = Some L_n → (∀ b, b ∈ ry → b <= L_n) → ry ≠ [] →
  ∃ m, mergeRaster L_n W_n rx ry = Ok (m ++ [L_n + 1]) ∧ asc (m ++ [L_n + 1]) ∧
       (∀ a, a ∈ m ↔ a ∈ rx ∨ a ∈ ry).
Proof.
  intros Hrx Hry HxL HyW Hlast HyL Hne. unfold mergeRaster.
  destruct (mergeLoop L_n W_n rx ry []) as [acc xs] eqn:Hmerge.
  destruct (mergeLoop_spec _ _ _ _ _ _ _ Hmerge Hrx Hry asc_nil) as (Hasc&Hsub&Hsup&_).
  { by intros a b ?%elem_of_nil. }
  assert (L_n ∈ rx) as HLin by (by apply last_Some_elem_of).
  assert (∀ b, b ∈ ry → b ∈ acc) as Hyacc.
  { intros b Hb. destruct (mergeLoop_ys _ _ _ _ _ _ _ Hmerge Hry HxL HyW b Hb) as [?|Hgt];
      [done|]. pose proof (Hgt _ HLin). pose proof (HyL _ Hb). lia. }
  assert (acc ≠ []) as Hacc.
  { destruct ry as [|y ry]; [done|]. intros ->.
    assert (y ∈ []) as ?%elem_of_nil by (apply Hyacc; by left). done. }
  destruct (drainLoop_total L_n xs acc Hacc) as (r&Hr). rewrite Hr.
  cbn [mbind result_bind].
  destruct (drainLoop_Ok _ _ _ _ Hr Hasc) as (pre&post&->&->&Hpre&Hpost).
  assert (post = []) as ->.
  { destruct post as [|p post]; [done|]. pose proof (Hpost p eq_refl).
    assert (p ∈ acc ++ pre ++ p :: post) as Hin.
    { rewrite !elem_of_app. right. right. by left. }
    destruct (Hsub p Hin) as [?%elem_of_nil|[?%HxL|?%HyL]]; [done|lia|lia]. }
  rewrite app_nil_r in *.
  assert (∀ a, a ∈ acc ++ pre ↔ a ∈ rx ∨ a ∈ ry) as Hmem.
  { intros a. split.
    - intros Ha. destruct (Hsub a Ha) as [?%elem_of_nil|?]; done.
    - intros [Ha|Ha]; [apply Hsup; by right|]. apply elem_of_app. left. by apply Hyacc. }
  assert (∀ a, a ∈ acc ++ pre → a <= L_n) as Hle.
  { intros a [?%HxL|?%HyL]%Hmem; done. }
  destruct (list.last (acc ++ pre)) as [p|] eqn:Hp; cycle 1.
  { apply last_None in Hp. by destruct acc. }
  assert (p = L_n) as ->.
  { assert (L_n ∈ acc ++ pre) as Hin by (apply Hmem; by left).
    pose proof (asc_last_max _ _ _ Hasc Hp Hin).
    assert (p <= L_n); [|lia]. apply Hle. by apply last_Some_elem_of. }
  rewrite bool_decide_eq_false_2 by lia.
  exists (acc ++ pre). split; [done|]. split; [|done].
  apply asc_snoc; [done|]. intros a Ha. apply Hle in Ha. lia.
Qed.

Lemma indexXLoop_spec i ps (m : gmap Z Z) p k :
  NoDup ps →
  indexXLoop i ps m !! p = Some k ↔
    ((p ∉ ps) ∧ m !! p = Some k) ∨ ∃ j : nat, ps !! j = Some p ∧ k = i + Z.of_nat j.
Proof.
  revert i m. induction ps as [|q ps IH]; intros i m Hnd.
  { simpl. split.
    - intros Hm. left. split; [apply not_elem_of_nil|done].
    - intros [[_ ?]|(j&?&_)]; done. }
  apply list.NoDup_cons in Hnd as [Hq Hnd]. simpl. rewrite IH by done. split.
  - intros [[Hp Hm]|(j&Hj&->)].
    + destruct (decide (p = q)) as [->|Hne].
      * rewrite lookup_insert_eq in Hm. injection Hm as <-. right. exists 0%nat.
        split; [done|lia].
      * rewrite lookup_insert_ne in Hm by done. left. split; [|done].
        by intros [?|?]%elem_of_cons.
    + right. exists (S j). split; [done|lia].
  - intros [[Hp Hm]|(j&Hj&->)].
    + left. split; [intros Hin; apply Hp; by right|].
      rewrite lookup_insert_ne; [done|]. intros ->. apply Hp. by left.
    + destruct j as [|j]; simpl in Hj.
      * injection Hj as ->. left. split; [done|]. rewrite lookup_insert_eq. f_equal. lia.
      * right. exists j. split; [done|lia].
Qed.

Lemma indexYLoop_spec W_n i ps (m : gmap Z Z) :
  asc ps →
  let ys := filter (λ p, p <= W_n) ps in
  indexYLoop W_n i ps m = (indexXLoop i ys m, i + Z.of_nat (length ys)) ∧
  take (length ys) ps = ys.
Proof.
  revert i m. induction ps as [|q ps IH]; intros i m Hasc ys.
  { unfold ys. simpl. split; [f_equal; lia|done]. }
  apply asc_cons_inv in Hasc as [Hasc Hq]. unfold ys. simpl.
  rewrite filter_cons. case_bool_decide as Hgt; case_decide; try lia.
  - assert (filter (λ p, p <= W_n) ps = []) as ->.
    { apply filter_none. intros x Hx. apply Hq in Hx. lia. }
    simpl. split; [f_equal; lia|done].
  - destruct (IH (i + 1) (<[q := i]> m) Hasc) as [-> Htake]. simpl.
    split; [f_equal; lia|]. by rewrite Htake.
Qed.

End InitLoops.

(** * The bounds within 32 bits *)

Section BoundsWithin.
Import Bounds.

Lemma sideLimit_square a b :
  0 <= a <= sideLimit + 1 → 0 <= b <= sideLimit → 0 <= a * b <= 2 ^ 28 + 2 ^ 14.
Proof.
  intros Ha Hb. pose proof (mul_within a b _ _ Ha Hb) as H.
  unfold sideLimit in *. lia.
Qed.

Lemma cmod_range a b : 0 <= a → 0 < b → 0 <= cmod a b < b.
Proof. intros Ha Hb. unfold cmod. apply Z.rem_bound_pos; lia. Qed.

Lemma cdiv_range a b : 0 <= a → 0 < b → 0 <= cdiv a b * b <= a ∧ 0 <= cdiv a b <= a.
Proof.
  intros Ha Hb. rewrite cdiv_eq by done.
  pose proof (Z.mul_div_le a b Hb). assert (0 <= a / b) by (apply Z.div_pos; lia).
  assert (a / b <= a) by (apply Z.div_le_upper_bound; [lia|]; nia).
  split; [|lia]. split; [|lia]. apply Z.mul_nonneg_nonneg; lia.
Qed.

(** Within [sideLimit] the macro [lowerBound] has the value of the
    homogeneous packing. *)
Lemma lowerBoundH_value x y l w :
  0 <= x <= sideLimit + 1 → 0 <= y <= sideLimit → 0 < l → 0 < w →
  lowerBoundH x y l w = Ok (homValue x y l w).
Proof.
  intros Hx Hy Hl Hw. unfold lowerBoundH, homValue.
  rewrite !div32_pos by done. cbn [mbind result_bind].
  pose proof (sideLimit_square x y Hx Hy) as Hxy.
  destruct (cdiv_range x l) as [_ ?]; [lia|done|].
  destruct (cdiv_range y w) as [_ ?]; [lia|done|].
  destruct (cdiv_range x w) as [_ ?]; [lia|done|].
  destruct (cdiv_range y l) as [_ ?]; [lia|done|].
  pose proof (mul_within (cdiv x l) (cdiv y w) x y ltac:(lia) ltac:(lia)).
  pose proof (mul_within (cdiv x w) (cdiv y l) x y ltac:(lia) ltac:(lia)).
  rewrite !mul32_small by lia. done.
Qed.

(** Within [sideLimit] no product of [barnesBound] wraps. *)
Lemma barnesBound_value x y l w :
  0 <= x <= sideLimit + 1 → 0 <= y <= sideLimit →
  0 < l <= sideLimit → 0 < w <= sideLimit →
  barnesBound x y l w = Ok (barnesValue x y l w).
Proof.
  intros Hx Hy Hl Hw. unfold barnesBound, barnesValue.
  pose proof (sideLimit_square x y Hx Hy) as Hxy.
  assert (0 < l * w <= 2 ^ 28) as Hlw.
  { pose proof (mul_within l w sideLimit sideLimit ltac:(lia) ltac:(lia)).
    assert (0 < l * w) by (apply Z.mul_pos_pos; lia). unfold sideLimit in *. lia. }
  rewrite (mul32_small x y), (mul32_small l w) by lia.
  rewrite !mod32_pos by lia. cbn [mbind result_bind].
  pose proof (cmod_range (x * y) (l * w) ltac:(lia) ltac:(lia)) as Hmw.
  assert (∀ k a b, 0 < k <= sideLimit → 0 <= a → 0 <= b →
            mul32 (cmod a k) (cmod b k) = cmod a k * cmod b k ∧
            mul32 (sub32 k (cmod a k)) (sub32 k (cmod b k))
              = (k - cmod a k) * (k - cmod b k) ∧
            0 <= Z.min (cmod a k * cmod b k) ((k - cmod a k) * (k - cmod b k))
              <= 2 ^ 28) as Hside.
  { intros k a b Hk Ha Hb.
    pose proof (cmod_range a k Ha ltac:(lia)). pose proof (cmod_range b k Hb ltac:(lia)).
    pose proof (mul_within (cmod a k) (cmod b k) sideLimit sideLimit
                  ltac:(lia) ltac:(lia)).
    pose proof (mul_within (k - cmod a k) (k - cmod b k) sideLimit sideLimit
                  ltac:(lia) ltac:(lia)).
    unfold sideLimit in *.
    rewrite !sub32_small by lia. rewrite !mul32_small by lia. lia. }
  destruct (Hside l x y Hl ltac:(lia) ltac:(lia)) as (->&->&HA).
  destruct (Hside w x y Hw ltac:(lia) ltac:(lia)) as (->&->&HB).
  set (A := Z.min (cmod x l * cmod y l) ((l - cmod x l) * (l - cmod y l))) in *.
  set (B := Z.min (cmod x w * cmod y w) ((w - cmod x w) * (w - cmod y w))) in *.
  set (maxAB := Z.max A B). assert (0 <= maxAB <= 2 ^ 28) as HM by (unfold maxAB; lia).
  rewrite !mod32_pos by lia. cbn [mbind result_bind].
  rewrite !div32_pos by lia. cbn [mbind result_bind].
  destruct (cdiv_range maxAB (l * w)) as [Hq Hq']; [lia|lia|].
  set (q := cdiv maxAB (l * w)) in *.
  rewrite (mul32_small q (l * w)) by lia.
  rewrite (add32_small q 1) by lia.
  rewrite (mul32_small (q + 1) (l * w)) by lia.
  rewrite !add32_small by lia.
  case_bool_decide; cbn [mbind result_bind];
    rewrite sub32_small by lia; by rewrite div32_pos by lia.
Qed.

End BoundsWithin.

(** * initialize *)

Section MapFacts.
Import FiveBlock.

Lemma mapR_Ok {A B} (f : A → result B) (g : A → B) xs :
  (∀ x, x ∈ xs → f x = Ok (g x)) → mapR f xs = Ok (g <$> xs).
Proof.
  induction xs as [|x xs IH]; intros Hf; [done|]. cbn [mapR].
  rewrite Hf by (by left). cbn [mbind result_bind].
  rewrite IH by (intros y Hy; apply Hf; by right). done.
Qed.

Lemma tableOf_fst {A B} (points ys : list Z) (f : Z → Z → A) (g : Z → Z → B) :
  (λ row : list (A * B), fst <$> row) <$> tableOf points ys (λ x y, (f x y, g x y))
  = tableOf points ys f.
Proof.
  unfold tableOf. rewrite <- list_fmap_compose. apply list_fmap_ext.
  intros _ x _. cbn. rewrite <- list_fmap_compose. by apply list_fmap_ext.
Qed.

Lemma tableOf_snd {A B} (points ys : list Z) (f : Z → Z → A) (g : Z → Z → B) :
  (λ row : list (A * B), snd <$> row) <$> tableOf points ys (λ x y, (f x y, g x y))
  = tableOf points ys g.
Proof.
  unfold tableOf. rewrite <- list_fmap_compose. apply list_fmap_ext.
  intros _ x _. cbn. rewrite <- list_fmap_compose. by apply list_fmap_ext.
Qed.

End MapFacts.

Section InitializeSpec.
Import Sets Bounds FiveBlock.
Context (L W l w N : Z).
Hypothesis Hl : 0 < l.
Hypothesis Hw : 0 < w.
Hypothesis HW : 0 < W.
Hypothesis HWL : W <= L.

(** The part of [initialize] before the bounds are computed. *)
Lemma initialize_steps :
  ∃ norm points,
    let ys := widthsOf (cell norm W) points in
    initialize N L W l w =
      (bounds ← mapR (λ x, mapR (λ y,
                  ub ← barnesBound x y l w;
                  lb ← lowerBoundH x y l w;
                  Ok (ub, lb)) ys) points;
       Ok (mkTables l w N norm points
             (indexXLoop 0 points ∅) (indexXLoop 0 ys ∅)
             ((λ row : list (Z * Z), fst <$> row) <$> bounds)
             ((λ row : list (Z * Z), snd <$> row) <$> bounds)
             (tableOf points ys (λ _ _, N))
             (tableOf points ys (λ _ _, 1))
             (tableOf points ys (λ _ _, mkCutPoint None 1)))) ∧
    Z.of_nat (length norm) = L + 1 ∧
    (∃ X, (∀ x, x ∈ X ↔ InX L l w x) ∧
          ∀ j, 0 <= j <= L → IsNorm X j (cell norm j)) ∧
    asc points ∧
    (∀ p, p ∈ points ↔ p = L + 1 ∨ RasterM L W l w norm p).
Proof.
  unfold initialize.
  destruct (constructConicCombinations_spec L l w Hl Hw ltac:(lia))
    as (X&->&HascX&HheadX&HlastX&HX).
  cbn [mbind result_bind].
  destruct (buildNormalize_spec L X HascX HheadX ltac:(lia)) as (norm&->&Hlen&Hnorm).
  cbn [mbind result_bind].
  pose proof (nm_rd L norm Hlen) as Hrd.
  pose proof (nm_range L l w X norm ltac:(lia) HX Hnorm) as Hrange.
  pose proof (nm_L L l w X norm ltac:(lia) HX Hnorm) as HnL.
  rewrite !Hrd by lia. cbn [mbind result_bind]. rewrite HnL.
  set (W_n := cell norm W).
  assert (∀ p, p ∈ X → 0 <= p) as HXpos by (intros p [? _]%HX; lia).
  assert (0 ∈ X) as H0X by (apply HX, (InX_0 L l w); lia).
  unfold constructRasterPoints.
  destruct (rasterLoop_side L l w X norm ltac:(lia) HX Hlen Hnorm L X)
    as (rx&->&Hascx&Hrx&Hlastx); [lia|done|done|done|].
  cbn [mbind result_bind].
  destruct (rasterLoop_side L l w X norm ltac:(lia) HX Hlen Hnorm W X)
    as (ry&->&Hascy&Hry&Hlasty); [lia|done|done|done|].
  cbn [mbind result_bind]. rewrite HnL in Hlastx. fold W_n in Hlasty.
  assert (∀ a, a ∈ rx → a <= L) as HrxL.
  { intros a (p&Hp&HpL&->)%Hrx. apply HXpos in Hp. pose proof (Hrange (L - p)). lia. }
  assert (∀ b, b ∈ ry → b <= W_n) as HryW.
  { intros b (p&Hp&HpW&->)%Hry. apply HXpos in Hp.
    apply (nm_mono L l w X norm); try done; lia. }
  assert (W_n <= W) as HWn by (apply Hrange; lia).
  destruct (mergeRaster_total L W_n rx ry) as (m&->&Hasc&Hm); try done.
  { intros b Hb. apply HryW in Hb. lia. }
  { intros ->. done. }
  cbn [mbind result_bind].
  set (points := m ++ [L + 1]) in *.
  destruct (indexYLoop_spec W_n 0 points ∅ Hasc) as [Hy Htake].
  fold (widthsOf W_n points) in Hy, Htake. rewrite Hy.
  rewrite Z.add_0_l, Nat2Z.id, Htake.
  exists norm, points. cbn zeta. fold W_n. split; [reflexivity|].
  split; [done|]. split; [by exists X|]. split; [done|].
  intros p. unfold points. rewrite elem_of_app, list_elem_of_singleton, Hm, Hrx, Hry.
  unfold RasterM. split.
  - intros [[(q&Hq&HqL&->)|(q&Hq&HqW&->)]| ->]; [right; left|right; right|by left].
    all: exists q; by rewrite <- HX.
  - intros [->|[(q&Hq&->)|(q&Hq&HqW&->)]]; [by right|left; left|left; right].
    all: exists q; rewrite HX; split; [done|]; try done.
    split; [|done]. destruct Hq; lia.
Qed.

(** Whatever the values of the bounds are, [initialize] leaves the box, the
    array [normalize] and the raster points. *)
Lemma initialize_frame t : initialize N L W l w = Ok t → InitFrame L W l w t.
Proof.
  destruct initialize_steps as (norm&points&Hrun&Hlen&Hnorm&_&Hpts).
  cbn zeta in Hrun. rewrite Hrun. intros (bounds&_&[= <-])%bind_Ok.
  by constructor.
Qed.

(** The points and the widths of the tables lie within the pallet. *)
Lemma points_within norm points :
  (∃ X, (∀ x, x ∈ X ↔ InX L l w x) ∧ ∀ j, 0 <= j <= L → IsNorm X j (cell norm j)) →
  (∀ p, p ∈ points ↔ p = L + 1 ∨ RasterM L W l w norm p) →
  (∀ x, x ∈ points → 0 <= x <= L + 1) ∧
  (∀ y, y ∈ widthsOf (cell norm W) points → 0 <= y <= W).
Proof.
  intros (X&HX&Hnorm) Hpts.
  assert (∀ j, 0 <= j <= L → 0 <= cell norm j <= j) as Hrange.
  { intros j Hj. apply (nm_range L l w X); (done || lia). }
  assert (∀ x, x ∈ points → 0 <= x <= L + 1) as Hx.
  { intros x [->|[(q&[Hq _]&->)|(q&[Hq _]&HqW&->)]]%Hpts; [lia| |].
    - pose proof (Hrange (L - q)). lia.
    - pose proof (Hrange (W - q)). lia. }
  split; [done|]. intros y [Hy Hin]%list_elem_of_filter.
  pose proof (Hx y Hin). pose proof (Hrange W). lia.
Qed.

Hypothesis HLs : L <= sideLimit.
Hypothesis Hls : l <= sideLimit.
Hypothesis Hws : w <= sideLimit.

Theorem initialize_spec : ∃ t, initialize N L W l w = Ok t ∧ InitOK L W l w N t.
Proof.
  destruct initialize_steps as (norm&points&Hrun&Hlen&Hnorm&Hasc&Hpts).
  cbn zeta in Hrun. rewrite Hrun. clear Hrun.
  destruct (points_within norm points Hnorm Hpts) as [Hx Hy].
  set (ys := widthsOf (cell norm W) points) in *.
  rewrite (mapR_Ok _ (λ x, (λ y, (barnesValue x y l w, homValue x y l w)) <$> ys)).
  2:{ intros x Hxin. apply mapR_Ok. intros y Hyin.
      pose proof (Hx x Hxin). pose proof (Hy y Hyin).
      rewrite barnesBound_value, lowerBoundH_value by lia. done. }
  cbn [mbind result_bind].
  eexists. split; [reflexivity|].
  fold (tableOf points ys (λ x y, (barnesValue x y l w, homValue x y l w))).
  rewrite tableOf_fst, tableOf_snd.
  assert (NoDup points) as Hnd by (by apply asc_NoDup).
  constructor; try done; cbn [normalize normalSetX indexX indexY].
  - intros p k. rewrite indexXLoop_spec by done. rewrite lookup_empty. split.
    + intros [[_ ?]|(j&Hj&->)]; [done|]. split; [lia|]. by rewrite Z.add_0_l, Nat2Z.id.
    + intros [Hk Hp]. right. exists (Z.to_nat k). split; [done|lia].
  - intros p k. rewrite indexXLoop_spec; cycle 1.
    { apply asc_NoDup. by apply asc_filter. }
    rewrite lookup_empty. split.
    + intros [[_ ?]|(j&Hj&->)]; [done|]. split; [lia|]. by rewrite Z.add_0_l, Nat2Z.id.
    + intros [Hk Hp]. right. exists (Z.to_nat k). split; [done|lia].
Qed.

End InitializeSpec.

(** * The bound of Barnes holds for every packing *)

Section Sums.

Lemma sumZ_ext n f g :
  (∀ i, 0 <= i < Z.of_nat n → f i = g i) → sumZ n f = sumZ n g.
Proof.
  induction n as [|n IH]; intros H; [done|]. cbn [sumZ].
  rewrite IH, H by (try (intros; apply H); lia). done.
Qed.

Lemma sumZ_le n f g :
  (∀ i, 0 <= i < Z.of_nat n → f i <= g i) → sumZ n f <= sumZ n g.
Proof.
  induction n as [|n IH]; intros H; [done|]. cbn [sumZ].
  pose proof (H (Z.of_nat n) ltac:(lia)).
  assert (sumZ n f <= sumZ n g) by (apply IH; intros; apply H; lia). lia.
Qed.

Lemma sumZ_add n f g : sumZ n (λ i, f i + g i) = sumZ n f + sumZ n g.
Proof. induction n as [|n IH]; [done|]. cbn [sumZ]. rewrite IH. lia. Qed.

Lemma sumZ_sub n f g : sumZ n (λ i, f i - g i) = sumZ n f - sumZ n g.
Proof. induction n as [|n IH]; [done|]. cbn [sumZ]. rewrite IH. lia. Qed.

Lemma sumZ_const n c : sumZ n (λ _, c) = Z.of_nat n * c.
Proof. induction n as [|n IH]; [done|]. cbn [sumZ]. rewrite IH. lia. Qed.

Lemma sumZ_zero n f : (∀ i, 0 <= i < Z.of_nat n → f i = 0) → sumZ n f = 0.
Proof. intros H. rewrite (sumZ_ext n f (λ _, 0)) by done. rewrite sumZ_const. apply Z.mul_0_r. Qed.

Lemma sumZ_shift n f : sumZ n (λ k, f (k + 1)) = sumZ n f - f 0 + f (Z.of_nat n).
Proof.
  induction n as [|n IH]; [cbn [sumZ]; change (Z.of_nat 0) with 0; lia|].
  cbn [sumZ]. rewrite IH.
  replace (Z.of_nat n + 1) with (Z.of_nat (S n)) by lia. lia.
Qed.

(** The sum over the indices of an interval. *)
Lemma sumZ_interval n a b g :
  0 <= a → a <= b → b <= Z.of_nat n →
  sumZ n (λ i, if bool_decide (a <= i < b) then g i else 0)
  = sumZ (Z.to_nat (b - a)) (λ k, g (a + k)).
Proof.
  intros Ha. revert b. induction n as [|n IH]; intros b Hab Hb.
  - replace (b - a) with 0 by lia. done.
  - cbn [sumZ]. case_bool_decide as Hn.
    + assert (b = Z.of_nat n + 1) as -> by lia.
      replace (Z.to_nat (Z.of_nat n + 1 - a)) with (S (Z.to_nat (Z.of_nat n - a))) by lia.
      cbn [sumZ]. replace (a + Z.of_nat (Z.to_nat (Z.of_nat n - a))) with (Z.of_nat n) by lia.
      f_equal. rewrite <- (IH (Z.of_nat n)) by lia.
      apply sumZ_ext. intros i Hi. by repeat case_bool_decide; try lia.
    + rewrite Z.add_0_r. destruct (decide (b <= Z.of_nat n)) as [Hle|Hgt].
      * by apply IH.
      * assert (a = b) as -> by lia. rewrite Z.sub_diag. cbn [Z.to_nat sumZ].
        apply sumZ_zero. intros i Hi. case_bool_decide; [lia|done].
Qed.

Lemma sumList_app {A} (f : A → Z) xs ys :
  sumList f (xs ++ ys) = sumList f xs + sumList f ys.
Proof.
  unfold sumList. induction xs as [|x xs IH]; cbn [foldr app]; [lia|].
  rewrite IH. lia.
Qed.

Lemma sumList_const {A} (c : Z) (xs : list A) :
  sumList (λ _, c) xs = Z.of_nat (length xs) * c.
Proof.
  unfold sumList. induction xs as [|x xs IH]; cbn [foldr length]; [lia|].
  rewrite IH. lia.
Qed.

Lemma sumList_ext {A} (f g : A → Z) xs :
  (∀ x, x ∈ xs → f x = g x) → sumList f xs = sumList g xs.
Proof.
  unfold sumList. induction xs as [|x xs IH]; intros H; [done|]. cbn [foldr].
  rewrite (H x) by (by left). rewrite IH; [done|].
  intros y Hy. apply H. by right.
Qed.

(** A sum over a list and a sum over indices can be exchanged. *)
Lemma sumList_sumZ {A} (f : A → Z → Z) xs n :
  sumList (λ x, sumZ n (f x)) xs = sumZ n (λ i, sumList (λ x, f x i) xs).
Proof.
  unfold sumList. induction xs as [|x xs IH].
  - cbn [foldr]. by rewrite sumZ_const, Z.mul_0_r.
  - cbn [foldr]. rewrite IH, <- sumZ_add. done.
Qed.

End Sums.

Section MarkedCells.
Context (l : Z).
Hypothesis Hl : 0 < l.

Lemma div_succ m : 0 <= m → (m + 1) / l - m / l = mark l m.
Proof.
  intros Hm. unfold mark. pose proof (Z.div_mod m l ltac:(lia)) as Hdm.
  pose proof (Z.mod_pos_bound m l Hl) as Hb.
  case_bool_decide as Hc.
  - assert ((m + 1) / l = m / l + 1) as ->; [|lia].
    symmetry. apply (Z.div_unique _ _ _ 0); lia.
  - assert ((m + 1) / l = m / l) as ->; [|lia].
    symmetry. apply (Z.div_unique _ _ _ (m mod l + 1)); lia.
Qed.

(** The marked cells of a row of [n] cells. *)
Lemma row_count n c :
  0 <= c → sumZ n (λ j, mark l (c + j)) = (c + Z.of_nat n) / l - c / l.
Proof.
  intros Hc. induction n as [|n IH].
  - cbn [sumZ]. rewrite Z.add_0_r. lia.
  - cbn [sumZ]. rewrite IH, <- div_succ by lia.
    replace (c + Z.of_nat (S n)) with (c + Z.of_nat n + 1) by lia. lia.
Qed.

(** [l] consecutive quotients add up to the dividend. *)
Lemma hermite (m : nat) : sumZ (Z.to_nat l) (λ k, (Z.of_nat m + k) / l) = Z.of_nat m.
Proof.
  induction m as [|m IH].
  - apply sumZ_zero. intros i Hi. apply Z.div_small. lia.
  - rewrite (sumZ_ext _ _ (λ k, (λ k', (Z.of_nat m + k') / l) (k + 1))); cycle 1.
    { intros i _. cbn beta. f_equal. lia. }
    rewrite (sumZ_shift _ (λ k', (Z.of_nat m + k') / l)), IH.
    rewrite Z2Nat.id, Z.add_0_r by lia.
    replace (Z.of_nat m + l) with (Z.of_nat m + 1 * l) by lia.
    rewrite Z.div_add by lia. lia.
Qed.

(** The cells [i < n] whose residue is at least [k]. *)
Lemma residue_count (n : nat) k :
  0 <= k <= l →
  sumZ n (λ i, if bool_decide (k <= i mod l) then 1 else 0)
  = (Z.of_nat n / l) * (l - k) + Z.max 0 (Z.of_nat n mod l - k).
Proof.
  intros Hk. induction n as [|n IH].
  - cbn [sumZ]. change (Z.of_nat 0) with 0. rewrite Z.div_0_l, Z.mod_0_l by lia. lia.
  - cbn [sumZ]. rewrite IH. clear IH.
    set (m := Z.of_nat n). replace (Z.of_nat (S n)) with (m + 1) by lia.
    assert (0 <= m) as Hm by lia. clearbody m.
    pose proof (Z.div_mod m l ltac:(lia)) as Hdm.
    pose proof (Z.mod_pos_bound m l Hl) as Hb.
    destruct (decide (m mod l = l - 1)) as [Hc|Hc].
    + assert ((m + 1) / l = m / l + 1) as ->
        by (symmetry; apply (Z.div_unique _ _ _ 0); lia).
      assert ((m + 1) mod l = 0) as ->
        by (symmetry; apply (Z.mod_unique _ _ (m / l + 1)); lia).
      case_bool_decide; nia.
    + assert ((m + 1) / l = m / l) as ->
        by (symmetry; apply (Z.div_unique _ _ _ (m mod l + 1)); lia).
      assert ((m + 1) mod l = m mod l + 1) as ->
        by (symmetry; apply (Z.mod_unique _ _ (m / l)); lia).
      case_bool_decide; nia.
Qed.

(** The marked cells of the rectangle [L x W] leave the area of Barnes
    unmarked. *)
Lemma rect_count (L W : nat) :
  l * markedCells l L W (λ _ _, 1)
  + Z.min ((Z.of_nat L mod l) * (Z.of_nat W mod l))
          ((l - Z.of_nat L mod l) * (l - Z.of_nat W mod l))
  <= Z.of_nat L * Z.of_nat W.
Proof.
  unfold markedCells.
  set (s := Z.of_nat W mod l). set (b := Z.of_nat W / l).
  set (r := Z.of_nat L mod l). set (a := Z.of_nat L / l).
  pose proof (Z.div_mod (Z.of_nat W) l ltac:(lia)) as HW.
  pose proof (Z.mod_pos_bound (Z.of_nat W) l Hl) as Hs.
  pose proof (Z.div_mod (Z.of_nat L) l ltac:(lia)) as HL.
  pose proof (Z.mod_pos_bound (Z.of_nat L) l Hl) as Hr.
  fold s b in HW, Hs. fold r a in HL, Hr.
  assert (0 <= a) by (apply Z.div_pos; lia).
  assert (0 <= b) by (apply Z.div_pos; lia).
  rewrite (sumZ_ext _ _ (λ i, b + if bool_decide (l - s <= i mod l) then 1 else 0));
    cycle 1.
  { intros i Hi.
    rewrite (sumZ_ext _ _ (λ j, mark l (i + j))) by (intros; lia).
    rewrite row_count by lia.
    pose proof (Z.div_mod i l ltac:(lia)) as Hi'.
    pose proof (Z.mod_pos_bound i l Hl) as Hbi.
    case_bool_decide.
    - assert ((i + Z.of_nat W) / l = i / l + b + 1) as ->; [|lia].
      symmetry. apply (Z.div_unique _ _ _ (i mod l + s - l)); lia.
    - assert ((i + Z.of_nat W) / l = i / l + b) as ->; [|lia].
      symmetry. apply (Z.div_unique _ _ _ (i mod l + s)); lia. }
  rewrite sumZ_add, sumZ_const, residue_count by lia.
  fold a r. clearbody s b r a.
  assert (l * Z.max 0 (r - (l - s)) + Z.min (r * s) ((l - r) * (l - s)) <= r * s).
  { destruct (Z.max_spec 0 (r - (l - s))) as [[? ->]|[? ->]]; lia. }
  rewrite HW, HL. lia.
Qed.

(** A box with one side [l] covers as many marked cells as its other side
    is long. *)
Lemma box_count (L W : nat) w b :
  0 < w → isBox l w b → inRect 0 0 (Z.of_nat L) (Z.of_nat W) b →
  markedCells l L W (covers b) = w.
Proof.
  intros Hw Hb Hin. destruct b as [[[x0 y0] x1] y1]. cbn in Hb, Hin.
  unfold markedCells, covers.
  rewrite (sumZ_ext _ _ (λ i, if bool_decide (x0 <= i < x1)
                              then (i + y1) / l - (i + y0) / l else 0)); cycle 1.
  { intros i Hi. case_bool_decide.
    - rewrite (sumZ_ext _ _ (λ j, if bool_decide (y0 <= j < y1)
                                  then mark l (i + j) else 0)); cycle 1.
      { intros j Hj. case_bool_decide; lia. }
      rewrite sumZ_interval by lia.
      rewrite (sumZ_ext _ _ (λ k, mark l (i + y0 + k))); cycle 1.
      { intros k Hk. f_equal. lia. }
      rewrite row_count by lia. f_equal. f_equal. lia.
    - apply sumZ_zero. intros; lia. }
  rewrite sumZ_interval by lia.
  destruct Hb as [[Hx Hy]|[Hx Hy]].
  - (* [l] columns of height [w] *)
    rewrite Hx.
    rewrite (sumZ_ext _ _ (λ k, (Z.of_nat (Z.to_nat (x0 + y1)) + k) / l
                                - (Z.of_nat (Z.to_nat (x0 + y0)) + k) / l)); cycle 1.
    { intros k Hk. f_equal; f_equal; lia. }
    rewrite (sumZ_sub _ (λ k, (Z.of_nat (Z.to_nat (x0 + y1)) + k) / l)
               (λ k, (Z.of_nat (Z.to_nat (x0 + y0)) + k) / l)).
    rewrite !hermite. lia.
  - (* [w] columns of height [l] *)
    rewrite Hx.
    rewrite (sumZ_ext _ _ (λ _, 1)); [rewrite sumZ_const; lia|].
    intros k Hk. replace (x0 + k + y1) with (x0 + k + y0 + 1 * l) by lia.
    rewrite Z.div_add by lia. lia.
Qed.

End MarkedCells.

Section Covering.

Lemma covers_range b i j : 0 <= covers b i j <= 1.
Proof. destruct b as [[[x0 y0] x1] y1]. unfold covers. repeat case_bool_decide; lia. Qed.

Lemma apart_covers a b i j : apart a b → covers a i j = 1 → covers b i j = 0.
Proof.
  destruct a as [[[ax0 ay0] ax1] ay1], b as [[[bx0 by0] bx1] by1].
  unfold apart, covers. intros Hap. repeat case_bool_decide; lia.
Qed.

Lemma pairwiseApart_cons b bs :
  pairwiseApart (b :: bs) → pairwiseApart bs ∧ ∀ a, a ∈ bs → apart b a.
Proof.
  intros H. split.
  - intros i j x y Hij Hx Hy. apply (H (S i) (S j)); [lia|done|done].
  - intros a [k Hk]%list_elem_of_lookup. apply (H 0%nat (S k)); [lia|done|done].
Qed.

Lemma sumList_nonneg {A} (f : A → Z) xs : (∀ x, x ∈ xs → 0 <= f x) → 0 <= sumList f xs.
Proof.
  unfold sumList. induction xs as [|x xs IH]; intros H; [done|]. cbn [foldr].
  pose proof (H x ltac:(by left)).
  assert (0 <= foldr (λ x acc, f x + acc) 0 xs) by (apply IH; intros; apply H; by right).
  lia.
Qed.

Lemma sumList_scale {A} (f : A → Z) c xs :
  sumList (λ x, f x * c) xs = sumList f xs * c.
Proof.
  unfold sumList. induction xs as [|x xs IH]; cbn [foldr]; [lia|]. rewrite IH. lia.
Qed.

(** A cell is covered by at most one box of a packing. *)
Lemma cover_once bs i j :
  pairwiseApart bs → 0 <= sumList (λ b, covers b i j) bs <= 1.
Proof.
  intros Hap. split.
  { apply sumList_nonneg. intros b _. apply covers_range. }
  induction bs as [|b bs IH]; [done|].
  apply pairwiseApart_cons in Hap as [Hbs Hb]. specialize (IH Hbs).
  change (covers b i j + sumList (λ b, covers b i j) bs <= 1).
  pose proof (covers_range b i j).
  destruct (decide (covers b i j = 1)) as [H1|H1]; [|lia].
  rewrite (sumList_ext _ (λ _, 0)), sumList_const; [lia|].
  intros a Ha. apply (apart_covers b); [by apply Hb|done].
Qed.

End Covering.

Section Waste.
Context (l w : Z).
Hypothesis Hl : 0 < l.
Hypothesis Hw : 0 < w.

Lemma mark_range c : 0 <= mark l c <= 1.
Proof. unfold mark. case_bool_decide; lia. Qed.

(** The boxes of a packing cover [w] marked cells each, and every marked
    cell at most once. *)
Lemma packing_marked (L W : nat) bs :
  Packing (Z.of_nat L) (Z.of_nat W) l w bs →
  Z.of_nat (length bs) * w <= markedCells l L W (λ _ _, 1).
Proof.
  intros [Hbs Hap].
  rewrite <- (sumList_const w bs).
  rewrite (sumList_ext _ (λ b, markedCells l L W (covers b))); cycle 1.
  { intros b Hb. symmetry. destruct (Hbs b Hb). by apply box_count. }
  unfold markedCells. rewrite sumList_sumZ.
  apply sumZ_le. intros i Hi. cbn beta.
  rewrite sumList_sumZ. apply sumZ_le. intros j Hj. cbn beta.
  rewrite sumList_scale.
  pose proof (cover_once bs i j Hap). pose proof (mark_range (i + j)). nia.
Qed.

(** The waste of a packing is at least the area of Barnes for the side [l]. *)
Lemma packing_waste L W bs :
  0 <= L → 0 <= W → Packing L W l w bs →
  Z.of_nat (length bs) * (l * w)
  + Z.min ((L mod l) * (W mod l)) ((l - L mod l) * (l - W mod l)) <= L * W.
Proof.
  intros HL HW Hp.
  pose proof (rect_count l Hl (Z.to_nat L) (Z.to_nat W)) as Hr.
  pose proof (packing_marked (Z.to_nat L) (Z.to_nat W) bs) as Hm.
  rewrite !Z2Nat.id in Hr, Hm by lia. specialize (Hm Hp). nia.
Qed.

End Waste.

Lemma isBox_swap l w b : isBox l w b → isBox w l b.
Proof. destruct b as [[[x0 y0] x1] y1]. cbn. tauto. Qed.

Lemma Packing_swap L W l w bs : Packing L W l w bs → Packing L W w l bs.
Proof.
  intros [Hbs Hap]. split; [|done]. intros b Hb. destruct (Hbs b Hb).
  split; [by apply isBox_swap|done].
Qed.

(** No packing has more boxes than the bound of Barnes. *)
Lemma barnes_sound L W l w bs :
  0 < l → 0 < w → 0 <= L → 0 <= W → Packing L W l w bs →
  Z.of_nat (length bs) <= barnesValue L W l w.
Proof.
  intros Hl Hw HL HW Hp.
  pose proof (packing_waste l w Hl Hw L W bs HL HW Hp) as HA.
  pose proof (packing_waste w l Hw Hl L W bs HL HW (Packing_swap _ _ _ _ _ Hp)) as HB.
  unfold barnesValue.
  set (n := Z.of_nat (length bs)) in *. assert (0 <= n) as Hn by lia. clearbody n.
  assert (0 < l * w) as Hm by nia. set (m := l * w) in *.
  replace (w * l) with m in HB by (unfold m; lia).
  pose proof (Z.mod_pos_bound L l Hl). pose proof (Z.mod_pos_bound W l Hl).
  pose proof (Z.mod_pos_bound L w Hw). pose proof (Z.mod_pos_bound W w Hw).
  rewrite !(cmod_eq L), !(cmod_eq W) by lia.
  set (A := Z.min (L mod l * (W mod l)) ((l - L mod l) * (l - W mod l))) in *.
  set (B := Z.min (L mod w * (W mod w)) ((w - L mod w) * (w - W mod w))) in *.
  assert (0 <= A) by (unfold A; nia). assert (0 <= B) by (unfold B; nia).
  assert (0 <= L * W) as HLW by nia.
  rewrite (cmod_eq (L * W)) by lia.
  set (M := Z.max A B) in *. assert (0 <= M) by lia.
  rewrite (cmod_eq M), !(cdiv_eq M) by lia.
  set (waste := L * W - n * m).
  assert (M <= waste) as HM by (unfold waste; lia).
  assert (waste mod m = (L * W) mod m) as Hmod.
  { unfold waste. replace (L * W - n * m) with (L * W + (- n) * m) by lia.
    apply Z_mod_plus_full. }
  pose proof (Z.div_mod waste m ltac:(lia)) as Hwd.
  pose proof (Z.div_mod M m ltac:(lia)) as HMd.
  pose proof (Z.mod_pos_bound waste m Hm) as Hwb.
  pose proof (Z.mod_pos_bound M m Hm) as HMb.
  rewrite Hmod in Hwd, Hwb.
  set (mw := (L * W) mod m) in *. set (q := M / m) in *. set (k := waste / m) in *.
  set (ρ := M mod m) in *.
  assert (q <= k) as Hqk by (apply Z.div_le_mono; lia).
  assert (∀ D, D <= waste → n <= cdiv (L * W - D) m) as Hfin.
  { intros D HD. rewrite cdiv_eq by (unfold waste in HD; nia).
    apply Z.div_le_lower_bound; [lia|]. unfold waste in HD. lia. }
  clearbody waste mw q k ρ M.
  case_bool_decide as Hc; apply Hfin.
  - pose proof (Z.mul_le_mono_nonneg_r q k m ltac:(lia) Hqk). lia.
  - assert (q + 1 <= k) as Hlt.
    { destruct (decide (q = k)) as [E|]; [|lia]. rewrite E in HMd. lia. }
    pose proof (Z.mul_le_mono_nonneg_r (q + 1) k m ltac:(lia) Hlt). lia.
Qed.

(** * drawHomogeneous *)

Section StepLoops.
Import DrawBD.

Lemma elem_of_steps k i step x :
  x ∈ steps k i step ↔ ∃ c, 0 <= c < Z.of_nat k ∧ x = i + c * step.
Proof.
  revert i. induction k as [|k IH]; intros i; cbn [steps].
  - split; [by intros ?%elem_of_nil|]. intros (c&?&_). lia.
  - rewrite elem_of_cons, IH. split.
    + intros [->|(c&Hc&->)]; [exists 0; lia|exists (c + 1); lia].
    + intros (c&Hc&->). destruct (decide (c = 0)) as [->|Hne]; [left; lia|].
      right. exists (c - 1). lia.
Qed.

Lemma length_steps k i step : length (steps k i step) = k.
Proof. revert i. induction k as [|k IH]; intros i; cbn [steps length]; [done|]. by rewrite IH. Qed.

Lemma NoDup_steps k i step : 0 < step → NoDup (steps k i step).
Proof.
  intros Hs. revert i. induction k as [|k IH]; intros i; cbn [steps].
  - constructor.
  - constructor; [|apply IH]. intros (c&Hc&He)%elem_of_steps. nia.
Qed.

(** A [stepLoop] with enough fuel runs its body for the [k] values of the
    counter. *)
Lemma stepLoop_iter {S : Type} (k fuel : nat) step limit i
    (body : Z → S → result S) (s : S) :
  0 < step → (k <= fuel)%nat →
  i + Z.of_nat k * step <= limit < i + (Z.of_nat k + 1) * step →
  stepLoop fuel step limit i body s = iterM body (steps k i step) s.
Proof.
  intros Hs. revert fuel i s. induction k as [|k IH]; intros fuel i s Hf Hk.
  - cbn [steps iterM]. destruct fuel; cbn [stepLoop];
      rewrite bool_decide_eq_false_2 by lia; done.
  - destruct fuel as [|fuel]; [lia|]. cbn [stepLoop steps iterM].
    rewrite bool_decide_eq_true_2 by nia.
    destruct (body i s) as [s'| |]; cbn [mbind result_bind]; [|done|done].
    apply IH; lia.
Qed.

Lemma iterM_ext {S : Type} (f g : Z → S → result S) idx s :
  (∀ i s, i ∈ idx → f i s = g i s) → iterM f idx s = iterM g idx s.
Proof.
  revert s. induction idx as [|i idx IH]; intros s H; [done|]. cbn [iterM].
  rewrite H by (by left). destruct (g i s); cbn [mbind result_bind]; try done.
  apply IH. intros j s' Hj. apply H. by right.
Qed.

Lemma putBoxes_nil c : putBoxes [] c = Ok c.
Proof. done. Qed.

Lemma putBoxes_fail bs (r : result Canvas) :
  r ≠ Ok (default (mkCanvas [] 0) (match r with Ok c => Some c | _ => None end)) →
  foldl (λ r b, c ← r; putBox b c) r bs = r.
Proof.
  induction bs as [|b bs IH]; intros Hr; [done|]. cbn [foldl].
  destruct r as [c| |]; [by destruct Hr|..]; cbn [mbind result_bind]; by apply IH.
Qed.

Lemma putBoxes_cons b bs c :
  putBoxes (b :: bs) c = c' ← putBox b c; putBoxes bs c'.
Proof.
  unfold putBoxes. cbn [foldl]. cbn [mbind result_bind].
  destruct (putBox b c) as [c'| |]; cbn [mbind result_bind];
    [done|by apply putBoxes_fail..].
Qed.

Lemma putBoxes_app bs1 bs2 c :
  putBoxes (bs1 ++ bs2) c = c' ← putBoxes bs1 c; putBoxes bs2 c'.
Proof.
  revert c. induction bs1 as [|b bs1 IH]; intros c; [done|].
  rewrite <- app_comm_cons, !putBoxes_cons.
  destruct (putBox b c) as [c'| |]; cbn [mbind result_bind]; [apply IH|done|done].
Qed.

(** Loops whose bodies put boxes put the boxes of all rounds. *)
Lemma iterM_putBoxes (f : Z → list Box) idx c :
  iterM (λ i c, putBoxes (f i) c) idx c = putBoxes (idx ≫= f) c.
Proof.
  revert c. induction idx as [|i idx IH]; intros c; [done|].
  cbn [iterM]. rewrite bind_cons, putBoxes_app.
  destruct (putBoxes (f i) c); cbn [mbind result_bind]; [apply IH|done|done].
Qed.

Lemma nest_puts a b x y dx dy c :
  0 < a → 0 < b → 0 <= x → 0 <= y →
  stepLoop (Z.to_nat x) a x 0 (λ i c,
    stepLoop (Z.to_nat y) b y 0 (λ j c,
      putBox (i + dx, j + dy, i + a + dx, j + b + dy) c) c) c
  = putBoxes (grid a b x y dx dy) c.
Proof.
  intros Ha Hb Hx Hy.
  assert (∀ s v, 0 < s → 0 <= v →
            (Z.to_nat (v / s) <= Z.to_nat v)%nat ∧
            0 + Z.of_nat (Z.to_nat (v / s)) * s <= v
              < 0 + (Z.of_nat (Z.to_nat (v / s)) + 1) * s) as Hk.
  { intros s v Hs Hv. pose proof (Z.div_mod v s ltac:(lia)).
    pose proof (Z.mod_pos_bound v s Hs).
    assert (0 <= v / s) by (apply Z.div_pos; lia).
    assert (v / s <= v) by (apply Z.div_le_upper_bound; nia).
    rewrite Z2Nat.id by lia. split; [lia|nia]. }
  destruct (Hk a x Ha Hx) as [Hfx Hkx]. destruct (Hk b y Hb Hy) as [Hfy Hky].
  rewrite (stepLoop_iter (Z.to_nat (x / a))) by done.
  rewrite (iterM_ext _ (λ i c, putBoxes
             (steps (Z.to_nat (y / b)) 0 b ≫= λ j,
                [(i + dx, j + dy, i + a + dx, j + b + dy)]) c)); cycle 1.
  { intros i s _. rewrite (stepLoop_iter (Z.to_nat (y / b))) by done.
    rewrite <- iterM_putBoxes. apply iterM_ext. intros j s' _.
    rewrite putBoxes_cons. by destruct (putBox _ s'). }
  by rewrite iterM_putBoxes.
Qed.

Lemma drawHomogeneous_puts l w x y dx dy c :
  0 < l → 0 < w → 0 <= x → 0 <= y →
  drawHomogeneous l w x y dx dy c = putBoxes (homBoxes l w x y dx dy) c.
Proof.
  intros. unfold drawHomogeneous, homBoxes.
  case_bool_decide; by apply nest_puts.
Qed.

End StepLoops.

Section GridGeometry.
Import DrawBD.

Lemma elem_of_grid a b x y dx dy box :
  0 < a → 0 < b → 0 <= x → 0 <= y →
  box ∈ grid a b x y dx dy ↔
  ∃ ci cj, 0 <= ci < x / a ∧ 0 <= cj < y / b ∧
           box = (ci * a + dx, cj * b + dy, ci * a + a + dx, cj * b + b + dy).
Proof.
  intros Ha Hb Hx Hy. unfold grid.
  assert (0 <= x / a) by (apply Z.div_pos; lia).
  assert (0 <= y / b) by (apply Z.div_pos; lia).
  rewrite list_elem_of_bind. split.
  - intros (i&(j&Hbox%list_elem_of_singleton&Hj)%list_elem_of_bind&Hi).
    apply elem_of_steps in Hi as (ci&Hci&->). apply elem_of_steps in Hj as (cj&Hcj&->).
    exists ci, cj. rewrite !Z.add_0_l in Hbox. split; [lia|]. split; [lia|done].
  - intros (ci&cj&Hci&Hcj&->). exists (ci * a). split.
    + apply list_elem_of_bind. exists (cj * b). split; [by apply list_elem_of_singleton|].
      apply elem_of_steps. exists cj. lia.
    + apply elem_of_steps. exists ci. lia.
Qed.

Lemma length_bind_const {A B} (f : A → list B) (xs : list A) n :
  (∀ x, x ∈ xs → length (f x) = n) → length (xs ≫= f) = (length xs * n)%nat.
Proof.
  induction xs as [|x xs IH]; intros H; [done|].
  rewrite bind_cons, length_app, H, IH by (try (intros; apply H); set_solver).
  cbn [length]. lia.
Qed.

Lemma length_grid a b x y dx dy :
  0 < a → 0 < b → 0 <= x → 0 <= y →
  Z.of_nat (length (grid a b x y dx dy)) = (x / a) * (y / b).
Proof.
  intros Ha Hb Hx Hy. unfold grid.
  assert (0 <= x / a) by (apply Z.div_pos; lia).
  assert (0 <= y / b) by (apply Z.div_pos; lia).
  rewrite (length_bind_const _ _ (Z.to_nat (y / b))).
  - rewrite length_steps. lia.
  - intros i _. rewrite (length_bind_const _ _ 1%nat) by done.
    rewrite length_steps. lia.
Qed.

Lemma pairwiseApart_NoDup bs :
  NoDup bs → (∀ a b, a ∈ bs → b ∈ bs → a ≠ b → apart a b) → pairwiseApart bs.
Proof.
  intros Hnd Hap i j a b Hij Ha Hb. apply Hap.
  - apply list_elem_of_lookup. by exists i.
  - apply list_elem_of_lookup. by exists j.
  - intros ->. apply Hij. by apply (proj1 (NoDup_alt bs) Hnd i j b).
Qed.

Lemma grid_NoDup a b x y dx dy : 0 < a → 0 < b → NoDup (grid a b x y dx dy).
Proof.
  intros Ha Hb. unfold grid. apply NoDup_bind.
  - intros i i' box _ _ (j&Hj%list_elem_of_singleton&_)%list_elem_of_bind
      (j'&Hj'%list_elem_of_singleton&_)%list_elem_of_bind.
    rewrite Hj in Hj'. injection Hj' as ?. lia.
  - intros i _. apply NoDup_bind.
    + intros j j' box _ _ Hj%list_elem_of_singleton Hj'%list_elem_of_singleton.
      rewrite Hj in Hj'. injection Hj' as ?. lia.
    + intros j _. apply NoDup_singleton.
    + by apply NoDup_steps.
  - by apply NoDup_steps.
Qed.

(** The grid is a packing of [(a, b)]-boxes, all in the same orientation,
    into [(x, y)]. *)
Lemma grid_packing a b x y dx dy :
  0 < a → 0 < b → 0 <= x → 0 <= y →
  (∀ box, box ∈ grid a b x y dx dy →
     (∃ x0 y0, box = (x0, y0, x0 + a, y0 + b)) ∧ inRect dx dy x y box) ∧
  pairwiseApart (grid a b x y dx dy).
Proof.
  intros Ha Hb Hx Hy.
  pose proof (Z.div_mod x a ltac:(lia)). pose proof (Z.mod_pos_bound x a Ha).
  pose proof (Z.div_mod y b ltac:(lia)). pose proof (Z.mod_pos_bound y b Hb).
  split.
  - intros box (ci&cj&Hci&Hcj&->)%elem_of_grid; try done. split.
    + exists (ci * a + dx), (cj * b + dy). f_equal; [f_equal|]; lia.
    + cbn. nia.
  - apply pairwiseApart_NoDup; [by apply grid_NoDup|].
    intros b1 b2 (ci&cj&Hci&Hcj&->)%elem_of_grid (ci'&cj'&Hci'&Hcj'&->)%elem_of_grid Hne;
      try done.
    cbn. destruct (decide (ci = ci')) as [->|Hc].
    + destruct (decide (cj = cj')) as [->|Hc']; [done|]. nia.
    + nia.
Qed.

(** [drawHomogeneous] draws a packing of [lowerBound(x, y, l, w)] boxes. *)
Lemma homBoxes_packing l w x y dx dy :
  0 < l → 0 < w → 0 <= x → 0 <= y →
  PackingAt dx dy x y l w (homBoxes l w x y dx dy) ∧
  Z.of_nat (length (homBoxes l w x y dx dy)) = homValue x y l w.
Proof.
  intros Hl Hw Hx Hy. unfold homBoxes, boxOrientation, homValue.
  rewrite !cdiv_eq by lia. case_bool_decide as Ho.
  - destruct (grid_packing l w x y dx dy) as [Hin Hap]; try done.
    split; [split; [|done]|].
    + intros box Hbox. destruct (Hin box Hbox) as [(x0&y0&->) ?].
      split; [|done]. cbn. left. lia.
    + rewrite length_grid by done. case_bool_decide; [lia|done].
  - destruct (grid_packing w l x y dx dy) as [Hin Hap]; try done.
    split; [split; [|done]|].
    + intros box Hbox. destruct (Hin box Hbox) as [(x0&y0&->) ?].
      split; [|done]. cbn. right. lia.
    + rewrite length_grid by done. case_bool_decide; [done|lia].
Qed.

End GridGeometry.

Section CanvasFacts.
Import DrawBD.

Lemma Filled_nil rows : Filled (mkCanvas rows 0) [].
Proof. split; [done|]. by rewrite take_0. Qed.

Lemma putBoxes_Filled bs c bs0 :
  Filled c bs0 →
  (length bs0 + length bs <= length (ptoRet c))%nat →
  ∃ c', putBoxes bs c = Ok c' ∧ Filled c' (bs0 ++ bs) ∧
        length (ptoRet c') = length (ptoRet c).
Proof.
  revert c bs0. induction bs as [|b bs IH]; intros c bs0 [Hn Hrows] Hlen.
  - exists c. rewrite app_nil_r. done.
  - rewrite putBoxes_cons. unfold putBox. cbn [length] in Hlen.
    rewrite wr_in by lia. cbn [mbind result_bind].
    rewrite Hn, Nat2Z.id.
    destruct (IH (mkCanvas (<[length bs0 := Some b]> (ptoRet c))
                    (Z.of_nat (length bs0) + 1)) (bs0 ++ [b])) as (c'&Hc'&HF&Hl).
    + split; cbn [boxesDrawn ptoRet]; rewrite length_app; cbn [length].
      * lia.
      * replace (length bs0 + 1)%nat with (S (length bs0)) by lia.
        rewrite (take_S_r _ _ (Some b)) by (apply list_lookup_insert_eq; lia).
        rewrite take_insert_ge by lia. rewrite Hrows, fmap_app. done.
    + cbn [ptoRet]. rewrite length_insert, length_app. cbn [length]. lia.
    + exists c'. split; [done|]. rewrite <- app_assoc in HF. split; [done|].
      rewrite Hl. cbn [ptoRet]. by rewrite length_insert.
Qed.

End CanvasFacts.

(** * The reconstruction of the packing *)

Section Regions.
Import DrawBD.

Lemma apart_sym a b : apart a b → apart b a.
Proof.
  destruct a as [[[ax0 ay0] ax1] ay1], b as [[[bx0 by0] bx1] by1]. cbn. tauto.
Qed.

Lemma pairwiseApart_nil : pairwiseApart [].
Proof. intros i j a b _ Ha. by rewrite lookup_nil in Ha. Qed.

Lemma pairwiseApart_app bs1 bs2 :
  pairwiseApart bs1 → pairwiseApart bs2 →
  (∀ a b, a ∈ bs1 → b ∈ bs2 → apart a b) → pairwiseApart (bs1 ++ bs2).
Proof.
  intros H1 H2 H12 i j a b Hij Ha Hb.
  apply lookup_app_Some in Ha as [Ha|[Hi Ha]], Hb as [Hb|[Hj Hb]].
  - by apply (H1 i j).
  - apply H12; by eapply list_elem_of_lookup_2.
  - apply apart_sym, H12; by eapply list_elem_of_lookup_2.
  - apply (H2 (i - length bs1)%nat (j - length bs1)%nat); [lia|done|done].
Qed.

Lemma pairwiseApart_cons_intro b bs :
  (∀ a, a ∈ bs → apart b a) → pairwiseApart bs → pairwiseApart (b :: bs).
Proof.
  intros Hb Hbs. apply (pairwiseApart_app [b] bs); [|done|].
  - intros i j x y Hij Hx Hy. apply list_lookup_singleton_Some in Hx as [-> _].
    apply list_lookup_singleton_Some in Hy as [-> _]. done.
  - intros x y ->%list_elem_of_singleton Hy. by apply Hb.
Qed.

(** Boxes within rectangles with disjoint interiors have disjoint
    interiors. *)
Lemma region_apart blk1 blk2 x y :
  apart (regionOf blk1) (regionOf blk2) →
  inRect blk1.1.2 blk1.2 blk1.1.1.1 blk1.1.1.2 x →
  inRect blk2.1.2 blk2.2 blk2.1.1.1 blk2.1.1.2 y →
  apart x y.
Proof.
  destruct blk1 as [[[a1 b1] dx1] dy1], blk2 as [[[a2 b2] dx2] dy2].
  destruct x as [[[x0 y0] x1] y1], y as [[[u0 v0] u1] v1]. cbn. lia.
Qed.

Lemma elem_of_blockBoxes l w blocks box :
  box ∈ blockBoxes l w blocks ↔
  ∃ a b dx dy, (a, b, dx, dy) ∈ blocks ∧ box ∈ homBoxes l w a b dx dy.
Proof.
  unfold blockBoxes. rewrite list_elem_of_bind. split.
  - intros ([[[a b] dx] dy]&?&?). by exists a, b, dx, dy.
  - intros (a&b&dx&dy&?&?). by exists (a, b, dx, dy).
Qed.

(** The homogeneous packings of blocks in rectangles with disjoint interiors
    make one packing. *)
Lemma blockBoxes_packing l w blocks :
  0 < l → 0 < w →
  (∀ a b dx dy, (a, b, dx, dy) ∈ blocks → 0 <= a ∧ 0 <= b) →
  pairwiseApart (regionOf <$> blocks) →
  pairwiseApart (blockBoxes l w blocks) ∧
  Z.of_nat (length (blockBoxes l w blocks)) = sumLBH l w blocks.
Proof.
  intros Hl Hw. induction blocks as [|[[[a b] dx] dy] blocks IH]; intros Hpos Hap.
  - split; [apply pairwiseApart_nil|done].
  - rewrite fmap_cons in Hap. apply pairwiseApart_cons in Hap as [Haps Hb].
    destruct IH as [IH1 IH2]; [intros; eapply Hpos; by right|done|].
    destruct (Hpos a b dx dy ltac:(by left)) as [Ha0 Hb0].
    destruct (homBoxes_packing l w a b dx dy Hl Hw Ha0 Hb0) as [[Hin Hpw] Hlen].
    unfold blockBoxes. rewrite bind_cons. fold (blockBoxes l w blocks). split.
    + apply pairwiseApart_app; [done|done|].
      intros x y Hx (a'&b'&dx'&dy'&Hblk&Hy)%elem_of_blockBoxes.
      destruct (Hpos a' b' dx' dy' ltac:(by right)) as [Ha0' Hb0'].
      destruct (homBoxes_packing l w a' b' dx' dy' Hl Hw Ha0' Hb0') as [[Hin' _] _].
      apply (region_apart (a, b, dx, dy) (a', b', dx', dy')).
      * apply Hb. apply list_elem_of_fmap. by exists (a', b', dx', dy').
      * by apply Hin.
      * by apply Hin'.
    + rewrite length_app, Nat2Z.inj_add, Hlen, IH2. done.
Qed.

End Regions.

(** * BD at the depth limit *)

Section TableFacts.
Import FiveBlock.
Context {A : Type}.
Implicit Types (m : list (list A)) (i j : Z) (v : A).

Lemma rd2_Ok m i j v :
  rd2 m i j = Ok v ↔
  ∃ row, 0 <= i ∧ m !! Z.to_nat i = Some row ∧ 0 <= j ∧ row !! Z.to_nat j = Some v.
Proof.
  unfold rd2. rewrite bind_Ok. split.
  - intros (row&[? ?]%rd_Ok&[? ?]%rd_Ok). by exists row.
  - intros (row&?&?&?&?). exists row. by rewrite !rd_Ok.
Qed.

Lemma wr2_Ok m i j v m' :
  wr2 m i j v = Ok m' ↔
  ∃ row, 0 <= i ∧ m !! Z.to_nat i = Some row ∧ 0 <= j < Z.of_nat (length row) ∧
         m' = <[Z.to_nat i := <[Z.to_nat j := v]> row]> m.
Proof.
  unfold wr2. rewrite bind_Ok. split.
  - intros (row&[? Hrow]%rd_Ok&(row'&[? ->]%wr_Ok&[? ->]%wr_Ok)%bind_Ok).
    by exists row.
  - intros (row&?&Hrow&?&->). exists row. rewrite rd_Ok. split; [done|].
    rewrite wr_in by done. cbn [mbind result_bind]. apply wr_in.
    apply lookup_lt_Some in Hrow. lia.
Qed.

Lemma rd2_tableOf (points ys : list Z) (f : Z → Z → A) (i j : nat) x y :
  points !! i = Some x → ys !! j = Some y →
  rd2 (tableOf points ys f) (Z.of_nat i) (Z.of_nat j) = Ok (f x y).
Proof.
  intros Hx Hy. apply rd2_Ok. exists ((λ y, f x y) <$> ys).
  rewrite !Nat2Z.id. unfold tableOf. rewrite !list_lookup_fmap, Hx, Hy.
  repeat split; try lia; done.
Qed.

Lemma shape_tableOf {B} (points ys : list Z) (f : Z → Z → A) (g : Z → Z → B) :
  shape (tableOf points ys f) = shape (tableOf points ys g).
Proof.
  unfold shape, tableOf. rewrite <- !list_fmap_compose. apply list_fmap_ext.
  intros i x _. cbn. by rewrite !length_fmap.
Qed.

Lemma shape_lookup m (k : nat) row :
  m !! k = Some row → shape m !! k = Some (length row).
Proof. intros H. unfold shape. by rewrite list_lookup_fmap, H. Qed.

Lemma shape_lookup_inv m (k : nat) n :
  shape m !! k = Some n → ∃ row, m !! k = Some row ∧ length row = n.
Proof.
  unfold shape. rewrite list_lookup_fmap. destruct (m !! k) as [row|]; [|done].
  intros [= <-]. by exists row.
Qed.

Lemma wr2_rd2_eq m i j v m' : wr2 m i j v = Ok m' → rd2 m' i j = Ok v.
Proof.
  intros (row&?&Hrow&?&->)%wr2_Ok. apply rd2_Ok.
  exists (<[Z.to_nat j := v]> row). split; [done|].
  split; [apply list_lookup_insert_eq; by eapply lookup_lt_Some|].
  split; [lia|]. apply list_lookup_insert_eq. lia.
Qed.

Lemma wr2_rd2_ne m i j v m' i' j' :
  wr2 m i j v = Ok m' → 0 <= i' → 0 <= j' → (i', j') ≠ (i, j) →
  rd2 m' i' j' = rd2 m i' j'.
Proof.
  intros (row&?&Hrow&?&->)%wr2_Ok Hi' Hj' Hne. unfold rd2.
  destruct (decide (i = i')) as [<-|Hi].
  - rewrite rd_insert_eq by (apply lookup_lt_Some in Hrow; lia).
    assert (rd m i = Ok row) as -> by (by apply rd_Ok).
    cbn [mbind result_bind]. apply rd_insert_ne; [lia|congruence].
  - by rewrite rd_insert_ne.
Qed.

Lemma wr2_shape m i j v m' : wr2 m i j v = Ok m' → shape m' = shape m.
Proof.
  intros (row&?&Hrow&?&->)%wr2_Ok. unfold shape.
  rewrite list_fmap_insert, length_insert.
  apply list_insert_id. by rewrite list_lookup_fmap, Hrow.
Qed.

Lemma wr2_wr2 m i j v v' m1 : wr2 m i j v = Ok m1 → wr2 m1 i j v' = wr2 m i j v'.
Proof.
  intros (row&?&Hrow&?&->)%wr2_Ok.
  assert (Z.to_nat i < length m)%nat by (by eapply lookup_lt_Some).
  assert (wr2 m i j v' = Ok (<[Z.to_nat i := <[Z.to_nat j := v']> row]> m)) as ->.
  { apply wr2_Ok. by exists row. }
  apply wr2_Ok. exists (<[Z.to_nat j := v]> row). split; [done|].
  split; [by apply list_lookup_insert_eq|]. rewrite length_insert. split; [done|].
  by rewrite list_insert_insert_eq, list_insert_insert_eq.
Qed.

End TableFacts.

Section ShapeFacts.
Import FiveBlock.

(** A cell of a table can be written when the cell exists in a table of the
    same shape. *)
Lemma wr2_defined {A B} (m : list (list A)) (m0 : list (list B)) i j v v0 :
  shape m = shape m0 → rd2 m0 i j = Ok v0 →
  ∃ m', wr2 m i j v = Ok m' ∧ shape m' = shape m0.
Proof.
  intros Hs (row0&?&Hrow0&?&Hv0)%rd2_Ok.
  apply shape_lookup in Hrow0. rewrite <- Hs in Hrow0.
  apply shape_lookup_inv in Hrow0 as (row&Hrow&Hlen).
  apply lookup_lt_Some in Hv0.
  assert (wr2 m i j v = Ok (<[Z.to_nat i := <[Z.to_nat j := v]> row]> m)) as Hw.
  { apply wr2_Ok. exists row. repeat split; try done; lia. }
  eexists. split; [exact Hw|]. rewrite <- Hs. by eapply wr2_shape.
Qed.

Lemma rd2_defined {A B} (m : list (list A)) (m0 : list (list B)) i j v0 :
  shape m = shape m0 → rd2 m0 i j = Ok v0 → ∃ v, rd2 m i j = Ok v.
Proof.
  intros Hs (row0&?&Hrow0&?&Hv0)%rd2_Ok.
  apply shape_lookup in Hrow0. rewrite <- Hs in Hrow0.
  apply shape_lookup_inv in Hrow0 as (row&Hrow&Hlen).
  apply lookup_lt_Some in Hv0.
  destruct (lookup_lt_is_Some_2 row (Z.to_nat j)) as [v Hv]; [lia|].
  exists v. apply rd2_Ok. by exists row.
Qed.

End ShapeFacts.

Section ScanFacts.
Import FiveBlock.

(** A loop over an ascending list of points keeps what each round keeps. *)
Lemma scan_inv {S : Type} (I : S → Prop) cond body points (s : S) :
  asc points →
  (∀ p rest s, p ∈ points → asc rest → (∀ q, q ∈ rest → q ∈ points ∧ p < q) →
     cond p = true → I s → ∃ b s', body p rest s = Ok (b, s') ∧ I s') →
  I s → ∃ b s', scan cond body points s = Ok (b, s') ∧ I s'.
Proof.
  revert s. induction points as [|p rest IH]; intros s Hasc Hbody Hs.
  - exists false, s. done.
  - cbn [scan]. destruct (cond p) eqn:Hc; [|by exists false, s].
    apply asc_cons_inv in Hasc as [Hrest Hlt].
    destruct (Hbody p rest s) as (b&s'&->&Hs'); try done.
    { by left. }
    { intros q Hq. split; [by right|by apply Hlt]. }
    cbn [mbind result_bind]. destruct b; [by exists true, s'|].
    apply IH; try done.
    intros p' rest' s'' Hp' Hasc' Hq' Hc' Hs''. apply Hbody; try done.
    + by right.
    + intros q Hq. destruct (Hq' q Hq). split; [by right|done].
Qed.

End ScanFacts.

Section BDCap.
Import Sets Bounds FiveBlock.
Context (L W l w N : Z) (t0 : Tables) (X : list Z).
Hypothesis Hl : 0 < l.
Hypothesis Hw : 0 < w.
Hypothesis HW : 0 < W.
Hypothesis HWL : W <= L.
Hypothesis Hinit : InitOK L W l w N t0.
Hypothesis HX : ∀ x, x ∈ X ↔ InX L l w x.
Hypothesis Hnorm : ∀ j, 0 <= j <= L → IsNorm X j (cell (normalize t0) j).

Local Abbreviation norm := (normalize t0).
Local Abbreviation nm := (cell (normalize t0)).
Local Abbreviation Wn := (cell (normalize t0) W).
Local Abbreviation points := (normalSetX t0).
Local Abbreviation ys := (widthsOf (cell (normalize t0) W) (normalSetX t0)).
Local Abbreviation lbH a b := (homValue a b l w).

Lemma c_rd j : 0 <= j <= L → rd norm j = Ok (nm j).
Proof. intros Hj. apply (nm_rd L); [apply Hinit|done]. Qed.

Lemma c_range j : 0 <= j <= L → 0 <= nm j <= j.
Proof. intros Hj. apply (nm_range L l w X); (done || lia). Qed.

Lemma c_InX j : 0 <= j <= L → InX L l w (nm j).
Proof. intros Hj. apply (nm_InX L l w X); (done || lia). Qed.

Lemma c_fix x : InX L l w x → nm x = x.
Proof. intros Hx. apply (nm_fix L l w X); (done || lia). Qed.

Lemma c_mono i j : 0 <= i → i <= j → j <= L → nm i <= nm j.
Proof. intros. apply (nm_mono L l w X); (done || lia). Qed.

Lemma c_sub A b : 0 <= A <= L → InX L l w b → b <= A → nm (nm A - b) = nm (A - b).
Proof. intros. apply (nm_sub L l w X); (done || lia). Qed.

Lemma c_lbH a b : 0 <= a <= L → 0 <= b <= L → lbH (nm a) (nm b) = lbH a b.
Proof. intros. apply (homValue_nm L l w X); (done || lia). Qed.

Lemma Wn_range : 0 <= Wn <= W.
Proof. apply c_range. lia. Qed.

Lemma RX_intro q : InX L l w q → RX L l w norm (nm (L - q)).
Proof. intros Hq. by exists q. Qed.

Lemma RY_intro q : InX L l w q → q <= W → RY L W l w norm (nm (W - q)).
Proof. intros Hq HqW. by exists q. Qed.

Lemma RX_InX x : RX L l w norm x → InX L l w x ∧ x ∈ points.
Proof.
  intros (q&Hq&->). split.
  - apply c_InX. destruct Hq. lia.
  - apply (io_points _ _ _ _ _ _ Hinit). right. left. by exists q.
Qed.

Lemma RY_InX y : RY L W l w norm y → InX L l w y ∧ y ∈ points ∧ y <= Wn.
Proof.
  intros (q&Hq&HqW&->). destruct Hq as [Hq0 Hq]. split; [|split].
  - apply c_InX. lia.
  - apply (io_points _ _ _ _ _ _ Hinit). right. right. by exists q.
  - apply c_mono; lia.
Qed.

Lemma RX_L : RX L l w norm L.
Proof.
  exists 0. split; [apply InX_0; lia|]. rewrite Z.sub_0_r. symmetry.
  apply c_fix, InX_L. lia.
Qed.

Lemma RY_Wn : RY L W l w norm Wn.
Proof. exists 0. split; [apply InX_0; lia|]. rewrite Z.sub_0_r. split; [lia|done]. Qed.

(** A raster point of the second side, taken from the normalised width. *)
Lemma RY_sub y : InX L l w y → y <= Wn → RY L W l w norm (nm (Wn - y)).
Proof.
  intros Hy HyW. pose proof Wn_range. rewrite c_sub by (done || lia).
  apply RY_intro; [done|lia].
Qed.

Lemma lookupX p :
  p ∈ points → ∃ k : nat, indexX t0 !! p = Some (Z.of_nat k) ∧ points !! k = Some p.
Proof.
  intros [k Hk]%list_elem_of_lookup. exists k. split; [|done].
  apply (io_indexX _ _ _ _ _ _ Hinit). rewrite Nat2Z.id. split; [lia|done].
Qed.

Lemma lookupY p :
  p ∈ points → p <= Wn →
  ∃ k : nat, indexY t0 !! p = Some (Z.of_nat k) ∧ ys !! k = Some p.
Proof.
  intros Hp HpW.
  assert (p ∈ ys) as [k Hk]%list_elem_of_lookup by (by apply list_elem_of_filter).
  exists k. split; [|done].
  apply (io_indexY _ _ _ _ _ _ Hinit). rewrite Nat2Z.id. split; [lia|done].
Qed.

Lemma rdm_Some (m : gmap Z Z) p k : m !! p = Some k → rdm m p = Ok k.
Proof. intros H. unfold rdm. by rewrite H. Qed.

(** The cell of a block whose sides are raster points. *)
Lemma block_lookup a b :
  RX L l w norm a → RY L W l w norm b →
  ∃ i j : nat, indexX t0 !! Z.max a b = Some (Z.of_nat i) ∧
               indexY t0 !! Z.min a b = Some (Z.of_nat j) ∧
               points !! i = Some (Z.max a b) ∧ ys !! j = Some (Z.min a b).
Proof.
  intros [_ Ha]%RX_InX (_&Hb&HbW)%RY_InX.
  destruct (lookupX (Z.max a b)) as (i&Hi&Hpi).
  { destruct (Z.max_spec a b) as [[_ ->]|[_ ->]]; done. }
  destruct (lookupY (Z.min a b)) as (j&Hj&Hpj).
  { destruct (Z.min_spec a b) as [[_ ->]|[_ ->]]; done. }
  { lia. }
  by exists i, j.
Qed.

Lemma top_lookup :
  ∃ iL iW : nat, indexX t0 !! L = Some (Z.of_nat iL) ∧
                 indexY t0 !! Wn = Some (Z.of_nat iW) ∧
                 points !! iL = Some L ∧ ys !! iW = Some Wn.
Proof.
  pose proof Wn_range.
  destruct (block_lookup L Wn RX_L RY_Wn) as (i&j&Hi&Hj&Hpi&Hpj).
  rewrite Z.max_l in Hi, Hpi by lia. rewrite Z.min_r in Hj, Hpj by lia.
  by exists i, j.
Qed.

Lemma lowerBound_cell (i j : nat) x y :
  points !! i = Some x → ys !! j = Some y →
  rd2 (lowerBound t0) (Z.of_nat i) (Z.of_nat j) = Ok (lbH x y).
Proof.
  intros Hx Hy. rewrite (io_lower _ _ _ _ _ _ Hinit).
  by apply (rd2_tableOf _ _ (λ x y, homValue x y l w)).
Qed.

(** [normBlock] on a block whose normalised sides are raster points. *)
Lemma normBlock_Ok t a b :
  sameFrame t0 t → 0 <= a <= L → 0 <= b <= L →
  RX L l w norm (nm a) → RY L W l w norm (nm b) →
  ∃ Li Wi iX iY, normBlock t (a, b) = Ok (Li, Wi, iX, iY) ∧
                 rd2 (lowerBound t0) iX iY = Ok (lbH (nm a) (nm b)).
Proof.
  intros (_&_&_&Hn&_&HiX&HiY&_) Ha Hb HRa HRb.
  destruct (block_lookup _ _ HRa HRb) as (i&j&Hi&Hj&Hpi&Hpj).
  unfold normBlock. cbn [fst snd]. rewrite Hn, !c_rd by done.
  cbn [mbind result_bind]. rewrite HiX, HiY.
  case_bool_decide as Hlt.
  - rewrite Z.max_r in Hi, Hpi by lia. rewrite Z.min_l in Hj, Hpj by lia.
    rewrite (rdm_Some _ _ _ Hi), (rdm_Some _ _ _ Hj). cbn [mbind result_bind].
    eexists _, _, _, _. split; [done|].
    rewrite (lowerBound_cell _ _ _ _ Hpi Hpj). f_equal. apply homValue_comm.
  - rewrite Z.max_l in Hi, Hpi by lia. rewrite Z.min_r in Hj, Hpj by lia.
    rewrite (rdm_Some _ _ _ Hi), (rdm_Some _ _ _ Hj). cbn [mbind result_bind].
    eexists _, _, _, _. split; [done|].
    by rewrite (lowerBound_cell _ _ _ _ Hpi Hpj).
Qed.

Lemma normBlocks_Ok t t' blocks :
  sameFrame t0 t → sameFrame t0 t' →
  (∀ a b, (a, b) ∈ blocks →
     0 <= a <= L ∧ 0 <= b <= L ∧ RX L l w norm (nm a) ∧ RY L W l w norm (nm b)) →
  ∃ blks, normBlocks t blocks = Ok blks ∧
          sumLower t' blks = Ok (sumList (λ '(a, b), lbH (nm a) (nm b)) blocks).
Proof.
  intros Hf Hf' Hbs. induction blocks as [|[a b] blocks IH].
  - by exists [].
  - destruct (Hbs a b ltac:(by left)) as (Ha&Hb&HRa&HRb).
    destruct (normBlock_Ok t a b Hf Ha Hb HRa HRb) as (Li&Wi&iX&iY&HnB&Hrd).
    destruct IH as (blks&Hblks&Hsum).
    { intros a' b' H'. apply Hbs. by right. }
    exists ((Li, Wi, iX, iY) :: blks). cbn [normBlocks sumLower].
    rewrite HnB, Hblks. cbn [mbind result_bind]. split; [done|].
    destruct Hf' as (_&_&_&_&_&_&_&_&->). rewrite Hrd, Hsum. done.
Qed.

(** The writes of BD keep its invariant. *)
Lemma BDInv_init : BDInv L W l w t0 (lbH L Wn, t0).
Proof. split; cbn [fst snd]; [done|done|done|lia|by left]. Qed.

Lemma reached_cell (i j : nat) x y :
  points !! i = Some x → ys !! j = Some y →
  rd2 (reachedLimit t0) (Z.of_nat i) (Z.of_nat j) = Ok 1.
Proof.
  intros Hx Hy. rewrite (io_reached _ _ _ _ _ _ Hinit).
  by apply (rd2_tableOf _ _ (λ _ _, 1) i j x y).
Qed.

Lemma depth_cell (i j : nat) x y :
  points !! i = Some x → ys !! j = Some y →
  rd2 (solutionDepth t0) (Z.of_nat i) (Z.of_nat j) = Ok N.
Proof.
  intros Hx Hy. rewrite (io_depth _ _ _ _ _ _ Hinit).
  by apply (rd2_tableOf _ _ (λ _ _, N) i j x y).
Qed.

Lemma cut_cell (i j : nat) x y :
  points !! i = Some x → ys !! j = Some y →
  rd2 (cutPoints t0) (Z.of_nat i) (Z.of_nat j) = Ok (mkCutPoint None 1).
Proof.
  intros Hx Hy. rewrite (io_cut _ _ _ _ _ _ Hinit).
  by apply (rd2_tableOf _ _ (λ _ _, mkCutPoint None 1) i j x y).
Qed.

Lemma upper_cell (i j : nat) x y :
  points !! i = Some x → ys !! j = Some y →
  rd2 (upperBound t0) (Z.of_nat i) (Z.of_nat j) = Ok (barnesValue x y l w).
Proof.
  intros Hx Hy. rewrite (io_upper _ _ _ _ _ _ Hinit).
  by apply (rd2_tableOf _ _ (λ x y, barnesValue x y l w)).
Qed.

Lemma inv_write_reached z t v (i j : nat) x y :
  BDInv L W l w t0 (z, t) → points !! i = Some x → ys !! j = Some y →
  ∃ t', write_reachedLimit (Z.of_nat i) (Z.of_nat j) v t = Ok t' ∧
        BDInv L W l w t0 (z, t').
Proof.
  intros [Hf Hd Hr Hlo Hc] Hx Hy. cbn [fst snd] in *.
  destruct (wr2_defined (reachedLimit t) (reachedLimit t0) (Z.of_nat i) (Z.of_nat j) v 1 Hr)
    as (m&Hm&Hs); [by eapply reached_cell|].
  exists (set_reachedLimit m t). unfold write_reachedLimit. rewrite Hm.
  split; [done|]. by split.
Qed.

Lemma inv_write_depth z t v (i j : nat) x y :
  BDInv L W l w t0 (z, t) → points !! i = Some x → ys !! j = Some y →
  ∃ t', write_solutionDepth (Z.of_nat i) (Z.of_nat j) v t = Ok t' ∧
        BDInv L W l w t0 (z, t').
Proof.
  intros [Hf Hd Hr Hlo Hc] Hx Hy. cbn [fst snd] in *.
  destruct (wr2_defined (solutionDepth t) (solutionDepth t0) (Z.of_nat i) (Z.of_nat j) v N Hd)
    as (m&Hm&Hs); [by eapply depth_cell|].
  exists (set_solutionDepth m t). unfold write_solutionDepth. rewrite Hm.
  split; [done|]. by split.
Qed.

Lemma inv_store_cut z t z' x1 x2 y1 y2 :
  BDInv L W l w t0 (z, t) →
  GoodCut L W l w norm (x1, x2, y1, y2) →
  0 < lbH L Wn → lbH L Wn <= z' →
  z' = sumLBH l w (children norm L Wn (x1, x2, y1, y2)) →
  ∃ t', storeCutPoint L Wn x1 x2 y1 y2 t = Ok t' ∧ BDInv L W l w t0 (z', t').
Proof.
  intros [Hf Hd Hr Hlo Hc] Hcut Hpos Hle Hz'. cbn [fst snd] in *.
  destruct top_lookup as (iL&iW&HiL&HiW&HpL&HpW).
  destruct (wr2_defined (cutPoints t0) (cutPoints t0) (Z.of_nat iL) (Z.of_nat iW)
              (mkCutPoint (Some (x1, x2, y1, y2)) 0) (mkCutPoint None 1) eq_refl)
    as (m&Hm&_); [by eapply cut_cell|].
  assert (wr2 (cutPoints t) (Z.of_nat iL) (Z.of_nat iW)
            (mkCutPoint (Some (x1, x2, y1, y2)) 0) = Ok m) as Hwr.
  { destruct Hc as [[_ ->]|(cut'&iL'&iW'&HiL'&HiW'&Hw'&_)]; [done|].
    assert (iL' = Z.of_nat iL) as -> by congruence.
    assert (iW' = Z.of_nat iW) as -> by congruence.
    by rewrite (wr2_wr2 _ _ _ _ _ _ Hw'). }
  exists (set_cutPoints m t). unfold storeCutPoint.
  destruct Hf as (?&?&?&?&?&HiX&HiY&?&?).
  rewrite HiX, HiY, (rdm_Some _ _ _ HiL), (rdm_Some _ _ _ HiW).
  cbn [mbind result_bind]. rewrite Hwr. split; [done|].
  split; cbn [fst snd]; try done.
  right. exists (x1, x2, y1, y2), (Z.of_nat iL), (Z.of_nat iW). done.
Qed.

(** [solve] at the depth limit. *)
Lemma solve_cap rec blocks z_ub cut st :
  BDInv L W l w t0 st →
  (∀ a b, (a, b) ∈ blocks →
     0 <= a <= L ∧ 0 <= b <= L ∧ RX L l w norm (nm a) ∧ RY L W l w norm (nm b)) →
  GoodCut L W l w norm cut →
  sumList (λ '(a, b), lbH (nm a) (nm b)) blocks = sumLBH l w (children norm L Wn cut) →
  0 < lbH L Wn →
  ∃ ret st', solve rec L Wn N blocks z_ub cut st = Ok (ret, st') ∧
             BDInv L W l w t0 st'.
Proof.
  intros Hinv Hbs Hcut Hsum Hpos. destruct st as [z t].
  destruct top_lookup as (iL&iW&HiL&HiW&HpL&HpW).
  pose proof (bi_frame _ _ _ _ _ _ Hinv) as Hf. cbn [snd] in Hf.
  destruct (inv_write_reached z t 1 iL iW _ _ Hinv HpL HpW) as (t1&Ht1&Hinv1).
  pose proof (bi_frame _ _ _ _ _ _ Hinv1) as Hf1. cbn [snd] in Hf1.
  destruct (normBlocks_Ok t t1 blocks Hf Hf1 Hbs) as (blks&Hblks&Hsl).
  unfold solve. rewrite Hblks. cbn [mbind result_bind].
  destruct Hf as (_&_&HN&_&_&HiX&HiY&_).
  rewrite bool_decide_eq_false_2 by (rewrite HN, (io_depthN _ _ _ _ _ _ Hinit); lia).
  rewrite HiX, HiY, (rdm_Some _ _ _ HiL), (rdm_Some _ _ _ HiW).
  cbn [mbind result_bind]. rewrite Ht1. cbn [mbind result_bind].
  rewrite Hsl. cbn [mbind result_bind]. rewrite Hsum.
  pose proof (bi_lower _ _ _ _ _ _ Hinv) as Hlo. cbn [fst] in Hlo.
  case_bool_decide as Hgt; [|by exists false, (z, t1)].
  destruct cut as [[[x1 x2] y1] y2].
  destruct (inv_store_cut z t1 (sumLBH l w (children norm L Wn (x1, x2, y1, y2)))
              x1 x2 y1 y2 Hinv1 Hcut Hpos ltac:(lia) eq_refl) as (t2&Ht2&Hinv2).
  rewrite Ht2. cbn [mbind result_bind].
  case_bool_decide as Hopt; [|by eexists false, (_, t2)].
  destruct (inv_write_depth _ t2 (-1) iL iW _ _ Hinv2 HpL HpW) as (t3&Ht3&Hinv3).
  rewrite Ht3. cbn [mbind result_bind].
  destruct (inv_write_reached _ t3 0 iL iW _ _ Hinv3 HpL HpW) as (t4&Ht4&Hinv4).
  rewrite Ht4. cbn [mbind result_bind]. by eexists true, (_, t4).
Qed.

Lemma RX_range x : RX L l w norm x → 0 <= x <= L ∧ nm x = x.
Proof. intros [[Hr Hx] _]%RX_InX. split; [done|]. by apply c_fix. Qed.

Lemma RY_range y : RY L W l w norm y → 0 <= y <= Wn ∧ nm y = y.
Proof.
  intros ([Hr Hy]&_&HW')%RY_InX. split; [lia|]. by apply c_fix.
Qed.

(** The difference of two raster points of a side normalises to a raster
    point. *)
Lemma RX_diff x1 x2 :
  RX L l w norm x1 → RX L l w norm x2 → x1 <= x2 → RX L l w norm (nm (x2 - x1)).
Proof.
  intros [H1 _]%RX_InX (p&Hp&->) Hle.
  destruct (nm_raster_sub L l w X norm ltac:(lia) HX Hnorm L p x1
              ltac:(lia) Hp ltac:(destruct Hp; lia) H1 Hle) as (->&Hq&HqL).
  by apply RX_intro.
Qed.

Lemma RY_diff y1 y2 :
  RY L W l w norm y1 → RY L W l w norm y2 → y1 <= y2 → RY L W l w norm (nm (y2 - y1)).
Proof.
  intros (H1&_&_)%RY_InX (p&Hp&HpW&->) Hle.
  destruct (nm_raster_sub L l w X norm ltac:(lia) HX Hnorm W p y1
              ltac:(lia) Hp HpW H1 Hle) as (->&Hq&HqW).
  by apply RY_intro.
Qed.

Ltac block_cases H :=
  rewrite ?elem_of_cons, elem_of_nil in H;
  repeat (destruct H as [H|H]); [..|done]; injection H as -> ->.

Ltac child_cases H :=
  cbn [children] in H; rewrite ?elem_of_cons, elem_of_nil in H;
  repeat (destruct H as [H|H]); [..|done]; injection H as -> -> -> ->.

(** The blocks of a first order non-guillotine cut. *)
Lemma five_good x1 x2 y1 y2 :
  RX L l w norm x1 → RX L l w norm x2 → RY L W l w norm y1 → RY L W l w norm y2 →
  0 < x1 → x1 < x2 → x1 + x2 <= L → 0 < y1 → y1 < y2 → y2 < Wn →
  (∀ a b, (a, b) ∈ [(x1, Wn - y1); (L - x1, Wn - y2); (x2 - x1, y2 - y1);
                     (x2, y1); (L - x2, y2)] →
     0 <= a <= L ∧ 0 <= b <= L ∧ RX L l w norm (nm a) ∧ RY L W l w norm (nm b)) ∧
  GoodCut L W l w norm (x1, x2, y1, y2) ∧
  sumList (λ '(a, b), lbH (nm a) (nm b))
    [(x1, Wn - y1); (L - x1, Wn - y2); (x2 - x1, y2 - y1); (x2, y1); (L - x2, y2)]
  = sumLBH l w (children norm L Wn (x1, x2, y1, y2)).
Proof.
  intros Hx1 Hx2 Hy1 Hy2 ? ? ? ? ? ?. pose proof Wn_range.
  destruct (RX_range _ Hx1) as [? Ex1]. destruct (RX_range _ Hx2) as [? Ex2].
  destruct (RY_range _ Hy1) as [? Ey1]. destruct (RY_range _ Hy2) as [? Ey2].
  destruct (RX_InX _ Hx1) as [Ix1 _]. destruct (RX_InX _ Hx2) as [Ix2 _].
  destruct (RY_InX _ Hy1) as [Iy1 _]. destruct (RY_InX _ Hy2) as [Iy2 _].
  pose proof (c_range (L - x1) ltac:(lia)). pose proof (c_range (L - x2) ltac:(lia)).
  pose proof (c_range (Wn - y1) ltac:(lia)). pose proof (c_range (Wn - y2) ltac:(lia)).
  pose proof (c_range (x2 - x1) ltac:(lia)). pose proof (c_range (y2 - y1) ltac:(lia)).
  assert (RX L l w norm (nm (L - x1))) by (by apply RX_intro).
  assert (RX L l w norm (nm (L - x2))) by (by apply RX_intro).
  assert (RY L W l w norm (nm (Wn - y1))) by (apply RY_sub; (done || lia)).
  assert (RY L W l w norm (nm (Wn - y2))) by (apply RY_sub; (done || lia)).
  assert (RX L l w norm (nm (x2 - x1))) by (apply RX_diff; (done || lia)).
  assert (RY L W l w norm (nm (y2 - y1))) by (apply RY_diff; (done || lia)).
  split; [|split].
  - intros a b Hin. block_cases Hin; rewrite ?Ex1, ?Ex2, ?Ey1, ?Ey2;
      (split; [lia|]); (split; [lia|]); done.
  - split; [lia|]. intros a b dx dy Hin _ _. child_cases Hin;
      (split; [done|]); (split; [done|]); lia.
  - unfold sumLBH. cbn [children sumList foldr]. by rewrite Ex1, Ex2, Ey1, Ey2.
Qed.

(** The blocks of a vertical guillotine cut. *)
Lemma vert_good x1 :
  RX L l w norm x1 → 0 < x1 → 2 * x1 <= L → 0 < Wn →
  (∀ a b, (a, b) ∈ [(x1, Wn - 0); (L - x1, Wn - 0)] →
     0 <= a <= L ∧ 0 <= b <= L ∧ RX L l w norm (nm a) ∧ RY L W l w norm (nm b)) ∧
  GoodCut L W l w norm (x1, x1, 0, 0) ∧
  sumList (λ '(a, b), lbH (nm a) (nm b)) [(x1, Wn - 0); (L - x1, Wn - 0)]
  = sumLBH l w (children norm L Wn (x1, x1, 0, 0)).
Proof.
  intros Hx1 ? ? ?. pose proof Wn_range.
  destruct (RX_range _ Hx1) as [? Ex1]. destruct (RX_InX _ Hx1) as [Ix1 _].
  pose proof (c_range (L - x1) ltac:(lia)).
  assert (nm 0 = 0) as E0 by (apply c_fix, InX_0; lia).
  assert (RX L l w norm (nm (L - x1))) by (by apply RX_intro).
  assert (RY L W l w norm (nm (Wn - 0))) as HRW.
  { apply RY_sub; [apply InX_0|]; lia. }
  destruct (RY_range _ HRW) as [? EW].
  split; [|split].
  - intros a b Hin. block_cases Hin; rewrite ?Ex1;
      (split; [lia|]); (split; [lia|]); done.
  - split; [lia|]. intros a b dx dy Hin Ha Hb.
    child_cases Hin; rewrite ?Z.sub_diag, ?E0 in *; try done;
      (split; [done|]); (split; [done|]); lia.
  - unfold sumLBH. cbn [children sumList foldr].
    rewrite Ex1, !Z.sub_diag, E0, ?homValue_0_r, ?homValue_0_l by done. lia.
Qed.

(** The blocks of a horizontal guillotine cut. *)
Lemma horiz_good y1 :
  RY L W l w norm y1 → 0 < y1 → 2 * y1 <= Wn →
  (∀ a b, (a, b) ∈ [(L - 0, Wn - y1); (L - 0, y1)] →
     0 <= a <= L ∧ 0 <= b <= L ∧ RX L l w norm (nm a) ∧ RY L W l w norm (nm b)) ∧
  GoodCut L W l w norm (0, 0, y1, y1) ∧
  sumList (λ '(a, b), lbH (nm a) (nm b)) [(L - 0, Wn - y1); (L - 0, y1)]
  = sumLBH l w (children norm L Wn (0, 0, y1, y1)).
Proof.
  intros Hy1 ? ?. pose proof Wn_range.
  destruct (RY_range _ Hy1) as [? Ey1]. destruct (RY_InX _ Hy1) as [Iy1 _].
  pose proof (c_range (Wn - y1) ltac:(lia)).
  assert (nm 0 = 0) as E0 by (apply c_fix, InX_0; lia).
  assert (RY L W l w norm (nm (Wn - y1))) by (apply RY_sub; (done || lia)).
  assert (RX L l w norm (nm (L - 0))) as HRL.
  { apply RX_intro, InX_0. lia. }
  destruct (RX_range _ HRL) as [? EL].
  split; [|split].
  - intros a b Hin. block_cases Hin; rewrite ?Ey1;
      (split; [lia|]); (split; [lia|]); done.
  - split; [lia|]. intros a b dx dy Hin Ha Hb.
    child_cases Hin; rewrite ?Z.sub_diag, ?E0 in *; try done;
      (split; [done|]); (split; [done|]); lia.
  - unfold sumLBH. cbn [children sumList foldr].
    rewrite Ey1, !Z.sub_diag, E0, ?homValue_0_l, ?homValue_0_r by done. lia.
Qed.

Lemma points_InX p : p ∈ points → p <= L → InX L l w p.
Proof.
  intros [->|[Hp|Hp]]%(io_points _ _ _ _ _ _ Hinit) HpL; [lia| |].
  - by apply RX_InX.
  - by apply RY_InX.
Qed.

Lemma drop1_pos (r : list Z) :
  asc r → (∀ x, x ∈ r → 0 <= x) →
  asc (drop 1 r) ∧ ∀ x, x ∈ drop 1 r → x ∈ r ∧ 0 < x.
Proof.
  intros Hasc Hpos. destruct r as [|h tl]; [by split; [|intros ? ?%elem_of_nil]|].
  cbn [drop]. apply asc_cons_inv in Hasc as [Htl Hlt]. split; [done|].
  intros x Hx. split; [by right|]. pose proof (Hpos h ltac:(by left)).
  pose proof (Hlt x Hx). lia.
Qed.

(** The raster points that BD computes for the pallet. *)
Lemma raster_BD :
  ∃ rx ry, constructRasterPoints norm L Wn points = Ok (rx, ry) ∧
    asc (drop 1 rx) ∧ asc (drop 1 ry) ∧
    (∀ x, x ∈ drop 1 rx → RX L l w norm x ∧ 0 < x) ∧
    (∀ y, y ∈ drop 1 ry → RY L W l w norm y ∧ 0 < y).
Proof.
  pose proof Wn_range.
  assert (∀ p, p ∈ points → 0 <= p) as Hpos.
  { intros p [->|[Hp|Hp]]%(io_points _ _ _ _ _ _ Hinit); [lia| |].
    - destruct (RX_range _ Hp). lia.
    - destruct (RY_range _ Hp). lia. }
  assert (0 ∈ points) as H0.
  { apply (io_points _ _ _ _ _ _ Hinit). right. left. exists L.
    split; [apply InX_L; lia|]. rewrite Z.sub_diag. symmetry.
    apply c_fix, InX_0. lia. }
  unfold constructRasterPoints.
  destruct (rasterLoop_side L l w X norm ltac:(lia) HX (io_len _ _ _ _ _ _ Hinit) Hnorm
              L points ltac:(lia) (io_asc _ _ _ _ _ _ Hinit) Hpos H0)
    as (rx&->&Hascx&Hrx&_).
  destruct (rasterLoop_side L l w X norm ltac:(lia) HX (io_len _ _ _ _ _ _ Hinit) Hnorm
              Wn points ltac:(lia) (io_asc _ _ _ _ _ _ Hinit) Hpos H0)
    as (ry&->&Hascy&Hry&_).
  cbn [mbind result_bind]. exists rx, ry. split; [done|].
  assert (∀ x, x ∈ rx → RX L l w norm x) as HRx.
  { intros x (p&Hp&HpL&->)%Hrx. apply RX_intro. by apply points_InX. }
  assert (∀ y, y ∈ ry → RY L W l w norm y) as HRy.
  { intros y (p&Hp&HpW&->)%Hry. apply RY_sub; [|done]. apply points_InX; [done|lia]. }
  destruct (drop1_pos rx Hascx) as [? Hdx].
  { intros x Hx. destruct (RX_range _ (HRx x Hx)). lia. }
  destruct (drop1_pos ry Hascy) as [? Hdy].
  { intros y Hy. destruct (RY_range _ (HRy y Hy)). lia. }
  repeat split; try done.
  - apply HRx. by apply Hdx.
  - by apply Hdx.
  - apply HRy. by apply Hdy.
  - by apply Hdy.
Qed.

(** BD at the depth limit returns, and leaves the bounds as they were. *)
Lemma BD_cap fuel :
  ∃ z t', BD (S fuel) t0 L Wn N = Ok (z, t') ∧ BDInv L W l w t0 (z, t').
Proof.
  pose proof Wn_range as HWn.
  destruct top_lookup as (iL&iW&HiL&HiW&HpL&HpW).
  cbn [BD]. unfold BD_body.
  rewrite bool_decide_eq_false_2 by lia.
  rewrite (rdm_Some _ _ _ HiL), (rdm_Some _ _ _ HiW). cbn [mbind result_bind].
  rewrite (lowerBound_cell _ _ _ _ HpL HpW). cbn [mbind result_bind].
  assert (∃ z_ub, localUpperBound t0 (Z.of_nat iL) (Z.of_nat iW) = Ok z_ub) as [z_ub ->].
  { unfold localUpperBound. rewrite (depth_cell _ _ _ _ HpL HpW).
    cbn [mbind result_bind]. case_bool_decide.
    - rewrite (lowerBound_cell _ _ _ _ HpL HpW). by eexists.
    - rewrite (upper_cell _ _ _ _ HpL HpW). by eexists. }
  cbn [mbind result_bind].
  pose proof BDInv_init as Hinv0.
  case_bool_decide as Hdone.
  { destruct (inv_write_depth _ t0 (-1) iL iW _ _ Hinv0 HpL HpW) as (t1&->&Hinv1).
    cbn [mbind result_bind].
    destruct (inv_write_reached _ t1 0 iL iW _ _ Hinv1 HpL HpW) as (t2&->&Hinv2).
    cbn [mbind result_bind]. by eexists _, _. }
  assert (0 < lbH L Wn) as Hpos.
  { pose proof (homValue_nonneg l w Hl Hw L Wn ltac:(lia) ltac:(lia)). lia. }
  assert (0 < Wn) as HWpos.
  { destruct (decide (Wn = 0)) as [E|]; [|lia]. rewrite E in Hpos.
    rewrite homValue_0_r in Hpos by done. lia. }
  destruct raster_BD as (rx&ry&->&Hax&Hay&HRx&HRy). cbn [mbind result_bind].
  destruct (inv_write_reached _ t0 0 iL iW _ _ Hinv0 HpL HpW) as (t1&->&Hinv1).
  cbn [mbind result_bind].
  (* first order non-guillotine cuts *)
  match goal with |- context [scan ?c ?b (drop 1 rx) (lbH L Wn, t1)] =>
    destruct (scan_inv (BDInv L W l w t0) c b (drop 1 rx) (lbH L Wn, t1) Hax)
      as (solved&st&->&Hinv2); [|done|] end.
  { intros x1 afterX1 s1 Hx1 HaX1 HafterX1 Hc1 Hs1.
    apply bool_decide_eq_true_1 in Hc1. rewrite cdiv_eq in Hc1 by lia.
    destruct (HRx x1 Hx1) as [HRx1 Hx1pos].
    apply scan_inv; [done| |done].
    intros x2 _ s2 Hx2 _ _ Hc2 Hs2. apply bool_decide_eq_true_1 in Hc2.
    destruct (HafterX1 x2 Hx2) as [Hx2' Hlt12]. destruct (HRx x2 Hx2') as [HRx2 _].
    apply scan_inv; [done| |done].
    intros y1 afterY1 s3 Hy1 HaY1 HafterY1 Hc3 Hs3. apply bool_decide_eq_true_1 in Hc3.
    destruct (HRy y1 Hy1) as [HRy1 Hy1pos].
    apply scan_inv; [done| |done].
    intros y2 _ s4 Hy2 _ _ Hc4 Hs4. apply andb_true_iff in Hc4 as [Hc4 _].
    apply bool_decide_eq_true_1 in Hc4.
    destruct (HafterY1 y2 Hy2) as [Hy2' Hlt34]. destruct (HRy y2 Hy2') as [HRy2 _].
    destruct (five_good x1 x2 y1 y2) as (Hbs&Hcut&Hsum); try (done || lia).
    by apply solve_cap. }
  cbn [mbind result_bind]. destruct solved; [destruct st; by eexists _, _|].
  (* vertical guillotine cuts *)
  match goal with |- context [scan ?c ?b (drop 1 rx) st] =>
    destruct (scan_inv (BDInv L W l w t0) c b (drop 1 rx) st Hax)
      as (solved&st'&->&Hinv3); [|done|] end.
  { intros x1 _ s1 Hx1 _ _ Hc1 Hs1.
    apply bool_decide_eq_true_1 in Hc1. rewrite cdiv_eq in Hc1 by lia.
    destruct (HRx x1 Hx1) as [HRx1 Hx1pos].
    assert (2 * x1 <= L).
    { pose proof (Z.mul_div_le L 2 ltac:(lia)). lia. }
    destruct (vert_good x1) as (Hbs&Hcut&Hsum); try (done || lia).
    by apply solve_cap. }
  cbn [mbind result_bind]. destruct solved; [destruct st'; by eexists _, _|].
  (* horizontal guillotine cuts *)
  match goal with |- context [scan ?c ?b (drop 1 ry) st'] =>
    destruct (scan_inv (BDInv L W l w t0) c b (drop 1 ry) st' Hay)
      as (solved&st''&->&Hinv4); [|done|] end.
  { intros y1 _ s1 Hy1 _ _ Hc1 Hs1.
    apply bool_decide_eq_true_1 in Hc1. rewrite cdiv_eq in Hc1 by lia.
    destruct (HRy y1 Hy1) as [HRy1 Hy1pos].
    assert (2 * y1 <= Wn).
    { pose proof (Z.mul_div_le Wn 2 ltac:(lia)). lia. }
    destruct (horiz_good y1) as (Hbs&Hcut&Hsum); try (done || lia).
    by apply solve_cap. }
  cbn [mbind result_bind]. destruct st''. by eexists _, _.
Qed.

(** ** The blocks of the stored cut *)

Lemma children_geometry cut a b dx dy :
  GoodCut L W l w norm cut → (a, b, dx, dy) ∈ children norm L Wn cut →
  0 <= a ∧ 0 <= b ∧ 0 <= dx ∧ dx + a <= L ∧ 0 <= dy ∧ dy + b <= Wn.
Proof.
  destruct cut as [[[x1 x2] y1] y2]. intros [Hr _] Hin. pose proof Wn_range.
  pose proof (c_range (L - x1) ltac:(lia)). pose proof (c_range (L - x2) ltac:(lia)).
  pose proof (c_range (Wn - y1) ltac:(lia)). pose proof (c_range (Wn - y2) ltac:(lia)).
  pose proof (c_range (x2 - x1) ltac:(lia)). pose proof (c_range (y2 - y1) ltac:(lia)).
  child_cases Hin; lia.
Qed.

Lemma children_apart cut :
  GoodCut L W l w norm cut → pairwiseApart (regionOf <$> children norm L Wn cut).
Proof.
  destruct cut as [[[x1 x2] y1] y2]. intros [Hr _]. pose proof Wn_range.
  pose proof (c_range (L - x1) ltac:(lia)). pose proof (c_range (L - x2) ltac:(lia)).
  pose proof (c_range (Wn - y1) ltac:(lia)). pose proof (c_range (Wn - y2) ltac:(lia)).
  pose proof (c_range (x2 - x1) ltac:(lia)). pose proof (c_range (y2 - y1) ltac:(lia)).
  cbn [children fmap list_fmap regionOf].
  repeat (apply pairwiseApart_cons_intro;
          [intros r Hr'; rewrite ?elem_of_cons, elem_of_nil in Hr';
           repeat (destruct Hr' as [Hr'|Hr']); try done; subst r; cbn; lia|]).
  apply pairwiseApart_nil.
Qed.

(** The homogeneous packings of the blocks of a good cut make a packing of
    the pallet. *)
Lemma cut_packing cut :
  GoodCut L W l w norm cut →
  Packing L Wn l w (blockBoxes l w (children norm L Wn cut)) ∧
  Z.of_nat (length (blockBoxes l w (children norm L Wn cut)))
  = sumLBH l w (children norm L Wn cut).
Proof.
  intros Hcut.
  destruct (blockBoxes_packing l w (children norm L Wn cut) Hl Hw) as [Hap Hlen].
  { intros a b dx dy Hin. destruct (children_geometry _ _ _ _ _ Hcut Hin) as (?&?&_).
    done. }
  { by apply children_apart. }
  split; [|done]. split; [|done].
  intros box (a&b&dx&dy&Hin&Hbox)%elem_of_blockBoxes.
  destruct (children_geometry _ _ _ _ _ Hcut Hin) as (?&?&?&?&?&?).
  destruct (homBoxes_packing l w a b dx dy Hl Hw) as [[Hb _] _]; [done|done|].
  destruct (Hb box Hbox) as [? Hr]. split; [done|].
  destruct box as [[[x0 y0] x1] y1]. cbn in Hr |- *. lia.
Qed.

Lemma homBoxes_nil a b dx dy :
  0 <= a → 0 <= b → lbH a b = 0 → homBoxes l w a b dx dy = [].
Proof.
  intros Ha Hb H0. destruct (homBoxes_packing l w a b dx dy Hl Hw Ha Hb) as [_ Hlen].
  apply nil_length_inv. lia.
Qed.

(** ** solve_BD after initialize *)

Lemma solve_BD_tail :
  ∃ z t1 t iL iW,
    BD (S (Z.to_nat (L * Wn))) t0 L Wn N = Ok (z, t1) ∧
    BDInv L W l w t0 (z, t1) ∧
    rdm (indexX t1) L = Ok iL ∧ rdm (indexY t1) Wn = Ok iW ∧
    rd2 (lowerBound t1) iL iW = Ok (lbH L Wn) ∧
    write_lowerBound iL iW z t1 = Ok t ∧
    (L_n ← rd norm L; W_n ← rd norm W;
     '(solution, t) ← BD (S (Z.to_nat (L_n * W_n))) t0 L_n W_n N;
     iL ← rdm (indexX t) L_n; iW ← rdm (indexY t) W_n;
     t ← write_lowerBound iL iW solution t; Ok (solution, t)) = Ok (z, t).
Proof.
  pose proof Wn_range.
  destruct (BD_cap (Z.to_nat (L * Wn))) as (z&t1&HBD&Hinv).
  destruct top_lookup as (iL&iW&HiL&HiW&HpL&HpW).
  destruct (bi_frame _ _ _ _ _ _ Hinv) as (_&_&_&_&_&HiX&HiY&_&Hlb). cbn [snd] in *.
  destruct (wr2_defined (lowerBound t1) (lowerBound t0) (Z.of_nat iL) (Z.of_nat iW)
              z (lbH L Wn)) as (m&Hm&_).
  { by rewrite Hlb. } { by eapply lowerBound_cell. }
  exists z, t1, (set_lowerBound m t1), (Z.of_nat iL), (Z.of_nat iW).
  assert (nm L = L) as EL by (apply c_fix, InX_L; lia).
  rewrite !c_rd by lia. cbn [mbind result_bind]. rewrite EL, HBD.
  cbn [mbind result_bind]. rewrite HiX, HiY, (rdm_Some _ _ _ HiL), (rdm_Some _ _ _ HiW).
  cbn [mbind result_bind]. unfold write_lowerBound. rewrite Hm, Hlb.
  rewrite (lowerBound_cell _ _ _ _ HpL HpW). done.
Qed.

(** ** Drawing with the tables that BD leaves *)

Context (t : Tables).
Hypothesis Ht_norm : normalize t = normalize t0.
Hypothesis Ht_iX : indexX t = indexX t0.
Hypothesis Ht_iY : indexY t = indexY t0.
Hypothesis Ht_l : boxl t = l.
Hypothesis Ht_w : boxw t = w.

Import DrawBD.

(** A block other than the pallet is drawn as a homogeneous packing. *)
Lemma draw_unwritten fuel a b dx dy c :
  RX L l w norm a → RY L W l w norm b →
  (∀ i j : nat, points !! i = Some (Z.max a b) → ys !! j = Some (Z.min a b) →
     rd2 (cutPoints t) (Z.of_nat i) (Z.of_nat j) = Ok (mkCutPoint None 1)) →
  draw (S fuel) t a b dx dy c = putBoxes (homBoxes l w a b dx dy) c.
Proof.
  intros HRa HRb Hcell.
  destruct (RX_range _ HRa) as [Ha _]. destruct (RY_range _ HRb) as [Hb _].
  destruct (block_lookup a b HRa HRb) as (i&j&Hi&Hj&Hpi&Hpj).
  specialize (Hcell i j Hpi Hpj).
  cbn [draw]. case_bool_decide as Hab.
  - rewrite Z.max_l in Hi by lia. rewrite Z.min_r in Hj by lia.
    unfold drawNormal. rewrite Ht_iX, Ht_iY, (rdm_Some _ _ _ Hi), (rdm_Some _ _ _ Hj).
    cbn [mbind result_bind]. rewrite Hcell. cbn [mbind result_bind homogeneous].
    rewrite bool_decide_eq_true_2 by lia. rewrite Ht_l, Ht_w.
    apply drawHomogeneous_puts; lia.
  - rewrite Z.max_r in Hi by lia. rewrite Z.min_l in Hj by lia.
    unfold drawRotation. rewrite Ht_iX, Ht_iY, (rdm_Some _ _ _ Hi), (rdm_Some _ _ _ Hj).
    cbn [mbind result_bind]. rewrite Hcell. cbn [mbind result_bind homogeneous].
    rewrite bool_decide_eq_true_2 by lia. rewrite Ht_l, Ht_w.
    apply drawHomogeneous_puts; lia.
Qed.

Lemma draw_child cut iL iW fuel a b dx dy c :
  indexX t0 !! L = Some iL → indexY t0 !! Wn = Some iW →
  wr2 (cutPoints t0) iL iW (mkCutPoint (Some cut) 0) = Ok (cutPoints t) →
  GoodCut L W l w norm cut →
  (a, b, dx, dy) ∈ children norm L Wn cut →
  (if drawable L Wn a b then draw (S fuel) t a b dx dy c else Ok c)
  = putBoxes (homBoxes l w a b dx dy) c.
Proof.
  intros HiL HiW Hwr Hcut Hin.
  destruct (children_geometry _ _ _ _ _ Hcut Hin) as (Ha&Hb&_).
  pose proof Wn_range.
  unfold drawable. destruct (decide (a = 0)) as [->|Ha0].
  { rewrite bool_decide_eq_false_2 by lia. cbn [andb].
    rewrite homBoxes_nil; [done|lia|lia|by apply homValue_0_l]. }
  destruct (decide (b = 0)) as [->|Hb0].
  { rewrite (bool_decide_eq_false_2 (0 ≠ 0)) by lia. rewrite andb_false_r. cbn [andb].
    rewrite homBoxes_nil; [done|lia|lia|by apply homValue_0_r]. }
  assert (RX L l w norm a ∧ RY L W l w norm b ∧ (a < L ∨ b < Wn)) as (HRa&HRb&Hlt).
  { destruct cut as [[[x1 x2] y1] y2]. destruct Hcut as [_ Hc]. by eapply Hc. }
  destruct (RX_range _ HRa) as [HaL _]. destruct (RY_range _ HRb) as [HbW _].
  rewrite !bool_decide_eq_true_2 by done.
  rewrite bool_decide_eq_false_2 by lia. cbn [andb negb].
  apply draw_unwritten; [done|done|].
  intros i j Hpi Hpj.
  destruct top_lookup as (iL'&iW'&HiL'&HiW'&HpL&HpW).
  assert (iL = Z.of_nat iL') as -> by congruence.
  assert (iW = Z.of_nat iW') as -> by congruence.
  rewrite (wr2_rd2_ne _ _ _ _ _ _ _ Hwr) by
    (try lia; intros [= Ei Ej]; apply Nat2Z.inj in Ei, Ej; subst;
     rewrite Hpi in HpL; rewrite Hpj in HpW; injection HpL as ?; injection HpW as ?; lia).
  by eapply cut_cell.
Qed.

Lemma draw_blocks cut iL iW fuel blocks c :
  indexX t0 !! L = Some iL → indexY t0 !! Wn = Some iW →
  wr2 (cutPoints t0) iL iW (mkCutPoint (Some cut) 0) = Ok (cutPoints t) →
  GoodCut L W l w norm cut →
  (∀ blk, blk ∈ blocks → blk ∈ children norm L Wn cut) →
  drawBlocks (draw (S fuel) t) L Wn blocks c = putBoxes (blockBoxes l w blocks) c.
Proof.
  intros HiL HiW Hwr Hcut.
  revert c. induction blocks as [|[[[a b] dx] dy] blocks IH]; intros c Hsub; [done|].
  cbn [drawBlocks].
  rewrite (draw_child cut iL iW) by (done || (apply Hsub; by left)).
  unfold blockBoxes. rewrite bind_cons, putBoxes_app.
  destruct (putBoxes (homBoxes l w a b dx dy) c); cbn [mbind result_bind]; try done.
  apply IH. intros blk Hblk. apply Hsub. by right.
Qed.

(** The pallet with a stored cut is drawn block by block. *)
Lemma draw_cut cut iL iW fuel c :
  indexX t0 !! L = Some iL → indexY t0 !! Wn = Some iW →
  wr2 (cutPoints t0) iL iW (mkCutPoint (Some cut) 0) = Ok (cutPoints t) →
  GoodCut L W l w norm cut →
  draw (S (S fuel)) t L Wn 0 0 c
  = putBoxes (blockBoxes l w (children norm L Wn cut)) c.
Proof.
  intros HiL HiW Hwr Hcut. pose proof Wn_range.
  rewrite <- (draw_blocks cut iL iW fuel (children norm L Wn cut) c) by done.
  cbn [draw]. rewrite bool_decide_eq_true_2 by lia.
  unfold drawNormal. rewrite Ht_iX, Ht_iY, (rdm_Some _ _ _ HiL), (rdm_Some _ _ _ HiW).
  cbn [mbind result_bind]. rewrite (wr2_rd2_eq _ _ _ _ _ Hwr).
  cbn [mbind result_bind homogeneous]. rewrite bool_decide_eq_false_2 by lia.
  destruct cut as [[[x1 x2] y1] y2]. destruct Hcut as [Hr _].
  unfold getSubproblems. cbn [coords]. rewrite Ht_norm.
  rewrite !c_rd by lia. cbn [mbind result_bind]. done.
Qed.

(** The boxes that the reconstruction draws make a packing of the pallet
    with as many boxes as BD counted. *)
Lemma draw_top z fuel :
  ((z = lbH L Wn ∧ cutPoints t = cutPoints t0) ∨
   (∃ cut iL iW,
      indexX t0 !! L = Some iL ∧ indexY t0 !! Wn = Some iW ∧
      wr2 (cutPoints t0) iL iW (mkCutPoint (Some cut) 0) = Ok (cutPoints t) ∧
      GoodCut L W l w norm cut ∧ 0 < lbH L Wn ∧
      z = sumLBH l w (children norm L Wn cut))) →
  Z.to_nat (L * Wn) = fuel →
  ∃ bs, (∀ c, draw (S fuel) t L Wn 0 0 c = putBoxes bs c) ∧
        Packing L Wn l w bs ∧ Z.of_nat (length bs) = z.
Proof.
  pose proof Wn_range. intros [[-> Hc]|(cut&iL&iW&HiL&HiW&Hwr&Hcut&Hpos&->)] Hfuel.
  - exists (homBoxes l w L Wn 0 0).
    destruct (homBoxes_packing l w L Wn 0 0 Hl Hw) as [Hp Hlen]; [lia|lia|].
    split; [|done]. intros c. apply draw_unwritten; [apply RX_L|apply RY_Wn|].
    intros i j Hpi Hpj. rewrite Hc. by eapply cut_cell.
  - exists (blockBoxes l w (children norm L Wn cut)).
    destruct (cut_packing cut Hcut) as [Hp Hlen].
    split; [|done]. intros c.
    assert (0 < Wn).
    { destruct (decide (Wn = 0)) as [E|]; [|lia]. rewrite E in Hpos.
      rewrite homValue_0_r in Hpos by done. lia. }
    destruct fuel as [|fuel]; [nia|]. by eapply draw_cut.
Qed.

End BDCap.

(** * Runs of solve_BD and of pack *)

Section Runs.
Import Sets Bounds FiveBlock DrawBD.

Lemma solve_BD_run L W l w N_max :
  0 < l → 0 < w → 0 < W → W <= L →
  L <= sideLimit → l <= sideLimit → w <= sideLimit →
  ∃ z t0 t1 t, SolveRun L W l w N_max z t0 t1 t.
Proof.
  intros Hl Hw HW HWL HLs Hls Hws.
  set (N := if bool_decide (N_max <= 0) then INFINITY_ else N_max).
  destruct (initialize_spec L W l w N Hl Hw HW HWL HLs Hls Hws) as (t0&Hinit&Hok).
  destruct (io_norm _ _ _ _ _ _ Hok) as (X&HX&Hnorm).
  destruct (solve_BD_tail L W l w N t0 X Hl Hw HW HWL Hok HX Hnorm)
    as (z&t1&t&iL&iW&HBD&Hinv&HiL&HiW&Hrd&Hwr&Hrun).
  exists z, t0, t1, t. split; try done.
  - by exists iL, iW.
  - unfold solve_BD. fold N. rewrite bool_decide_eq_false_2 by lia.
    rewrite Hinit. cbn [mbind result_bind]. exact Hrun.
Qed.

Lemma solve_BD_swap L W l w N_max :
  L < W → solve_BD L W l w N_max = solve_BD W L l w N_max.
Proof.
  intros Hlt. unfold solve_BD.
  rewrite bool_decide_eq_true_2, (bool_decide_eq_false_2 (L > W)) by lia. done.
Qed.

Lemma PackingAt_mono dx dy L W L' W' l w bs :
  L <= L' → W <= W' → PackingAt dx dy L W l w bs → PackingAt dx dy L' W' l w bs.
Proof.
  intros HL HW [Hbs Hap]. split; [|done]. intros b Hb. destruct (Hbs b Hb) as [? Hin].
  split; [done|]. destruct b as [[[x0 y0] x1] y1]. cbn in Hin |- *. lia.
Qed.

End Runs.

Section Output.
Import Sets Bounds FiveBlock DrawBD Pack.

Lemma jsonObject_box l w swap b :
  ∃ p, jsonObject l w swap (Some b) = Ok p ∧ box p = b.
Proof. destruct b as [[[r0 r1] r2] r3]. by eexists. Qed.

(** [MakeJsonString] turns the rows that hold boxes into placements of these
    boxes. *)
Lemma makeJson_boxes l w swap pre bs post :
  ∃ ps, makeJson l w swap (length bs) (Z.of_nat (length pre))
          (pre ++ (Some <$> bs) ++ post) = Ok ps ∧
        box <$> ps = bs ∧
        ∀ p, p ∈ ps → jsonObject l w swap (Some (box p)) = Ok p.
Proof.
  revert pre. induction bs as [|b bs IH]; intros pre.
  { exists []. split; [done|]. split; [done|]. by intros p ?%elem_of_nil. }
  cbn [length makeJson]. rewrite fmap_cons, <- app_comm_cons.
  assert (rd (pre ++ Some b :: (Some <$> bs) ++ post) (Z.of_nat (length pre))
          = Ok (Some b)) as ->.
  { apply rd_Ok. split; [lia|]. rewrite Nat2Z.id, lookup_app_r by lia.
    by rewrite Nat.sub_diag. }
  cbn [mbind result_bind]. destruct (jsonObject_box l w swap b) as (p&Hjs&Hp).
  rewrite Hjs. cbn [mbind result_bind].
  destruct (IH (pre ++ [Some b])) as (ps&Hps&Hbox&Hall).
  rewrite length_app in Hps. cbn [length] in Hps.
  replace (Z.of_nat (length pre + 1)) with (Z.of_nat (length pre) + 1) in Hps by lia.
  rewrite <- app_assoc in Hps. cbn [app] in Hps.
  exists (p :: ps). rewrite Hps. cbn [mbind result_bind]. split; [done|].
  split; [by rewrite fmap_cons, Hp, Hbox|].
  intros p' [->|Hp']%elem_of_cons; [by rewrite Hp|by apply Hall].
Qed.

(** The reconstruction after a run of solve_BD returns a packing of the
    pallet with as many placements as BD counted. *)
Lemma pack_after L W l w N_max z t0 t1 t swap :
  0 < l → 0 < w → 0 < W → W <= L →
  SolveRun L W l w N_max z t0 t1 t →
  ∃ ps, (L_n ← rd (normalize t) L; W_n ← rd (normalize t) W;
         result ← draw t (L_n, W_n, L_n, W_n) z l w swap;
         Ok (Released result)) = Ok (Released ps) ∧
        Packing L W l w (box <$> ps) ∧ Z.of_nat (length ps) = z ∧
        ∀ p, p ∈ ps → jsonObject l w swap (Some (box p)) = Ok p.
Proof.
  intros Hl Hw HW HWL [_ Hok _ Hinv (iL&iW&_&_&_&Hwr) _].
  destruct (io_norm _ _ _ _ _ _ Hok) as (X&HX&Hnorm).
  apply bind_Ok in Hwr as (m&_&[= <-]).
  destruct Hinv as [(Hfl&Hfw&_&Hfn&_&HfX&HfY&_) _ _ _ Hcut]. cbn [fst snd] in *.
  cbn [normalize set_lowerBound]. rewrite Hfn.
  pose proof (Wn_range L W l w t0 X HW HWL HX Hnorm) as HWn.
  assert (cell (normalize t0) L = L) as EL.
  { apply (c_fix L W l w t0 X HW HWL HX Hnorm), InX_L. lia. }
  rewrite !(c_rd L W l w _ t0 Hok) by lia. cbn [mbind result_bind]. rewrite EL.
  destruct (draw_top L W l w _ t0 X Hl Hw HW HWL Hok HX Hnorm (set_lowerBound m t1)
              Hfn HfX HfY) with (z := z) (fuel := Z.to_nat (L * cell (normalize t0) W))
    as (bs&Hdraw&Hpack&Hlen); try done.
  { cbn [boxl set_lowerBound]. rewrite Hfl. apply Hok. }
  { cbn [boxw set_lowerBound]. rewrite Hfw. apply Hok. }
  unfold draw, drawBD. rewrite Hdraw.
  assert (Z.to_nat z = length bs) as -> by lia.
  destruct (putBoxes_Filled bs (mkCanvas (replicate (length bs) None) 0) [])
    as (c'&->&[_ Hrows]&Hlen').
  { apply Filled_nil. }
  { cbn [ptoRet length]. rewrite length_replicate. lia. }
  cbn [mbind result_bind]. cbn [ptoRet app] in Hrows, Hlen'.
  rewrite length_replicate in Hlen'. rewrite take_ge in Hrows by lia.
  destruct (makeJson_boxes l w swap [] bs []) as (ps&Hps&Hbox&Hall).
  cbn [app length] in Hps. rewrite app_nil_r in Hps.
  rewrite Hrows. change (Z.of_nat 0) with 0 in Hps. rewrite Hps.
  cbn [mbind result_bind]. exists ps. split; [done|]. rewrite Hbox.
  split; [|split; [|done]].
  - unfold Packing in *.
    apply (PackingAt_mono 0 0 L (cell (normalize t0) W)); [lia|lia|done].
  - rewrite <- Hlen, <- Hbox. by rewrite length_fmap.
Qed.

(** [pack] on positive dimensions within [sideLimit]. *)
Lemma pack_run inL inW inl inw :
  0 < inL <= sideLimit → 0 < inW <= sideLimit →
  0 < inl <= sideLimit → 0 < inw <= sideLimit →
  ∃ z t0 t1 t ps,
    SolveRun (Z.max inL inW) (Z.min inL inW) inl inw 0 z t0 t1 t ∧
    pack inL inW inl inw = Ok (Released ps) ∧
    Packing (Z.max inL inW) (Z.min inL inW) inl inw (box <$> ps) ∧
    Z.of_nat (length ps) = z ∧
    ∀ p, p ∈ ps →
      jsonObject inl inw (bool_decide (inL < inW)) (Some (box p)) = Ok p.
Proof.
  intros HL HW Hl Hw.
  destruct (solve_BD_run (Z.max inL inW) (Z.min inL inW) inl inw 0)
    as (z&t0&t1&t&Hrun); try lia.
  exists z, t0, t1, t.
  assert (∀ swap, ∃ ps,
    ('(BD_solution, t) ← solve_BD (Z.max inL inW) (Z.min inL inW) inl inw 0;
     L_n ← rd (normalize t) (Z.max inL inW);
     W_n ← rd (normalize t) (Z.min inL inW);
     result ← draw t (L_n, W_n, L_n, W_n) BD_solution inl inw swap;
     Ok (Released result)) = Ok (Released ps) ∧
    Packing (Z.max inL inW) (Z.min inL inW) inl inw (box <$> ps) ∧
    Z.of_nat (length ps) = z ∧
    ∀ p, p ∈ ps → jsonObject inl inw swap (Some (box p)) = Ok p) as Hbody.
  { intros swap. rewrite (sr_result _ _ _ _ _ _ _ _ _ Hrun). cbn [mbind result_bind].
    apply (pack_after _ _ _ _ 0 z t0 t1); (done || lia). }
  unfold pack. rewrite bool_decide_eq_false_2 by lia. case_bool_decide as Hlt.
  - destruct (Hbody true) as (ps&Hps&?&?&?). exists ps.
    rewrite Z.max_r, Z.min_l in Hps by lia. by rewrite Hps.
  - destruct (Hbody false) as (ps&Hps&?&?&?). exists ps.
    rewrite Z.max_l, Z.min_r in Hps by lia. by rewrite Hps.
Qed.

End Output.

(** * The properties of solve_BD and of pack *)

Section EntryPoint.
Import Sets Bounds FiveBlock DrawBD Pack.

Lemma barnesValue_comm L W l w : barnesValue L W l w = barnesValue W L l w.
Proof.
  unfold barnesValue. rewrite (Z.mul_comm W L).
  rewrite (Z.mul_comm (cmod W l) (cmod L l)), (Z.mul_comm (l - cmod W l) (l - cmod L l)).
  rewrite (Z.mul_comm (cmod W w) (cmod L w)), (Z.mul_comm (w - cmod W w) (w - cmod L w)).
  done.
Qed.

Lemma homValue_floor L W l w :
  0 <= L → 0 <= W → 0 < l → 0 < w →
  homValue L W l w = Z.max ((L / l) * (W / w)) ((L / w) * (W / l)).
Proof. intros. unfold homValue. by rewrite !cdiv_eq. Qed.

(** Within [sideLimit] the count of solve_BD lies between the homogeneous
    bound and the bound of Barnes, for a pallet given with its longer side
    first. *)
Lemma solve_BD_bounds_ordered L W l w N_max :
  0 < l → 0 < w → 0 < W → W <= L →
  L <= sideLimit → l <= sideLimit → w <= sideLimit →
  ∃ n t, solve_BD L W l w N_max = Ok (n, t) ∧
         homValue L W l w <= n ∧ n <= barnesValue L W l w.
Proof.
  intros Hl Hw HW HWL HLs Hls Hws.
  destruct (solve_BD_run L W l w N_max Hl Hw HW HWL HLs Hls Hws) as (z&t0&t1&t&Hrun).
  exists z, t. split; [apply Hrun|].
  destruct (io_norm _ _ _ _ _ _ (sr_ok _ _ _ _ _ _ _ _ _ Hrun)) as (X&HX&Hnorm).
  split.
  - pose proof (bi_lower _ _ _ _ _ _ (sr_inv _ _ _ _ _ _ _ _ _ Hrun)) as Hlo.
    cbn [fst] in Hlo.
    rewrite <- (c_lbH L W l w t0 X Hl Hw HW HWL HX Hnorm L W) by lia.
    rewrite (c_fix L W l w t0 X HW HWL HX Hnorm L) by (apply InX_L; lia). done.
  - destruct (pack_after L W l w N_max z t0 t1 t false Hl Hw HW HWL Hrun)
      as (ps&_&Hpack&Hlen&_).
    rewrite <- Hlen, <- (length_fmap box). apply barnes_sound; (done || lia).
Qed.

(** A box with a side longer than both sides of the pallet is in no
    packing. *)
Lemma Packing_oversize L W l w bs :
  (l > L ∧ l > W) ∨ (w > L ∧ w > W) → Packing L W l w bs → bs = [].
Proof.
  intros Hbig [Hbs _]. destruct bs as [|b bs]; [done|exfalso].
  destruct (Hbs b ltac:(by left)) as [Hbox Hin].
  destruct b as [[[x0 y0] x1] y1]. cbn in Hbox, Hin. lia.
Qed.

Lemma apart_doubled a b : apart a b → apart (doubled a) (doubled b).
Proof.
  destruct a as [[[ax0 ay0] ax1] ay1], b as [[[bx0 by0] bx1] by1]. cbn. lia.
Qed.

Lemma apart_transposed a b : apart a b → apart (transposed a) (transposed b).
Proof.
  destruct a as [[[ax0 ay0] ax1] ay1], b as [[[bx0 by0] bx1] by1]. cbn. lia.
Qed.

(** A [float] holds every integer below [2^24]. *)
Lemma roundFloat_small z : Z.abs z < 2 ^ 24 → roundFloat z = z.
Proof. intros Hz. unfold roundFloat. by rewrite bool_decide_eq_true_2. Qed.

(** For a box within [sideLimit] the arithmetic of [MakeJsonString] is
    exact: the centre and the flag of the object describe the row of
    [ptoRet] it is made from, with the axes exchanged when the sides of the
    pallet were not. *)
Lemma placed_box L W l w swap b p :
  jsonObject l w swap (Some b) = Ok p → isBox l w b → inRect 0 0 L W b →
  0 < l → 0 < w → L <= sideLimit → W <= sideLimit →
  placed l w p = if swap then doubled b else doubled (transposed b).
Proof.
  destruct b as [[[r0 r1] r2] r3]. cbn [jsonObject isBox inRect].
  intros [= <-] Hbox Hin Hl Hw HL HW. unfold sideLimit in *.
  unfold placed. cbn [rotated x2 y2 doubled transposed].
  rewrite (roundFloat_small r0), (roundFloat_small r1),
    (roundFloat_small r2), (roundFloat_small r3) by lia.
  rewrite (roundFloat_small (r2 - r0)), (roundFloat_small (r3 - r1)) by lia.
  rewrite (roundFloat_small (r2 - r0 + 2 * r0)),
    (roundFloat_small (r3 - r1 + 2 * r1)) by lia.
  destruct swap; repeat case_bool_decide; f_equal; (try f_equal); (try f_equal); lia.
Qed.

End EntryPoint.

Section EntryPointClaims.
Import Sets Bounds FiveBlock DrawBD Pack.

(** C1 (as stated) fails: for the pallet 8 x 7 and the box 3 x 2, BD counts
    8 boxes and the text that [pack] builds has 8 placements, while the
    L-solver run of the spec on the same tables counts 9; [pack] makes no
    such run. *)
Lemma pack_skips_L_solver :
  ∃ r, solve_BD 8 7 3 2 0 = Ok r ∧
       r.1 = 8 ∧ solveL 20 r.2 8 7 = Ok 9 ∧
       ∃ ps, pack 8 7 3 2 = Ok (Released ps) ∧
             length ps = 8%nat ∧ Z.of_nat (length ps) ≠ Z.max 8 9.
Proof.
  compute_exists_as Hr. split; [reflexivity|].
  split; [vm_compute; reflexivity|].
  eexists. split; [vm_compute; reflexivity|]. vm_compute. split; [reflexivity|discriminate].
Qed.

(** C1 (amended): on positive dimensions of at most [sideLimit] = 16384,
    [pack] builds a text of placements whose number is the count of BD,
    that is, of [solve_BD] on the pallet with its longer side first and
    without a depth limit; what [pack] returns is the address of that text
    in a buffer that has been released. *)
Theorem pack_count inL inW inl inw :
  0 < inL <= sideLimit → 0 < inW <= sideLimit →
  0 < inl <= sideLimit → 0 < inw <= sideLimit →
  ∃ ps n t,
    pack inL inW inl inw = Ok (Released ps) ∧
    solve_BD (Z.max inL inW) (Z.min inL inW) inl inw 0 = Ok (n, t) ∧
    Z.of_nat (length ps) = n.
Proof.
  intros HL HW Hl Hw.
  destruct (pack_run inL inW inl inw HL HW Hl Hw) as (z&t0&t1&t&ps&Hrun&Hp&_&Hlen&_).
  exists ps, z, t. split; [done|]. split; [apply Hrun|done].
Qed.

Lemma pack_count_witness :
  ∃ ps n t,
    pack 8 7 3 2 = Ok (Released ps) ∧
    solve_BD (Z.max 8 7) (Z.min 8 7) 3 2 0 = Ok (n, t) ∧
    Z.of_nat (length ps) = n.
Proof. apply (pack_count 8 7 3 2); unfold sideLimit; lia. Defined.

(** C2: on positive dimensions of at most [sideLimit] = 16384, any two
    placements of the text that [pack] builds, and whose address it returns,
    have disjoint interiors, both as the rows of [ptoRet] they are made from
    and as the rectangles that the centres, computed in [float], and the
    flags describe. *)
Theorem pack_no_overlap inL inW inl inw :
  0 < inL <= sideLimit → 0 < inW <= sideLimit →
  0 < inl <= sideLimit → 0 < inw <= sideLimit →
  ∃ ps, pack inL inW inl inw = Ok (Released ps) ∧
        ∀ (i j : nat) p q, i ≠ j → ps !! i = Some p → ps !! j = Some q →
          apart (box p) (box q) ∧ apart (placed inl inw p) (placed inl inw q).
Proof.
  intros HL HW Hl Hw.
  destruct (pack_run inL inW inl inw HL HW Hl Hw)
    as (z&t0&t1&t&ps&_&Hp&[Hbs Hap]&_&Hjs).
  exists ps. split; [done|]. intros i j p q Hij Hi Hj.
  assert (apart (box p) (box q)) as Hpq.
  { apply (Hap i j); [done| |]; rewrite list_lookup_fmap; [by rewrite Hi|by rewrite Hj]. }
  split; [done|].
  assert (p ∈ ps) as Hpin by (by eapply list_elem_of_lookup_2).
  assert (q ∈ ps) as Hqin by (by eapply list_elem_of_lookup_2).
  assert (∀ r, r ∈ ps →
            placed inl inw r = if bool_decide (inL < inW) then doubled (box r)
                               else doubled (transposed (box r))) as Hplaced.
  { intros r Hr. destruct (Hbs (box r)) as [Hbox Hin].
    { apply list_elem_of_fmap. by exists r. }
    apply (placed_box (Z.max inL inW) (Z.min inL inW) _ _ _ _ _ (Hjs r Hr));
      (done || lia). }
  rewrite (Hplaced p Hpin), (Hplaced q Hqin).
  destruct (bool_decide (inL < inW)).
  - by apply apart_doubled.
  - by apply apart_doubled, apart_transposed.
Qed.

Lemma pack_no_overlap_witness :
  ∃ ps, pack 8 7 3 2 = Ok (Released ps) ∧
        ∀ (i j : nat) p q, i ≠ j → ps !! i = Some p → ps !! j = Some q →
          apart (box p) (box q) ∧ apart (placed 3 2 p) (placed 3 2 q).
Proof. apply (pack_no_overlap 8 7 3 2); unfold sideLimit; lia. Defined.

(** C3 (as stated) fails: for the pallet 1 x 1 and the box 2 x 2, whose side
    is longer than both sides of the pallet, [pack] builds the empty text
    and does not return the null pointer, its one signal of invalid
    dimensions. *)
Lemma pack_oversize_no_error :
  (2 > 1 ∧ 2 > 1) ∧ pack 1 1 2 2 = Ok (Released []) ∧ pack 1 1 2 2 ≠ Ok NullPtr.
Proof. split; [lia|]. split; [vm_compute; reflexivity|vm_compute; discriminate]. Qed.

(** C3 (amended): when a dimension is not positive, [pack] returns the null
    pointer and builds no text; when the dimensions are positive and at most
    [sideLimit] = 16384 and a side of the box is longer than both sides of
    the pallet, [pack] builds the empty text, returns its address in a
    released buffer and signals nothing. *)
Theorem pack_invalid inL inW inl inw :
  (inL <= 0 ∨ inW <= 0 ∨ inl <= 0 ∨ inw <= 0) ∨
  ((inl > inL ∧ inl > inW) ∨ (inw > inL ∧ inw > inW)) ∧
  inL <= sideLimit ∧ inW <= sideLimit ∧ inl <= sideLimit ∧ inw <= sideLimit →
  pack inL inW inl inw =
  if bool_decide (inL <= 0 ∨ inW <= 0 ∨ inl <= 0 ∨ inw <= 0)
  then Ok NullPtr else Ok (Released []).
Proof.
  intros Hbad. case_bool_decide as Hneg.
  - unfold pack. by rewrite bool_decide_eq_true_2.
  - destruct Hbad as [?|(Hbig&?&?&?&?)]; [done|].
    destruct (pack_run inL inW inl inw) as (z&t0&t1&t&ps&_&Hp&Hpack&_); try lia.
    apply Packing_oversize in Hpack; [|lia].
    apply fmap_nil_inv in Hpack. by rewrite Hp, Hpack.
Qed.

Lemma pack_invalid_witness :
  ((1 <= 0 ∨ 1 <= 0 ∨ 2 <= 0 ∨ 2 <= 0) ∨
   ((2 > 1 ∧ 2 > 1) ∨ (2 > 1 ∧ 2 > 1)) ∧
   1 <= sideLimit ∧ 1 <= sideLimit ∧ 2 <= sideLimit ∧ 2 <= sideLimit) ∧
  pack 1 1 2 2 =
  if bool_decide (1 <= 0 ∨ 1 <= 0 ∨ 2 <= 0 ∨ 2 <= 0)
  then Ok NullPtr else Ok (Released []).
Proof.
  assert ((1 <= 0 ∨ 1 <= 0 ∨ 2 <= 0 ∨ 2 <= 0) ∨
          ((2 > 1 ∧ 2 > 1) ∨ (2 > 1 ∧ 2 > 1)) ∧
          1 <= sideLimit ∧ 1 <= sideLimit ∧ 2 <= sideLimit ∧ 2 <= sideLimit) as H
    by (unfold sideLimit; lia).
  split; [exact H|]. exact (pack_invalid 1 1 2 2 H).
Defined.

(** C4: on positive dimensions of at most [sideLimit] = 16384, where no
    product of [barnesBound] wraps, the count that [solve_BD] returns is at
    least the better homogeneous packing and at most the value that
    [barnesBound] computes, the bound of Barnes. *)
Theorem solve_BD_bounds L W l w N_max :
  0 < L <= sideLimit → 0 < W <= sideLimit →
  0 < l <= sideLimit → 0 < w <= sideLimit →
  ∃ n t ub, solve_BD L W l w N_max = Ok (n, t) ∧
            barnesBound L W l w = Ok ub ∧
            ub = barnesValue L W l w ∧
            Z.max ((L / l) * (W / w)) ((L / w) * (W / l)) <= n ∧
            n <= ub.
Proof.
  intros HL HW Hl Hw.
  assert (barnesBound L W l w = Ok (barnesValue L W l w)) as Hub
    by (apply barnesBound_value; lia).
  destruct (decide (W <= L)) as [Hle|Hgt].
  - destruct (solve_BD_bounds_ordered L W l w N_max) as (n&t&Hrun&Hlo&Hhi); try lia.
    exists n, t, (barnesValue L W l w). rewrite <- homValue_floor by lia. done.
  - destruct (solve_BD_bounds_ordered W L l w N_max) as (n&t&Hrun&Hlo&Hhi); try lia.
    exists n, t, (barnesValue L W l w). rewrite solve_BD_swap by lia.
    split; [done|]. split; [done|]. split; [done|].
    rewrite barnesValue_comm. rewrite homValue_floor in Hlo by lia. lia.
Qed.

Lemma solve_BD_bounds_witness :
  ∃ n t ub, solve_BD 8 7 3 2 0 = Ok (n, t) ∧
            barnesBound 8 7 3 2 = Ok ub ∧
            ub = barnesValue 8 7 3 2 ∧
            Z.max ((8 / 3) * (7 / 2)) ((8 / 2) * (7 / 3)) <= n ∧
            n <= ub.
Proof. apply (solve_BD_bounds 8 7 3 2 0); unfold sideLimit; lia. Defined.

(** C9: in a call of [solve_BD] on positive dimensions of at most
    [sideLimit] = 16384, [initialize] seeds [lowerBound] with the
    homogeneous packings, BD at the depth limit leaves the table as it is,
    and the one write that follows replaces the seed of the pallet by the
    count of BD, which is at least the seed; so every cell of the table
    holds at the end at least what it held after [initialize]. *)
Theorem lowerBound_writes_monotone L W l w N_max :
  0 < L <= sideLimit → 0 < W <= sideLimit →
  0 < l <= sideLimit → 0 < w <= sideLimit →
  let N := if bool_decide (N_max <= 0) then INFINITY_ else N_max in
  let L' := Z.max L W in
  let W' := Z.min L W in
  ∃ t0 t1 n t iL iW seed,
    initialize N L' W' l w = Ok t0 ∧
    lowerBound t0 =
      tableOf (normalSetX t0)
        (widthsOf (cell (normalize t0) W') (normalSetX t0))
        (λ x y, homValue x y l w) ∧
    BD (S (Z.to_nat (L' * cell (normalize t0) W'))) t0 L'
       (cell (normalize t0) W') N = Ok (n, t1) ∧
    lowerBound t1 = lowerBound t0 ∧
    rdm (indexX t1) L' = Ok iL ∧
    rdm (indexY t1) (cell (normalize t0) W') = Ok iW ∧
    rd2 (lowerBound t1) iL iW = Ok seed ∧ seed <= n ∧
    write_lowerBound iL iW n t1 = Ok t ∧
    solve_BD L W l w N_max = Ok (n, t) ∧
    ∀ i j v, rd2 (lowerBound t0) i j = Ok v →
             ∃ v', rd2 (lowerBound t) i j = Ok v' ∧ v <= v'.
Proof.
  intros HL HW Hl Hw N L' W'.
  destruct (solve_BD_run L' W' l w N_max) as (z&t0&t1&t&Hrun); try (unfold L', W'; lia).
  destruct Hrun as [Hinit Hok HBD Hinv (iL&iW&HiL&HiW&Hseed&Hwr) Hres].
  destruct (bi_frame _ _ _ _ _ _ Hinv) as (_&_&_&_&_&_&_&_&Hlb). cbn [snd] in Hlb.
  pose proof (bi_lower _ _ _ _ _ _ Hinv) as Hlo. cbn [fst] in Hlo.
  exists t0, t1, z, t, iL, iW, (homValue L' (cell (normalize t0) W') l w).
  split; [done|]. split; [apply Hok|]. split; [done|]. split; [done|].
  split; [done|]. split; [done|]. split; [done|]. split; [done|]. split; [done|].
  split.
  { destruct (decide (W <= L)).
    - unfold L', W' in Hres. by rewrite Z.max_l, Z.min_r in Hres by lia.
    - rewrite solve_BD_swap by lia.
      unfold L', W' in Hres. by rewrite Z.max_r, Z.min_l in Hres by lia. }
  intros i j v Hv. apply bind_Ok in Hwr as (m&Hm&[= <-]).
  cbn [lowerBound set_lowerBound]. rewrite Hlb in Hm, Hseed.
  destruct (decide ((i, j) = (iL, iW))) as [[= -> ->]|Hne].
  - rewrite (wr2_rd2_eq _ _ _ _ _ Hm). exists z. split; [done|].
    rewrite Hseed in Hv. injection Hv as <-. done.
  - pose proof Hv as (row&?&_&?&_)%rd2_Ok.
    rewrite (wr2_rd2_ne _ _ _ _ _ _ _ Hm) by done. exists v. split; [done|lia].
Qed.

Lemma lowerBound_writes_monotone_witness :
  let N := if bool_decide (0 <= 0) then INFINITY_ else 0 in
  let L' := Z.max 8 7 in
  let W' := Z.min 8 7 in
  ∃ t0 t1 n t iL iW seed,
    initialize N L' W' 3 2 = Ok t0 ∧
    lowerBound t0 =
      tableOf (normalSetX t0)
        (widthsOf (cell (normalize t0) W') (normalSetX t0))
        (λ x y, homValue x y 3 2) ∧
    BD (S (Z.to_nat (L' * cell (normalize t0) W'))) t0 L'
       (cell (normalize t0) W') N = Ok (n, t1) ∧
    lowerBound t1 = lowerBound t0 ∧
    rdm (indexX t1) L' = Ok iL ∧
    rdm (indexY t1) (cell (normalize t0) W') = Ok iW ∧
    rd2 (lowerBound t1) iL iW = Ok seed ∧ seed <= n ∧
    write_lowerBound iL iW n t1 = Ok t ∧
    solve_BD 8 7 3 2 0 = Ok (n, t) ∧
    ∀ i j v, rd2 (lowerBound t0) i j = Ok v →
             ∃ v', rd2 (lowerBound t) i j = Ok v' ∧ v <= v'.
Proof. apply (lowerBound_writes_monotone 8 7 3 2 0); unfold sideLimit; lia. Defined.

End EntryPointClaims.

(** * Termination of the recursions *)

Section SafeFacts.

Lemma safe_intro {A} (I : A → Prop) (r : result A) :
  r ≠ OutOfFuel → (∀ x, r = Ok x → I x) → safe I r.
Proof. destruct r; cbn; intros Hr HI; [by apply HI|done|done]. Qed.

Lemma safe_elim {A} (I : A → Prop) (r : result A) :
  safe I r → r ≠ OutOfFuel ∧ ∀ x, r = Ok x → I x.
Proof. destruct r; cbn; intros H; split; try done. by intros ? [= <-]. Qed.

Lemma safe_mono {A} (I J : A → Prop) (r : result A) :
  safe I r → (∀ x, I x → J x) → safe J r.
Proof. destruct r; cbn; [|done|done]. intros H HIJ. by apply HIJ. Qed.

Lemma safe_bind {A B} (I : A → Prop) (J : B → Prop) (m : result A) (f : A → result B) :
  safe I m → (∀ x, m = Ok x → I x → safe J (f x)) → safe J (m ≫= f).
Proof. destruct m; cbn; [|done|done]. intros H Hf. by apply Hf. Qed.

(** Computations that use no fuel. *)
Lemma ends_bind {A B} (m : result A) (f : A → result B) :
  m ≠ OutOfFuel → (∀ x, m = Ok x → f x ≠ OutOfFuel) → m ≫= f ≠ OutOfFuel.
Proof. destruct m; cbn; [|done|done]. intros _ Hf. by apply Hf. Qed.

Lemma ends_rd {A} (a : list A) i : rd a i ≠ OutOfFuel.
Proof. unfold rd. case_bool_decide; [|done]. by destruct (a !! Z.to_nat i). Qed.

Lemma ends_wr {A} (a : list A) i v : wr a i v ≠ OutOfFuel.
Proof. unfold wr. by case_bool_decide. Qed.

Lemma ends_rdm m i : rdm m i ≠ OutOfFuel.
Proof. unfold rdm. by destruct (m !! i). Qed.

Lemma ends_rd2 {A} (m : list (list A)) i j : FiveBlock.rd2 m i j ≠ OutOfFuel.
Proof. unfold FiveBlock.rd2. apply ends_bind; [apply ends_rd|]. intros. apply ends_rd. Qed.

Lemma ends_wr2 {A} (m : list (list A)) i j v : FiveBlock.wr2 m i j v ≠ OutOfFuel.
Proof.
  unfold FiveBlock.wr2. apply ends_bind; [apply ends_rd|]. intros row _.
  apply ends_bind; [apply ends_wr|]. intros. apply ends_wr.
Qed.

Lemma ends_rasterLoop norm L ps acc : Sets.rasterLoop norm L ps acc ≠ OutOfFuel.
Proof.
  revert acc. induction ps as [|p ps IH]; intros acc; [done|].
  cbn [Sets.rasterLoop]. apply ends_bind; [apply ends_rd|]. intros. apply IH.
Qed.

Lemma ends_constructRasterPoints norm L W cc :
  Sets.constructRasterPoints norm L W cc ≠ OutOfFuel.
Proof.
  unfold Sets.constructRasterPoints. apply ends_bind; [apply ends_rasterLoop|].
  intros rx _. apply ends_bind; [apply ends_rasterLoop|]. done.
Qed.

End SafeFacts.

Section SaneFacts.
Import Sets FiveBlock.

Lemma sameBase_refl t : sameBase t t.
Proof. done. Qed.

Lemma sameBase_sane t0 t : SaneTables t0 → sameBase t0 t → SaneTables t.
Proof. intros (?&?&?&?) (El&Ew&En&Ep). unfold SaneTables. by rewrite El, Ew, En, Ep. Qed.

Lemma write_lowerBound_base t0 t i j v t' :
  sameBase t0 t → write_lowerBound i j v t = Ok t' → sameBase t0 t'.
Proof. intros Hb (m&_&[= <-])%bind_Ok. done. Qed.

Lemma write_solutionDepth_base t0 t i j v t' :
  sameBase t0 t → write_solutionDepth i j v t = Ok t' → sameBase t0 t'.
Proof. intros Hb (m&_&[= <-])%bind_Ok. done. Qed.

Lemma write_reachedLimit_base t0 t i j v t' :
  sameBase t0 t → write_reachedLimit i j v t = Ok t' → sameBase t0 t'.
Proof. intros Hb (m&_&[= <-])%bind_Ok. done. Qed.

Lemma storeCutPoint_base t0 t L W x1 x2 y1 y2 t' :
  sameBase t0 t → storeCutPoint L W x1 x2 y1 y2 t = Ok t' → sameBase t0 t'.
Proof.
  intros Hb (iL&_&(iW&_&(m&_&[= <-])%bind_Ok)%bind_Ok)%bind_Ok. done.
Qed.

Lemma ends_write_lowerBound i j v t : write_lowerBound i j v t ≠ OutOfFuel.
Proof. unfold write_lowerBound. apply ends_bind; [apply ends_wr2|done]. Qed.

Lemma ends_write_solutionDepth i j v t : write_solutionDepth i j v t ≠ OutOfFuel.
Proof. unfold write_solutionDepth. apply ends_bind; [apply ends_wr2|done]. Qed.

Lemma ends_write_reachedLimit i j v t : write_reachedLimit i j v t ≠ OutOfFuel.
Proof. unfold write_reachedLimit. apply ends_bind; [apply ends_wr2|done]. Qed.

Lemma ends_storeCutPoint L W x1 x2 y1 y2 t : storeCutPoint L W x1 x2 y1 y2 t ≠ OutOfFuel.
Proof.
  unfold storeCutPoint. apply ends_bind; [apply ends_rdm|]. intros iL _.
  apply ends_bind; [apply ends_rdm|]. intros iW _.
  apply ends_bind; [apply ends_wr2|done].
Qed.

Lemma ends_localUpperBound t i j : localUpperBound t i j ≠ OutOfFuel.
Proof.
  unfold localUpperBound. apply ends_bind; [apply ends_rd2|]. intros d _.
  case_bool_decide; apply ends_rd2.
Qed.

(** The raster points of a side: ascending values of [normalize], positive
    after the first. *)
Lemma raster_points norm A cc r :
  SaneNorm norm → (∀ p, p ∈ cc → 0 <= p) →
  rasterLoop norm A (below A (reverse cc)) [] = Ok r →
  asc r ∧ (∀ x, x ∈ r → 0 <= x <= A) ∧
  asc (drop 1 r) ∧ (∀ x, x ∈ drop 1 r → 0 < x <= A).
Proof.
  intros [Hrange _] Hpos Hrun.
  destruct (rasterLoop_asc _ _ _ _ _ Hrun asc_nil) as (Hasc&Hmem&_).
  assert (∀ x, x ∈ r → 0 <= x <= A) as Hr.
  { intros x Hx. destruct (Hmem x Hx) as [?%elem_of_nil|(p&Hp&Hrd)]; [done|].
    destruct (below_suffix A (reverse cc)) as (pre&Hpre&_).
    assert (p ∈ cc) as Hpc.
    { apply elem_of_reverse. rewrite Hpre. apply elem_of_app. by right. }
    pose proof (Hpos p Hpc). pose proof (Hrange _ _ Hrd). lia. }
  split; [done|]. split; [done|].
  destruct r as [|h tl]; [by split; [|intros ? ?%elem_of_nil]|]. cbn [drop].
  apply asc_cons_inv in Hasc as [Htl Hlt]. split; [done|].
  intros x Hx. pose proof (Hr h ltac:(by left)). pose proof (Hr x ltac:(by right)).
  pose proof (Hlt x Hx). lia.
Qed.

(** A loop over an ascending list of points ends when its rounds end. *)
Lemma scan_safe {S : Type} (I : S → Prop) cond body points (s : S) :
  asc points →
  (∀ p rest s, p ∈ points → asc rest → (∀ q, q ∈ rest → q ∈ points ∧ p < q) →
     cond p = true → I s → safe (λ r, I r.2) (body p rest s)) →
  I s → safe (λ r, I r.2) (scan cond body points s).
Proof.
  revert s. induction points as [|p rest IH]; intros s Hasc Hbody Hs; [done|].
  cbn [scan]. destruct (cond p) eqn:Hc; [|done].
  apply asc_cons_inv in Hasc as [Hrest Hlt].
  eapply safe_bind.
  { apply (Hbody p rest s); try done; [by left|].
    intros q Hq. split; [by right|by apply Hlt]. }
  intros [b s'] _ Hs'. cbn [snd] in Hs'. destruct b; [done|].
  apply IH; try done.
  intros p' rest' s'' Hp' Hasc' Hq' Hc' Hs''. apply Hbody; try done.
  - by right.
  - intros q Hq. destruct (Hq' q Hq). split; [by right|done].
Qed.

End SaneFacts.

Create HintDb ends.

#[local] Hint Resolve ends_rd ends_wr ends_rdm ends_rd2 ends_wr2 ends_rasterLoop
  ends_constructRasterPoints ends_write_lowerBound ends_write_solutionDepth
  ends_write_reachedLimit ends_storeCutPoint ends_localUpperBound : ends.

Lemma safe_prim {A B} (J : B → Prop) (m : result A) (f : A → result B) :
  m ≠ OutOfFuel → (∀ x, m = Ok x → safe J (f x)) → safe J (m ≫= f).
Proof. destruct m; cbn; [|done|done]. intros _ Hf. by apply Hf. Qed.

Tactic Notation "prim_as" ident(x) ident(H) :=
  apply safe_prim; [by auto with ends|intros x H].

Section BDTerminates.
Import Sets Bounds FiveBlock.
Context (t0 : Tables).
Hypothesis Hsane : SaneTables t0.

Lemma rectMeasure_pos L W : 0 <= L → 0 <= W → 0 < rectMeasure L W.
Proof. unfold rectMeasure. nia. Qed.

Lemma rectMeasure_comm L W : rectMeasure L W = rectMeasure W L.
Proof. unfold rectMeasure. lia. Qed.

Lemma ends_normBlock t b : normBlock t b ≠ OutOfFuel.
Proof.
  unfold normBlock. apply ends_bind; [apply ends_rd|]. intros Li _.
  apply ends_bind; [apply ends_rd|]. intros Wi _.
  destruct (if bool_decide (Li < Wi) then (Wi, Li) else (Li, Wi)) as [Li' Wi'].
  apply ends_bind; [apply ends_rdm|]. intros iX _.
  apply ends_bind; [apply ends_rdm|]. done.
Qed.

Lemma ends_normBlocks t bs : normBlocks t bs ≠ OutOfFuel.
Proof.
  induction bs as [|b bs IH]; [done|]. cbn [normBlocks].
  apply ends_bind; [apply ends_normBlock|]. intros nb _.
  apply ends_bind; [done|]. done.
Qed.

Lemma ends_sumBounds t bs : sumBounds t bs ≠ OutOfFuel.
Proof.
  induction bs as [|[[[Li Wi] iX] iY] bs IH]; [done|]. cbn [sumBounds].
  apply ends_bind; [apply ends_rd2|]. intros ? _.
  apply ends_bind; [apply ends_localUpperBound|]. intros ? _.
  apply ends_bind; [done|]. by intros [[? ?] ?] _.
Qed.

Lemma ends_sumLower t bs : sumLower t bs ≠ OutOfFuel.
Proof.
  induction bs as [|[[[Li Wi] iX] iY] bs IH]; [done|]. cbn [sumLower].
  apply ends_bind; [apply ends_rd2|]. intros ? _.
  apply ends_bind; [done|]. done.
Qed.

(** The normalised blocks are smaller than the rectangle they come from. *)
Lemma normBlocks_measure t L W blocks blks :
  sameBase t0 t → 0 <= L → 0 <= W →
  (∀ a b, (a, b) ∈ blocks → a <= L ∧ b <= W ∧ (a < L ∨ b < W)) →
  normBlocks t blocks = Ok blks →
  ∀ Li Wi iX iY, (Li, Wi, iX, iY) ∈ blks →
    0 <= Li ∧ 0 <= Wi ∧ rectMeasure Li Wi < rectMeasure L W.
Proof.
  intros (_&_&En&_) HL HW. destruct Hsane as (_&_&[Hrange _]&_).
  revert blks. induction blocks as [|[a b] blocks IH]; intros blks Hbs Hrun.
  { injection Hrun as <-. by intros ???? ?%elem_of_nil. }
  cbn [normBlocks] in Hrun.
  apply bind_Ok in Hrun as (nb&Hnb&(r&Hr&[= <-])%bind_Ok).
  intros Li Wi iX iY [Heq|Hin]%elem_of_cons.
  - subst nb. destruct (Hbs a b ltac:(by left)) as (Ha&Hb&Hlt).
    unfold normBlock in Hnb. cbn [fst snd] in Hnb. rewrite En in Hnb.
    apply bind_Ok in Hnb as (u&Hu&Hnb). apply bind_Ok in Hnb as (v&Hv&Hnb).
    pose proof (Hrange _ _ Hu). pose proof (Hrange _ _ Hv).
    destruct (bool_decide (u < v));
      apply bind_Ok in Hnb as (?&_&(?&_&[= <- <- _ _])%bind_Ok);
      unfold rectMeasure; nia.
  - eapply IH; [|done|done]. intros a' b' H'. apply Hbs. by right.
Qed.

Section Solve.
Context (rec : Tables → Z → Z → Z → result (Z * Tables)) (L W : Z).
Hypothesis Hrec : ∀ t Li Wi n,
  sameBase t0 t → 0 <= Li → 0 <= Wi → rectMeasure Li Wi < rectMeasure L W →
  safe (λ r, sameBase t0 r.2) (rec t Li Wi n).

Lemma solveStep_safe n z_ub cut Li Wi iX iY zi a :
  0 <= Li → 0 <= Wi → rectMeasure Li Wi < rectMeasure L W →
  sameBase t0 (tables a) →
  safe (λ r, sameBase t0 (tables r.2))
    (solveStep rec L W n z_ub cut (Li, Wi, iX, iY) zi a).
Proof.
  intros HLi HWi Hm Ha. unfold solveStep. destruct zi as [zi_lb zi_ub].
  prim_as d Hd.
  eapply (safe_bind (λ r, sameBase t0 r.2)).
  { case_bool_decide.
    - eapply safe_bind; [by apply Hrec|]. intros [z t] _ Ht. cbn [snd] in Ht.
      prim_as t1 Ht1. eapply write_lowerBound_base in Ht1; [|done].
      prim_as r Hr. prim_as t2 Ht2. eapply write_solutionDepth_base in Ht2; [|done].
      done.
    - prim_as z Hz. done. }
  intros [z t] _ Ht. cbn [snd] in Ht.
  prim_as r Hr. prim_as iL HiL. prim_as iW HiW.
  eapply (safe_bind (sameBase t0)).
  { case_bool_decide; [|done]. apply safe_intro; [auto with ends|].
    intros t1 Ht1. by eapply write_reachedLimit_base. }
  intros t1 _ Ht1.
  case_bool_decide; [done|]. case_bool_decide; [|done].
  destruct cut as [[[x1 x2] y1] y2].
  prim_as t2 Ht2. eapply storeCutPoint_base in Ht2; [|done].
  case_bool_decide; [|done].
  prim_as t3 Ht3. eapply write_solutionDepth_base in Ht3; [|done].
  prim_as t4 Ht4. eapply write_reachedLimit_base in Ht4; [|done]. done.
Qed.

Lemma solveLoop_safe n z_ub cut blks zs a :
  (∀ Li Wi iX iY, (Li, Wi, iX, iY) ∈ blks →
     0 <= Li ∧ 0 <= Wi ∧ rectMeasure Li Wi < rectMeasure L W) →
  sameBase t0 (tables a) →
  safe (λ r, sameBase t0 (tables r.2)) (solveLoop rec L W n z_ub cut blks zs a).
Proof.
  revert zs a. induction blks as [|[[[Li Wi] iX] iY] blks IH]; intros zs a Hb Ha; [done|].
  destruct zs as [|zi zs]; [done|]. cbn [solveLoop].
  destruct (Hb Li Wi iX iY ltac:(by left)) as (?&?&?).
  eapply safe_bind; [by apply solveStep_safe|]. intros [e a'] _ Ha'. cbn [snd] in Ha'.
  destruct e; [|done|done]. apply IH; [|done].
  intros ???? Hin. eapply Hb. by right.
Qed.

Lemma solve_safe n blocks z_ub cut st :
  0 <= L → 0 <= W →
  (∀ a b, (a, b) ∈ blocks → a <= L ∧ b <= W ∧ (a < L ∨ b < W)) →
  sameBase t0 st.2 →
  safe (λ r, sameBase t0 r.2.2) (solve rec L W n blocks z_ub cut st).
Proof.
  intros HL HW Hbs Hst. destruct st as [z_lb t]. cbn [snd] in Hst. unfold solve.
  apply safe_prim; [apply ends_normBlocks|]. intros blks Hblks.
  pose proof (normBlocks_measure t L W blocks blks Hst HL HW Hbs Hblks) as Hm.
  case_bool_decide.
  - apply safe_prim; [apply ends_sumBounds|]. intros [[S_lb S_ub] zs] _.
    case_bool_decide; [|done].
    eapply safe_bind; [by apply solveLoop_safe|]. by intros [ret a] _ Ha.
  - prim_as iL HiL. prim_as iW HiW.
    prim_as t1 Ht1. eapply write_reachedLimit_base in Ht1; [|done].
    apply safe_prim; [apply ends_sumLower|]. intros S_lb _.
    case_bool_decide; [|done]. destruct cut as [[[x1 x2] y1] y2].
    prim_as t2 Ht2. eapply storeCutPoint_base in Ht2; [|done].
    case_bool_decide; [|done].
    prim_as t3 Ht3. eapply write_solutionDepth_base in Ht3; [|done].
    prim_as t4 Ht4. eapply write_reachedLimit_base in Ht4; [|done]. done.
Qed.

Lemma BD_body_swap t n : W > L → BD_body rec t L W n = BD_body rec t W L n.
Proof.
  intros Hgt. unfold BD_body.
  by rewrite bool_decide_eq_true_2, (bool_decide_eq_false_2 (L > W)) by lia.
Qed.

End Solve.

(** One round of BD ends when the calls on smaller rectangles end. *)
Lemma BD_body_safe rec t L W n :
  (∀ t Li Wi n,
     sameBase t0 t → 0 <= Li → 0 <= Wi → rectMeasure Li Wi < rectMeasure L W →
     safe (λ r, sameBase t0 r.2) (rec t Li Wi n)) →
  sameBase t0 t → 0 <= L → 0 <= W →
  safe (λ r, sameBase t0 r.2) (BD_body rec t L W n).
Proof.
  assert (∀ L W, W <= L →
    (∀ t Li Wi n,
       sameBase t0 t → 0 <= Li → 0 <= Wi → rectMeasure Li Wi < rectMeasure L W →
       safe (λ r, sameBase t0 r.2) (rec t Li Wi n)) →
    sameBase t0 t → 0 <= L → 0 <= W →
    safe (λ r, sameBase t0 r.2) (BD_body rec t L W n)) as Hord; cycle 1.
  { intros Hrec Ht HL HW. destruct (decide (W <= L)); [by apply Hord|].
    rewrite BD_body_swap by lia. apply Hord; try (done || lia).
    intros. apply Hrec; try done. by rewrite (rectMeasure_comm L W). }
  clear L W. intros L W HWL Hrec Ht HL HW.
  unfold BD_body. rewrite bool_decide_eq_false_2 by lia.
  prim_as iL HiL. prim_as iW HiW. prim_as z_lb Hz. prim_as z_ub Hub.
  case_bool_decide.
  { prim_as t1 Ht1. eapply write_solutionDepth_base in Ht1; [|done].
    prim_as t2 Ht2. eapply write_reachedLimit_base in Ht2; [|done]. done. }
  apply safe_prim; [apply ends_constructRasterPoints|]. intros [rx ry] Hr.
  destruct Ht as (El&Ew&En&Ep). destruct Hsane as (_&_&Hnorm&Hpts).
  unfold constructRasterPoints in Hr. rewrite En, Ep in Hr.
  apply bind_Ok in Hr as (rx'&Hrx&(ry'&Hry&[= <- <-])%bind_Ok).
  destruct (raster_points _ _ _ _ Hnorm Hpts Hrx) as (_&_&Hax&Hx).
  destruct (raster_points _ _ _ _ Hnorm Hpts Hry) as (_&_&Hay&Hy).
  prim_as t1 Ht1. eapply (write_reachedLimit_base t0) in Ht1; [|done].
  eapply (safe_bind (λ r, sameBase t0 r.2.2)).
  { apply (scan_safe (λ st, sameBase t0 st.2)); [done| |done].
    intros x1 afterX1 s1 Hx1 HaX1 HafterX1 _ Hs1. destruct (Hx x1 Hx1).
    apply (scan_safe (λ st, sameBase t0 st.2)); [done| |done].
    intros x2 _ s2 Hx2 _ _ Hc2 Hs2. apply bool_decide_eq_true_1 in Hc2.
    destruct (HafterX1 x2 Hx2) as [Hx2' ?]. destruct (Hx x2 Hx2').
    apply (scan_safe (λ st, sameBase t0 st.2)); [done| |done].
    intros y1 afterY1 s3 Hy1 HaY1 HafterY1 Hc3 Hs3. apply bool_decide_eq_true_1 in Hc3.
    destruct (Hy y1 Hy1).
    apply (scan_safe (λ st, sameBase t0 st.2)); [done| |done].
    intros y2 _ s4 Hy2 _ _ Hc4 Hs4. apply andb_true_iff in Hc4 as [Hc4 _].
    apply bool_decide_eq_true_1 in Hc4. destruct (HafterY1 y2 Hy2) as [Hy2' ?].
    apply (solve_safe rec L W Hrec); try done.
    intros a b Hin. rewrite ?elem_of_cons, elem_of_nil in Hin.
    repeat (destruct Hin as [Hin|Hin]); try done; injection Hin as -> ->; lia. }
  intros [solved st] _ Hst. cbn [snd] in Hst. destruct solved; [by destruct st|].
  eapply (safe_bind (λ r, sameBase t0 r.2.2)).
  { apply (scan_safe (λ st, sameBase t0 st.2)); [done| |done].
    intros x1 _ s1 Hx1 _ _ Hc1 Hs1. destruct (Hx x1 Hx1).
    apply bool_decide_eq_true_1 in Hc1. rewrite cdiv_eq in Hc1 by lia.
    pose proof (Z.mul_div_le L 2 ltac:(lia)).
    apply (solve_safe rec L W Hrec); try done.
    intros a b Hin. rewrite ?elem_of_cons, elem_of_nil in Hin.
    repeat (destruct Hin as [Hin|Hin]); try done; injection Hin as -> ->; lia. }
  intros [solved st'] _ Hst'. cbn [snd] in Hst'. destruct solved; [by destruct st'|].
  eapply (safe_bind (λ r, sameBase t0 r.2.2)).
  { apply (scan_safe (λ st, sameBase t0 st.2)); [done| |done].
    intros y1 _ s1 Hy1 _ _ Hc1 Hs1. destruct (Hy y1 Hy1).
    apply bool_decide_eq_true_1 in Hc1. rewrite cdiv_eq in Hc1 by lia.
    pose proof (Z.mul_div_le W 2 ltac:(lia)).
    apply (solve_safe rec L W Hrec); try done.
    intros a b Hin. rewrite ?elem_of_cons, elem_of_nil in Hin.
    repeat (destruct Hin as [Hin|Hin]); try done; injection Hin as -> ->; lia. }
  intros [solved st''] _ Hst''. by destruct st''.
Qed.

(** BD ends within a fuel of the measure of its rectangle, at every depth
    limit. *)
Lemma BD_safe fuel t L W n :
  sameBase t0 t → 0 <= L → 0 <= W → rectMeasure L W <= Z.of_nat fuel →
  safe (λ r, sameBase t0 r.2) (BD fuel t L W n).
Proof.
  revert t L W n. induction fuel as [|fuel IH]; intros t L W n Ht HL HW Hm.
  { pose proof (rectMeasure_pos L W HL HW). lia. }
  cbn [BD]. apply BD_body_safe; try done.
  intros t' Li Wi n' Ht' HLi HWi Hlt. apply IH; try done. lia.
Qed.

End BDTerminates.

(** * The areas of the pieces of the nine subdivisions *)

Section PieceAreas.
Import LPiece.

(** [normalizePiece] discards the piece or keeps its area, which is then at
    least the area of a box. *)
Lemma normalizePiece_area l w q :
  validPiece q →
  let q' := normalizePiece l w q in
  q0 q' < 0 ∨ (validPiece q' ∧ areaL q' = areaL q ∧ l * w <= areaL q').
Proof.
  destruct q as [[[i j] i1] j1]. unfold validPiece, areaL, q0, q1, q2, q3.
  cbn [fst snd]. intros Hv. unfold normalizePiece.
  repeat (case_bool_decide; cbn [fst snd q0 q1 q2 q3]);
    try (left; lia); right; repeat split; try lia; try nia.
Qed.

(** What two reads of a sane [normalize] give. *)
Lemma sane_read norm j v : SaneNorm norm → rd norm j = Ok v → 0 <= v <= j.
Proof. intros [H _]. apply H. Qed.

Lemma sane_mono norm i j u v :
  SaneNorm norm → rd norm i = Ok u → rd norm j = Ok v → i <= j → u <= v.
Proof. intros [_ H]. apply H. Qed.

Ltac reads H :=
  repeat match type of H with
  | _ ≫= _ = Ok _ =>
      let v := fresh "v" in let Hv := fresh "Hv" in
      apply bind_Ok in H as (v&Hv&H)
  end;
  injection H as <- <-.

(** The area of an L-piece grows with each of its four components. *)
Lemma areaL_mono a b c d a' b' c' d' :
  0 <= c <= a → 0 <= d <= b → a <= a' → b <= b' → c <= c' → d <= d' →
  c' <= a' → d' <= b' →
  a * b - (a - c) * (b - d) <= a' * b' - (a' - c') * (b' - d').
Proof.
  intros. assert (0 <= (a' - a) * d) by (apply Z.mul_nonneg_nonneg; lia).
  assert (0 <= c * (b' - b)) by (apply Z.mul_nonneg_nonneg; lia).
  assert (0 <= (c' - c) * (b' - d)) by (apply Z.mul_nonneg_nonneg; lia).
  assert (0 <= (a' - c') * (d' - d)) by (apply Z.mul_nonneg_nonneg; lia).
  lia.
Qed.

(** The two pieces of a subdivision of a piece in standard position are in
    standard position, and their areas add up to at most its area. *)
Lemma standardPosition_area norm B i q ra rb :
  SaneNorm norm → validPiece q → DivisionAt B i q →
  standardPosition norm B i q = Ok (ra, rb) →
  validPiece ra ∧ validPiece rb ∧ areaL ra + areaL rb <= areaL q.
Proof.
  intros Hs Hv Hd Hrun. destruct q as [[[a0 a1] a2] a3], i as [[i0 i1] i2].
  unfold validPiece, areaL, q0, q1, q2, q3 in *. cbn [fst snd] in *.
  unfold DivisionAt, q0, q1, q2, q3 in Hd. cbn [fst snd] in Hd.
  assert (B = 1 ∨ B = 2 ∨ B = 3 ∨ B = 4 ∨ B = 5 ∨ B = 6 ∨ B = 7 ∨ B = 8 ∨ B = 9) as HB.
  { repeat case_bool_decide; try done; lia. }
  unfold standardPosition in Hrun.
  repeat (destruct HB as [HB|HB]); subst B;
    repeat match type of Hd with
    | context [bool_decide ?P] =>
        first [rewrite (bool_decide_eq_true_2 P) in Hd by lia
              |rewrite (bool_decide_eq_false_2 P) in Hd by lia]
    end;
    repeat match type of Hrun with
    | context [bool_decide ?P] =>
        first [rewrite (bool_decide_eq_true_2 P) in Hrun by lia
              |rewrite (bool_decide_eq_false_2 P) in Hrun by lia]
    end.
  all: unfold standardPositionB1, standardPositionB2, standardPositionB3,
         standardPositionB4, standardPositionB5, standardPositionB6,
         standardPositionB7, standardPositionB8, standardPositionB9,
         q0, q1, q2, q3 in Hrun; cbn [fst snd] in Hrun.
  all: reads Hrun.
  all: repeat match goal with
       | Hu : rd ?n ?x = Ok ?u, Hw : rd ?n ?y = Ok ?w |- _ =>
           lazymatch goal with
           | _ : x <= y → u <= w |- _ => fail
           | _ => pose proof (sane_mono n x y u w Hs Hu Hw)
           end
       end.
  all: repeat match goal with
       | Hu : rd ?n ?x = Ok ?u |- _ =>
           pose proof (sane_read n x u Hs Hu); clear Hu
       end.
  all: cbn [fst snd].
  all: split; [lia|]; split; [lia|].
  3: match goal with
     | |- _ + (?a * ?b - (?a - ?c) * (?b - ?d)) <= _ =>
         pose proof (areaL_mono a b c d (a0 - i0) (a1 - i1) (a2 - i0) (a3 - i1))
     end; lia.
  all: nia.
Qed.

End PieceAreas.

(** * Termination of the L-solver *)

Section LEnds.
Import Sets Bounds FiveBlock LPiece LSolver.

Lemma ends_getKey r q ty : getKey r q ty ≠ OutOfFuel.
Proof.
  unfold getKey. repeat case_bool_decide; try done;
    repeat (apply ends_bind; [apply ends_rd|intros ? _]); done.
Qed.

Lemma ends_LIndex r q ty : LIndex r q ty ≠ OutOfFuel.
Proof.
  unfold LIndex. repeat case_bool_decide; try done; try apply ends_rd;
    repeat (apply ends_bind; [apply ends_rd|intros ? _]); done.
Qed.

Lemma ends_R_LowerBound t x y : R_LowerBound t x y ≠ OutOfFuel.
Proof.
  unfold R_LowerBound. do 2 (apply ends_bind; [apply ends_rd|intros ? _]).
  do 2 (apply ends_bind; [apply ends_rdm|intros ? _]). apply ends_rd2.
Qed.

Lemma ends_R_UpperBound t x y : R_UpperBound t x y ≠ OutOfFuel.
Proof.
  unfold R_UpperBound. do 2 (apply ends_bind; [apply ends_rd|intros ? _]).
  do 2 (apply ends_bind; [apply ends_rdm|intros ? _]). apply ends_rd2.
Qed.

Lemma ends_L_LowerBound t q : L_LowerBound t q ≠ OutOfFuel.
Proof.
  unfold L_LowerBound. do 4 (apply ends_bind; [apply ends_R_LowerBound|intros ? _]).
  by case_bool_decide.
Qed.

Lemma ends_standardPosition norm B i q : standardPosition norm B i q ≠ OutOfFuel.
Proof.
  unfold standardPosition. destruct i as [[i0 i1] i2].
  repeat case_bool_decide;
    unfold standardPositionB1, standardPositionB2, standardPositionB3,
      standardPositionB4, standardPositionB5, standardPositionB6,
      standardPositionB7, standardPositionB8, standardPositionB9;
    repeat (apply ends_bind; [apply ends_rd|intros ? _]); done.
Qed.

Lemma ends_divide t B i q : divide t B i q ≠ OutOfFuel.
Proof.
  unfold divide. apply ends_bind; [apply ends_standardPosition|]. by intros [? ?] _.
Qed.

Lemma ends_getSolution L q s : getSolution L q s ≠ OutOfFuel.
Proof.
  unfold getSolution. case_bool_decide.
  - apply ends_bind; [apply ends_rd|done].
  - apply ends_bind; [apply ends_getKey|intros key _].
    apply ends_bind; [apply ends_rd|intros m _].
    destruct (mapGet m key). apply ends_bind; [apply ends_wr|done].
Qed.

Lemma ends_storeSolution L key v s : storeSolution L key v s ≠ OutOfFuel.
Proof.
  unfold storeSolution. case_bool_decide.
  - apply ends_bind; [apply ends_wr|done].
  - apply ends_bind; [apply ends_rd|intros m _].
    apply ends_bind; [apply ends_wr|done].
Qed.

Lemma ends_storeDivisionPoint L key v s : storeDivisionPoint L key v s ≠ OutOfFuel.
Proof.
  unfold storeDivisionPoint. case_bool_decide.
  - apply ends_bind; [apply ends_wr|done].
  - apply ends_bind; [apply ends_rd|intros m _].
    apply ends_bind; [apply ends_wr|done].
Qed.

Lemma ends_startFrom bound points : startFrom bound points ≠ OutOfFuel.
Proof. induction points as [|p ps IH]; [done|]. cbn [startFrom]. by case_bool_decide. Qed.

Lemma ends_write_lowerBoundL x y v s : write_lowerBoundL x y v s ≠ OutOfFuel.
Proof.
  unfold write_lowerBoundL. do 2 (apply ends_bind; [apply ends_rdm|intros ? _]).
  apply ends_bind; [apply ends_write_lowerBound|done].
Qed.

Lemma getSolution_tabs L q s v key s' :
  getSolution L q s = Ok (v, key, s') → tabs s' = tabs s.
Proof.
  unfold getSolution. case_bool_decide.
  - by intros (?&_&[= _ _ <-])%bind_Ok.
  - intros (k&_&(m&_&Hrun)%bind_Ok)%bind_Ok. destruct (mapGet m k).
    by apply bind_Ok in Hrun as (?&_&[= _ _ <-]).
Qed.

Lemma storeSolution_tabs L key v s s' :
  storeSolution L key v s = Ok s' → tabs s' = tabs s.
Proof.
  unfold storeSolution. case_bool_decide.
  - by intros (?&_&[= <-])%bind_Ok.
  - by intros (m&_&(?&_&[= <-])%bind_Ok)%bind_Ok.
Qed.

Lemma storeDivisionPoint_tabs L key v s s' :
  storeDivisionPoint L key v s = Ok s' → tabs s' = tabs s.
Proof.
  unfold storeDivisionPoint. case_bool_decide.
  - by intros (?&_&[= <-])%bind_Ok.
  - by intros (m&_&(?&_&[= <-])%bind_Ok)%bind_Ok.
Qed.

Lemma write_lowerBoundL_base t0 x y v s s' :
  sameBase t0 (tabs s) → write_lowerBoundL x y v s = Ok s' → sameBase t0 (tabs s').
Proof.
  intros Hb (iX&_&(iY&_&(t&Ht&[= <-])%bind_Ok)%bind_Ok)%bind_Ok.
  cbn [tabs set_tabs]. by eapply write_lowerBound_base.
Qed.

(** The points from a bound on, in an ascending list. *)
Lemma startFrom_spec bound points r :
  asc points → startFrom bound points = Ok r →
  asc r ∧ ∀ x, x ∈ r → x ∈ points ∧ bound <= x.
Proof.
  induction points as [|p ps IH]; intros Hasc Hrun; [done|].
  cbn [startFrom] in Hrun. pose proof Hasc as [Hps Hlt]%asc_cons_inv.
  case_bool_decide.
  - destruct (IH Hps Hrun) as [Har Hr]. split; [done|].
    intros x Hx. destruct (Hr x Hx). split; [by right|done].
  - injection Hrun as <-. split; [done|]. intros x [->|Hx]%elem_of_cons.
    + split; [by left|lia].
    + pose proof (Hlt x Hx). split; [by right|lia].
Qed.

End LEnds.

#[local] Hint Resolve ends_rd ends_wr ends_rdm ends_rd2 ends_wr2
  ends_constructRasterPoints ends_getKey ends_LIndex ends_R_LowerBound
  ends_R_UpperBound ends_L_LowerBound ends_divide ends_getSolution
  ends_storeSolution ends_storeDivisionPoint ends_startFrom
  ends_write_lowerBoundL : ends.

Section LTerminates.
Import Sets Bounds FiveBlock LPiece LSolver Codec.
Context (t0 : Tables).
Hypothesis Hsane : SaneTables t0.

Lemma areaL_nonneg q : validPiece q → 0 <= areaL q.
Proof.
  destruct q as [[[a0 a1] a2] a3]. unfold validPiece, areaL, q0, q1, q2, q3.
  cbn [fst snd]. nia.
Qed.

Section Divisions.
Context (rec : Z → Piece → LState → result (Z * LState)) (q : Piece).
Hypothesis Hq : validPiece q.
Hypothesis Hrec : ∀ L' q' s,
  sameBase t0 (tabs s) → validPiece q' → areaL q' < areaL q →
  safe (λ r, sameBase t0 (tabs r.2)) (rec L' q' s).

(** The two pieces of a division that are solved have smaller areas. *)
Lemma divide_smaller t B i qa qb :
  sameBase t0 t → DivisionAt B i q → divide t B i q = Ok (qa, qb) →
  0 <= q0 qa → 0 <= q0 qb →
  (validPiece qa ∧ areaL qa < areaL q) ∧ (validPiece qb ∧ areaL qb < areaL q).
Proof.
  intros (El&Ew&En&_) Hi Hdiv Ha Hb. destruct Hsane as (Hl&Hw&Hnorm&_).
  unfold divide in Hdiv. rewrite En, El, Ew in Hdiv.
  apply bind_Ok in Hdiv as ([ra rb]&Hsp&[= <- <-]).
  destruct (standardPosition_area _ _ _ _ _ _ Hnorm Hq Hi Hsp) as (Hva&Hvb&Hsum).
  destruct (normalizePiece_area (boxl t0) (boxw t0) ra Hva) as [?|(?&Ea&?)]; [lia|].
  destruct (normalizePiece_area (boxl t0) (boxw t0) rb Hvb) as [?|(?&Eb&?)]; [lia|].
  assert (0 < boxl t0 * boxw t0) by nia.
  split; (split; [done|lia]).
Qed.

Lemma tryDivision_safe L key B ub i st :
  DivisionAt B i q → sameBase t0 (tabs st.2) →
  safe (λ r, sameBase t0 (tabs r.2.2)) (tryDivision rec L key q B ub i st).
Proof.
  intros Hi Hst. destruct st as [LSolution s]. cbn [snd] in Hst. unfold tryDivision.
  apply safe_prim; [auto with ends|]. intros [qa qb] Hdiv.
  case_bool_decide as Hneg; [done|].
  destruct (divide_smaller _ _ _ _ _ Hst Hi Hdiv) as [[Hva Hla] [Hvb Hlb]]; [lia|lia|].
  case_bool_decide; [|done].
  prim_as L1 HL1. prim_as L2 HL2.
  eapply safe_bind; [by apply Hrec|]. intros [L1Solution s1] _ Hs1. cbn [snd] in Hs1.
  eapply safe_bind; [by apply Hrec|]. intros [L2Solution s2] _ Hs2. cbn [snd] in Hs2.
  case_bool_decide; [|done].
  prim_as s3 Hs3. apply storeSolution_tabs in Hs3.
  destruct i as [[i0 i1] i2].
  prim_as s4 Hs4. apply storeDivisionPoint_tabs in Hs4.
  case_bool_decide; cbn [safe snd]; by rewrite Hs4, Hs3.
Qed.

Lemma divideL_safe L maxX maxY B X Y s :
  asc X → asc Y →
  (∀ x y, x ∈ X → y ∈ Y → x <= maxX → y <= maxY → DivisionAt B (x, y, 0) q) →
  sameBase t0 (tabs s) →
  safe (λ r, sameBase t0 (tabs r.2)) (divideL rec L q maxX maxY B X Y s).
Proof.
  intros HaX HaY Hpts Hs. unfold divideL.
  apply safe_prim; [auto with ends|]. intros [[LSolution key] s1] Hget.
  apply getSolution_tabs in Hget.
  eapply (safe_bind (λ r, sameBase t0 (tabs r.2.2))).
  { apply (scan_safe (λ st, sameBase t0 (tabs st.2))); [done| |cbn [snd]; by rewrite Hget].
    intros x _ st Hx _ _ Hcx Hst. apply bool_decide_eq_true_1 in Hcx.
    apply (scan_safe (λ st, sameBase t0 (tabs st.2))); [done| |done].
    intros y _ st' Hy _ _ Hcy Hst'. apply bool_decide_eq_true_1 in Hcy.
    apply tryDivision_safe; [by apply Hpts|done]. }
  by intros [b [z s2]] _ Hs2.
Qed.

Lemma divideAll_safe L ub plan st :
  (∀ B maxX maxY X Y, (B, maxX, maxY, X, Y) ∈ plan →
     asc X ∧ asc Y ∧
     ∀ x y, x ∈ X → y ∈ Y → x <= maxX → y <= maxY → DivisionAt B (x, y, 0) q) →
  sameBase t0 (tabs st.2) →
  safe (λ r, sameBase t0 (tabs r.2)) (divideAll rec L q ub plan st).
Proof.
  revert st. induction plan as [|[[[[B maxX] maxY] X] Y] plan IH]; intros st Hplan Hst.
  { by destruct st. }
  cbn [divideAll]. destruct (Hplan B maxX maxY X Y ltac:(by left)) as (HaX&HaY&Hpts).
  eapply safe_bind; [by apply divideL_safe|]. intros [LSolution s] _ Hs. cbn [snd] in Hs.
  case_bool_decide; [done|]. apply IH; [|done].
  intros ????? Hin. apply Hplan. by right.
Qed.

Lemma divideB6_safe L X Y s :
  q0 q = q2 q → asc X → asc Y →
  (∀ x, x ∈ X → 0 <= x <= q0 q) → (∀ y, y ∈ Y → 0 <= y <= q1 q) →
  sameBase t0 (tabs s) →
  safe (λ r, sameBase t0 (tabs r.2)) (divideB6 rec L q X Y s).
Proof.
  intros Hdeg HaX HaY HX HY Hs. unfold divideB6.
  apply safe_prim; [auto with ends|]. intros [[LSolution key] s1] Hget.
  apply getSolution_tabs in Hget. prim_as ub Hub.
  eapply (safe_bind (λ r, sameBase t0 (tabs r.2.2))).
  { apply (scan_safe (λ st, sameBase t0 (tabs st.2))); [done| |cbn [snd]; by rewrite Hget].
    intros x' after st Hx' Hafter Hlt _ Hst.
    apply (scan_safe (λ st, sameBase t0 (tabs st.2))); [| |done].
    { apply asc_cons; [done|]. intros a Ha. by apply Hlt. }
    intros x'' _ st' Hx'' _ _ _ Hst'. case_bool_decide; [done|].
    apply (scan_safe (λ st, sameBase t0 (tabs st.2))); [done| |done].
    intros y' _ st'' Hy' _ _ _ Hst''.
    apply tryDivision_safe; [|done].
    unfold DivisionAt.
    rewrite !bool_decide_eq_false_2 by (unfold B6; lia).
    rewrite bool_decide_eq_true_2 by done.
    pose proof (HX x' Hx'). pose proof (HY y' Hy').
    assert (x'' ∈ X ∧ x' <= x'') as [Hx''X ?].
    { apply elem_of_cons in Hx'' as [->|Hx'']; [split; [done|lia]|].
      destruct (Hlt x'' Hx''). split; [done|lia]. }
    pose proof (HX x'' Hx''X). lia. }
  by intros [b [z s2]] _ Hs2.
Qed.

Lemma divideB7_safe L X Y s :
  q0 q = q2 q → asc X → asc Y →
  (∀ x, x ∈ X → 0 <= x <= q0 q) → (∀ y, y ∈ Y → 0 <= y <= q1 q) →
  sameBase t0 (tabs s) →
  safe (λ r, sameBase t0 (tabs r.2)) (divideB7 rec L q X Y s).
Proof.
  intros Hdeg HaX HaY HX HY Hs. unfold divideB7.
  apply safe_prim; [auto with ends|]. intros [[LSolution key] s1] Hget.
  apply getSolution_tabs in Hget. prim_as ub Hub.
  eapply (safe_bind (λ r, sameBase t0 (tabs r.2.2))).
  { apply (scan_safe (λ st, sameBase t0 (tabs st.2))); [done| |cbn [snd]; by rewrite Hget].
    intros y' after st Hy' Hafter Hlt _ Hst.
    apply (scan_safe (λ st, sameBase t0 (tabs st.2))); [| |done].
    { apply asc_cons; [done|]. intros a Ha. by apply Hlt. }
    intros y'' _ st' Hy'' _ _ _ Hst'. case_bool_decide; [done|].
    apply (scan_safe (λ st, sameBase t0 (tabs st.2))); [done| |done].
    intros x' _ st'' Hx' _ _ _ Hst''.
    apply tryDivision_safe; [|done].
    unfold DivisionAt.
    rewrite !bool_decide_eq_false_2 by (unfold B7; lia).
    rewrite bool_decide_eq_true_2 by done.
    pose proof (HX x' Hx'). pose proof (HY y' Hy').
    assert (y'' ∈ Y ∧ y' <= y'') as [Hy''Y ?].
    { apply elem_of_cons in Hy'' as [->|Hy'']; [split; [done|lia]|].
      destruct (Hlt y'' Hy''). split; [done|lia]. }
    pose proof (HY y'' Hy''Y). lia. }
  by intros [b [z s2]] _ Hs2.
Qed.

End Divisions.

Lemma rasters_sane t A1 A2 X Y :
  sameBase t0 t →
  constructRasterPoints (normalize t) A1 A2 (normalSetX t) = Ok (X, Y) →
  (asc X ∧ ∀ x, x ∈ X → 0 <= x <= A1) ∧ (asc Y ∧ ∀ y, y ∈ Y → 0 <= y <= A2).
Proof.
  intros (_&_&En&Ep) Hr. destruct Hsane as (_&_&Hnorm&Hpts).
  unfold constructRasterPoints in Hr. rewrite En, Ep in Hr.
  apply bind_Ok in Hr as (rx&Hrx&(ry&Hry&[= <- <-])%bind_Ok).
  destruct (raster_points _ _ _ _ Hnorm Hpts Hrx) as (?&?&_).
  destruct (raster_points _ _ _ _ Hnorm Hpts Hry) as (?&?&_). done.
Qed.

(** One round of [solve] ends when the calls on pieces of smaller area
    end. *)
Lemma solve_body_safe rec L q s :
  validPiece q →
  (∀ L' q' s,
     sameBase t0 (tabs s) → validPiece q' → areaL q' < areaL q →
     safe (λ r, sameBase t0 (tabs r.2)) (rec L' q' s)) →
  sameBase t0 (tabs s) →
  safe (λ r, sameBase t0 (tabs r.2)) (solve_body rec L q s).
Proof.
  intros Hq Hrec Hs. unfold solve_body.
  eapply (safe_bind (λ r, sameBase t0 (tabs r.2))).
  { case_bool_decide.
    - prim_as v Hv. done.
    - prim_as key Hkey. prim_as m Hm. done. }
  intros [[cached key] s1] _ Hs1. cbn [snd] in Hs1. destruct cached as [v|]; [done|].
  case_bool_decide as Hdeg.
  - apply safe_prim; [auto with ends|]. intros [lb hc] _.
    eapply (safe_bind (λ s', sameBase t0 (tabs s'))).
    { destruct hc; (apply safe_intro; [auto with ends|]); intros s' Hs';
        apply storeDivisionPoint_tabs in Hs'; by rewrite Hs'. }
    intros s2 _ Hs2. prim_as s3 Hs3. apply storeSolution_tabs in Hs3.
    assert (sameBase t0 (tabs s3)) as Hb3 by (by rewrite Hs3).
    case_bool_decide; [|done].
    apply safe_prim; [auto with ends|]. intros [X Y] Hr.
    destruct (rasters_sane _ _ _ _ _ Hs1 Hr) as [[HaX HX] [HaY HY]].
    prim_as fromX HfX. prim_as fromY HfY. prim_as lastY HlY. prim_as lastX HlX.
    destruct (startFrom_spec _ _ _ HaX HfX) as [HafX HfromX].
    destruct (startFrom_spec _ _ _ HaY HfY) as [HafY HfromY].
    apply divideAll_safe; try done.
    intros B maxX maxY X' Y' Hin. rewrite ?elem_of_cons, elem_of_nil in Hin.
    unfold B1, B2, B3, B4, B5, B8, B9 in Hin.
    repeat (destruct Hin as [Hin|Hin]); try done;
      injection Hin as -> -> -> -> ->; (split; [done|]); (split; [done|]);
      intros x y Hx Hy Hmx Hmy; unfold DivisionAt;
      repeat match goal with
      | |- context [bool_decide ?P] =>
          first [rewrite (bool_decide_eq_true_2 P) by lia
                |rewrite (bool_decide_eq_false_2 P) by lia]
      end;
      try (destruct (HfromX x Hx) as [Hx' ?]); try (destruct (HfromY y Hy) as [Hy' ?]);
      try (pose proof (HX x Hx)); try (pose proof (HX x Hx'));
      try (pose proof (HY y Hy)); try (pose proof (HY y Hy')); lia.
  - assert (q0 q = q2 q) as Hrect.
    { destruct (decide (q0 q = q2 q)); [done|]. by destruct Hdeg. }
    prim_as lb Hlb. prim_as ub Hub. prim_as s2 Hs2. apply storeSolution_tabs in Hs2.
    assert (sameBase t0 (tabs s2)) as Hb2 by (by rewrite Hs2).
    case_bool_decide; [|done].
    apply safe_prim; [auto with ends|]. intros [X Y] Hr.
    destruct (rasters_sane _ _ _ _ _ Hs1 Hr) as [[HaX HX] [HaY HY]].
    eapply safe_bind; [by apply divideB6_safe|]. intros [LSolution s3] _ Hs3.
    cbn [snd] in Hs3. case_bool_decide.
    + prim_as s4 Hs4. by eapply write_lowerBoundL_base in Hs4.
    + eapply safe_bind; [by apply divideB7_safe|]. intros [LSolution' s4] _ Hs4.
      cbn [snd] in Hs4. prim_as s5 Hs5. by eapply write_lowerBoundL_base in Hs5.
Qed.

(** The L-solver ends within a fuel above the area of its piece. *)
Lemma L_safe fuel L q s :
  sameBase t0 (tabs s) → validPiece q → areaL q < Z.of_nat fuel →
  safe (λ r, sameBase t0 (tabs r.2)) (solve fuel L q s).
Proof.
  revert L q s. induction fuel as [|fuel IH]; intros L q s Hs Hq Hm.
  { pose proof (areaL_nonneg q Hq). lia. }
  cbn [solve]. apply solve_body_safe; try done.
  intros L' q' s' Hs' Hq' Hlt. apply IH; try done. lia.
Qed.

End LTerminates.

(** * The recursions on the tables of initialize *)

Section TerminationClaim.
Import Sets Bounds FiveBlock LPiece LSolver.

Lemma rd_cell_inv (norm : list Z) j v :
  rd norm j = Ok v → 0 <= j < Z.of_nat (length norm) ∧ v = cell norm j.
Proof.
  unfold rd, cell. case_bool_decide; [|done].
  destruct (norm !! Z.to_nat j) as [u|] eqn:E; [|done]. intros [= <-].
  apply lookup_lt_Some in E. split; [lia|done].
Qed.

(** The tables that [initialize] builds have what the recursions use,
    whatever the values of the bounds are. *)
Lemma InitFrame_sane L W l w t0 :
  0 < l → 0 < w → 0 < W → W <= L → InitFrame L W l w t0 → SaneTables t0.
Proof.
  intros Hl Hw HW HWL Hinit.
  destruct (if_norm _ _ _ _ _ Hinit) as (X&HX&Hnorm).
  pose proof (if_len _ _ _ _ _ Hinit) as Hlen.
  split; [by rewrite (if_boxl _ _ _ _ _ Hinit)|].
  split; [by rewrite (if_boxw _ _ _ _ _ Hinit)|].
  split; [split|].
  - intros j v [Hj ->]%rd_cell_inv. apply (c_range L W l w t0 X); (done || lia).
  - intros i j u v [Hi ->]%rd_cell_inv [Hj ->]%rd_cell_inv Hij.
    apply (c_mono L W l w t0 X); (done || lia).
  - intros p [->|[(q&[Hq _]&->)|(q&[Hq _]&Hqw&->)]]%(if_points _ _ _ _ _ Hinit);
      [lia| |]; apply (c_range L W l w t0 X); (done || lia).
Qed.



End TerminationClaim.

(** * The sets of sets.cpp *)

(** An explicit list is ascending. *)
Ltac asc_list :=
  repeat first
    [ apply asc_nil
    | apply asc_cons;
      [|let a := fresh "a" in let Ha := fresh "Ha" in
        intros a Ha; rewrite ?elem_of_cons, elem_of_nil in Ha; lia] ].

Section SetsSpec.
Import Sets.

(** X1: [insert] keeps a set strictly ascending and never takes a point
    away.  The element is added exactly when the set is empty or the
    element exceeds the last point; any other element leaves the set as it
    was, whether it was a member or not. *)
Theorem insert_appends_above_last x s :
  asc s →
  asc (insert x s) ∧
  (∀ a, a ∈ insert x s ↔ a ∈ s ∨ (a = x ∧ ∀ p, list.last s = Some p → p < x)) ∧
  (∀ p, list.last s = Some p → x <= p → insert x s = s).
Proof.
  intros Hs. split; [by apply insert_asc|]. unfold insert.
  destruct (list.last s) as [p|] eqn:Hp.
  - case_bool_decide as Hlt.
    + split.
      * intros a. rewrite elem_of_app, list_elem_of_singleton. split.
        -- intros [?| ->]; [by left|]. right. split; [done|]. by intros ? [= <-].
        -- intros [?|[ -> _]]; [by left|by right].
      * intros ? [= <-] ?. lia.
    + split; [|done]. intros a. split; [by left|].
      intros [?|[_ Hx]]; [done|]. specialize (Hx p eq_refl). lia.
  - split; [|done]. intros a. rewrite elem_of_app, list_elem_of_singleton.
    split; [intros [?| ->]; [by left|by right]|].
    intros [?|[ -> _]]; [by left|by right].
Qed.

Lemma insert_appends_above_last_witness :
  asc [0; 2; 5] ∧
  asc (insert 3 [0; 2; 5]) ∧
  (∀ a, a ∈ insert 3 [0; 2; 5] ↔
        a ∈ [0; 2; 5] ∨ (a = 3 ∧ ∀ p, list.last [0; 2; 5] = Some p → p < 3)) ∧
  (∀ p, list.last [0; 2; 5] = Some p → 3 <= p → insert 3 [0; 2; 5] = [0; 2; 5]).
Proof.
  assert (asc [0; 2; 5]) as H by asc_list.
  split; [exact H|]. apply (insert_appends_above_last 3 [0; 2; 5] H).
Defined.

(** X2: for positive box sides and [L >= 0], [constructConicCombinations]
    returns a strictly ascending list that starts with 0 and ends with [L];
    its members are exactly the numbers [r * l + s * w <= L] with
    [r, s >= 0], and [L] itself. *)
Theorem conic_combinations_exact L l w :
  0 < l → 0 < w → 0 <= L →
  ∃ X, constructConicCombinations L l w = Ok X ∧
       asc X ∧ list.head X = Some 0 ∧ list.last X = Some L ∧
       ∀ x, x ∈ X ↔
            0 <= x <= L ∧ ((∃ r s, 0 <= r ∧ 0 <= s ∧ x = r * l + s * w) ∨ x = L).
Proof.
  intros Hl Hw HL.
  destruct (constructConicCombinations_spec L l w Hl Hw HL) as (X&HX&Ha&Hh&Hla&Hm).
  exists X. repeat (split; [done|]). intros x. apply Hm.
Qed.

Lemma conic_combinations_exact_witness :
  ∃ X, constructConicCombinations 13 5 3 = Ok X ∧
       asc X ∧ list.head X = Some 0 ∧ list.last X = Some 13 ∧
       ∀ x, x ∈ X ↔
            0 <= x <= 13 ∧ ((∃ r s, 0 <= r ∧ 0 <= s ∧ x = r * 5 + s * 3) ∨ x = 13).
Proof. apply (conic_combinations_exact 13 5 3); lia. Defined.

(** The table [normalize] sends the rest of a side after its greatest
    member of the set to 0. *)
Lemma nm_rest L l w X norm A :
  0 < l → 0 < w → 0 <= L →
  (∀ x, x ∈ X ↔ InX L l w x) →
  (∀ j, 0 <= j <= L → IsNorm X j (cell norm j)) →
  0 <= A <= L → cell norm (A - cell norm A) = 0.
Proof.
  intros Hl Hw HL HX Hnorm HA.
  assert (∀ j, 0 <= j <= L → 0 <= cell norm j <= j) as Hrange.
  { intros j Hj. apply (nm_range L l w X); (done || lia). }
  assert (∀ j, 0 <= j <= L → InX L l w (cell norm j)) as Hin.
  { intros j Hj. apply (nm_InX L l w X); (done || lia). }
  pose proof (Hrange A HA). assert (0 <= A - cell norm A <= L) as Hd by lia.
  pose proof (Hrange _ Hd).
  assert (cell norm A + cell norm (A - cell norm A) <= cell norm A); [|lia].
  apply (nm_max L l w X); [done|done|done| |lia].
  apply InX_add; [lia|by apply Hin|by apply Hin|lia].
Qed.

Lemma side_raster L l w X norm A :
  0 < l → 0 < w → 0 <= L →
  asc X → (∀ x, x ∈ X ↔ InX L l w x) →
  Z.of_nat (length norm) = L + 1 →
  (∀ j, 0 <= j <= L → IsNorm X j (cell norm j)) →
  0 <= A <= L →
  ∃ r, rasterLoop norm A (below A (reverse X)) [] = Ok r ∧ RasterOf X norm A r.
Proof.
  intros Hl Hw HL HaX HX Hlen Hnorm HA.
  assert (∀ j, 0 <= j <= L → 0 <= cell norm j <= j) as Hrange.
  { intros j Hj. apply (nm_range L l w X); (done || lia). }
  assert (∃ r, rasterLoop norm A (below A (reverse X)) [] = Ok r ∧ asc r ∧
               (∀ x, x ∈ r ↔ ∃ p, p ∈ X ∧ p <= A ∧ x = cell norm (A - p)) ∧
               list.last r = Some (cell norm A)) as (r&Hr&Har&Hmem&Hlast).
  { apply (rasterLoop_side L l w X); try (done || lia).
    - intros p [Hp _]%HX. lia.
    - apply HX. apply InX_0. lia. }
  exists r. split; [done|].
  assert (∀ j, 0 <= j <= L → rd norm j = Ok (cell norm j)) as Hrd.
  { intros j Hj. apply rd_cell. lia. }
  assert (0 ∈ r) as H0.
  { apply Hmem. exists (cell norm A).
    pose proof (Hrange A HA).
    split; [by destruct (Hnorm A HA)|]. split; [lia|].
    symmetry. by apply (nm_rest L l w X). }
  split; [done|]. split; [|split].
  - destruct r as [|h tl]; [by apply elem_of_nil in H0|]. cbn. f_equal.
    pose proof (asc_head_min (h :: tl) h 0 Har eq_refl H0).
    assert (h ∈ h :: tl) as (p&Hp&HpA&->)%Hmem by by left.
    apply HX in Hp as [Hp _].
    pose proof (Hrange (A - p) ltac:(lia)). lia.
  - exists (cell norm A). split; [by apply Hrd|done].
  - intros x. rewrite Hmem. split; intros (p&Hp&HpA&Hx); exists p.
    + subst x. pose proof (proj1 (HX p) Hp) as [Hp' _].
      split; [done|]. split; [done|]. apply Hrd. lia.
    + pose proof (proj1 (HX p) Hp) as [Hp' _].
      rewrite Hrd in Hx by lia. by injection Hx as <-.
Qed.

(** X3: with the set [X] of [constructConicCombinations] and the table of
    [buildNormalize] for the length [L], [constructRasterPoints] for a
    rectangle [A x B] within [L] returns two strictly ascending lists:
    the first holds exactly the values [normalize[A - p]] for the members
    [p <= A] of [X], starts with 0 and ends with [normalize[A]], and the
    second is the same for [B]. *)
Theorem raster_points_exact L l w A B :
  0 < l → 0 < w → 0 <= A <= L → 0 <= B <= L →
  ∃ X norm rx ry,
    constructConicCombinations L l w = Ok X ∧
    buildNormalize L X = Ok norm ∧
    constructRasterPoints norm A B X = Ok (rx, ry) ∧
    RasterOf X norm A rx ∧ RasterOf X norm B ry.
Proof.
  intros Hl Hw HA HB. assert (0 <= L) as HL by lia.
  destruct (constructConicCombinations_spec L l w Hl Hw HL) as (X&HX&Ha&Hh&_&Hm).
  destruct (buildNormalize_spec L X Ha Hh HL) as (norm&Hn&Hlen&Hnorm).
  destruct (side_raster L l w X norm A Hl Hw HL Ha Hm Hlen Hnorm HA) as (rx&Hrx&Hx).
  destruct (side_raster L l w X norm B Hl Hw HL Ha Hm Hlen Hnorm HB) as (ry&Hry&Hy).
  exists X, norm, rx, ry. repeat (split; [done|]).
  split; [|done]. unfold constructRasterPoints. by rewrite Hrx, Hry.
Qed.

Lemma raster_points_exact_witness :
  ∃ X norm rx ry,
    constructConicCombinations 13 5 3 = Ok X ∧
    buildNormalize 13 X = Ok norm ∧
    constructRasterPoints norm 13 7 X = Ok (rx, ry) ∧
    RasterOf X norm 13 rx ∧ RasterOf X norm 7 ry.
Proof. apply (raster_points_exact 13 5 3 13 7); lia. Defined.

End SetsSpec.

(** * The bounds and the tables of bd.cpp *)

Section BoundsSpec.
Import Sets Bounds FiveBlock DrawBD.

(** X4: the bound of Barnes is sound.  For sides of at most [sideLimit],
    where no product of [barnesBound] wraps, whatever way boxes with the
    sides [l] and [w], in either orientation and at integer positions, are
    put into the rectangle [L x W] with disjoint interiors, their number is
    at most the value that [barnesBound (L, W, l, w)] returns. *)
Theorem barnesBound_bounds_every_packing L W l w bs :
  0 < l <= sideLimit → 0 < w <= sideLimit →
  0 <= L <= sideLimit → 0 <= W <= sideLimit →
  Packing L W l w bs →
  ∃ ub, barnesBound L W l w = Ok ub ∧ Z.of_nat (length bs) <= ub.
Proof.
  intros Hl Hw HL HW Hp. exists (barnesValue L W l w).
  split; [apply barnesBound_value; lia|]. apply barnes_sound; (done || lia).
Qed.

Lemma barnesBound_bounds_every_packing_witness :
  Packing 5 5 3 2 [(0, 0, 3, 2); (3, 0, 5, 3); (2, 3, 5, 5); (0, 2, 2, 5)] ∧
  ∃ ub, barnesBound 5 5 3 2 = Ok ub ∧
        Z.of_nat (length [(0, 0, 3, 2); (3, 0, 5, 3); (2, 3, 5, 5); (0, 2, 2, 5)])
        <= ub.
Proof.
  assert (Packing 5 5 3 2 [(0, 0, 3, 2); (3, 0, 5, 3); (2, 3, 5, 5); (0, 2, 2, 5)])
    as H.
  { split.
    - intros b Hb. rewrite !elem_of_cons, elem_of_nil in Hb.
      destruct Hb as [->|[->|[->|[->|[]]]]]; cbn; lia.
    - intros i j a b Hij Hi Hj.
      destruct i as [|[|[|[|i]]]]; try done;
        destruct j as [|[|[|[|j]]]]; try done;
        cbn in Hi, Hj; simplify_eq; cbn; lia. }
  split; [exact H|].
  apply (barnesBound_bounds_every_packing 5 5 3 2 _); unfold sideLimit; try lia.
  exact H.
Defined.

(** X5: the two values that [initialize] stores for a rectangle with sides
    of at most [sideLimit] are ordered: the homogeneous packing
    [lowerBound (L, W, l, w)] is between 0 and [barnesBound (L, W, l, w)],
    and it is the greater of the two grids. *)
Theorem seed_bounds_ordered L W l w :
  0 < l <= sideLimit → 0 < w <= sideLimit →
  0 <= L <= sideLimit → 0 <= W <= sideLimit →
  ∃ lo ub, lowerBoundH L W l w = Ok lo ∧ barnesBound L W l w = Ok ub ∧
           lo = Z.max ((L / l) * (W / w)) ((L / w) * (W / l)) ∧
           0 <= lo <= ub.
Proof.
  intros Hl Hw HL HW. exists (homValue L W l w), (barnesValue L W l w).
  split; [apply lowerBoundH_value; lia|].
  split; [apply barnesBound_value; lia|].
  split; [apply homValue_floor; lia|].
  split; [apply homValue_nonneg; lia|].
  destruct (homBoxes_packing l w L W 0 0) as [Hp <-]; try lia.
  apply barnes_sound; (done || lia).
Qed.

Lemma seed_bounds_ordered_witness :
  ∃ lo ub, lowerBoundH 8 7 3 2 = Ok lo ∧ barnesBound 8 7 3 2 = Ok ub ∧
           lo = Z.max ((8 / 3) * (7 / 2)) ((8 / 2) * (7 / 3)) ∧
           0 <= lo <= ub.
Proof. apply (seed_bounds_ordered 8 7 3 2); unfold sideLimit; lia. Defined.

(** X6: the products of [barnesBound] are products of [int]: for the sides
    50000 and the box 20000 x 20000 they wrap and the bound is negative,
    and for the box 65536 x 65536 the product [l * w] wraps to 0 and is a
    divisor, which leaves [barnesBound], and [pack] with it, without a
    result. *)
Theorem barnesBound_wraps :
  barnesBound 50000 50000 20000 20000 = Ok (-5) ∧
  barnesBound 1 1 65536 65536 = Undef ∧
  Pack.pack 1 1 65536 65536 = Undef.
Proof. repeat split; vm_compute; reflexivity. Qed.

(** X7: for positive box sides of at most [sideLimit] and a pallet with
    [0 < W <= L <= sideLimit], [initialize] builds its tables: the raster
    points [normalSetX] are strictly ascending, lie between 0 and [L + 1]
    and end with the sentinel [L + 1], and [indexX] sends each raster point
    to its position and nothing else anywhere. *)
Theorem initialize_indexes L W l w N :
  0 < l <= sideLimit → 0 < w <= sideLimit → 0 < W → W <= L → L <= sideLimit →
  ∃ t, initialize N L W l w = Ok t ∧
       asc (normalSetX t) ∧
       (∀ p, p ∈ normalSetX t → 0 <= p <= L + 1) ∧
       list.last (normalSetX t) = Some (L + 1) ∧
       ∀ p k, indexX t !! p = Some k ↔
              0 <= k ∧ normalSetX t !! Z.to_nat k = Some p.
Proof.
  intros Hl Hw HW HWL HL.
  destruct (initialize_spec L W l w N) as (t&Ht&Hok); try lia.
  exists t. split; [done|]. pose proof (io_asc _ _ _ _ _ _ Hok) as Hasc.
  split; [done|].
  destruct (points_within L W l w HW HWL (normalize t) (normalSetX t)) as [Hx _].
  { apply Hok. }
  { apply Hok. }
  split; [done|]. split; [|apply Hok].
  assert (L + 1 ∈ normalSetX t) as Hin by (apply Hok; by left).
  destruct (list.last (normalSetX t)) as [p|] eqn:Hlast.
  - pose proof (asc_last_max _ _ _ Hasc Hlast Hin).
    assert (p ∈ normalSetX t) as Hp.
    { rewrite last_lookup in Hlast. by eapply list_elem_of_lookup_2. }
    apply Hx in Hp. f_equal. lia.
  - apply last_None in Hlast. rewrite Hlast in Hin. by apply elem_of_nil in Hin.
Qed.

Lemma initialize_indexes_witness :
  ∃ t, initialize 2 8 7 3 2 = Ok t ∧
       asc (normalSetX t) ∧
       (∀ p, p ∈ normalSetX t → 0 <= p <= 8 + 1) ∧
       list.last (normalSetX t) = Some (8 + 1) ∧
       ∀ p k, indexX t !! p = Some k ↔
              0 <= k ∧ normalSetX t !! Z.to_nat k = Some p.
Proof. apply (initialize_indexes 8 7 3 2 2); unfold sideLimit; lia. Defined.

End BoundsSpec.

(** * The reconstruction of draw_bd.cpp and draw.cpp *)

Section DrawSpec.
Import Sets Bounds FiveBlock DrawBD Pack.

(** X8: on a canvas whose first rows hold the boxes [bs0] and that has room
    for the block, [drawHomogeneous] for a block [x] by [y] at the offset
    [(dx, dy)] appends the boxes of the better of the two grids: they have
    the sides of the box, lie in the block, have disjoint interiors, and
    their number is [max ((x / l) * (y / w), (x / w) * (y / l))]. *)
Theorem drawHomogeneous_fills l w x y dx dy c bs0 :
  0 < l → 0 < w → 0 <= x → 0 <= y →
  Filled c bs0 →
  Z.of_nat (length bs0) + Z.max ((x / l) * (y / w)) ((x / w) * (y / l))
    <= Z.of_nat (length (ptoRet c)) →
  ∃ bs c', drawHomogeneous l w x y dx dy c = Ok c' ∧
           Filled c' (bs0 ++ bs) ∧
           PackingAt dx dy x y l w bs ∧
           Z.of_nat (length bs) = Z.max ((x / l) * (y / w)) ((x / w) * (y / l)).
Proof.
  intros Hl Hw Hx Hy Hc Hroom.
  destruct (homBoxes_packing l w x y dx dy Hl Hw Hx Hy) as [Hp Hlen].
  rewrite homValue_floor in Hlen by lia.
  destruct (putBoxes_Filled (homBoxes l w x y dx dy) c bs0 Hc) as (c'&Hrun&Hf&_); [lia|].
  exists (homBoxes l w x y dx dy), c'. rewrite drawHomogeneous_puts by done. done.
Qed.

Lemma drawHomogeneous_fills_witness :
  ∃ bs c', drawHomogeneous 3 2 8 7 0 0 (mkCanvas (replicate 8 None) 0) = Ok c' ∧
           Filled c' ([] ++ bs) ∧
           PackingAt 0 0 8 7 3 2 bs ∧
           Z.of_nat (length bs) = Z.max ((8 / 3) * (7 / 2)) ((8 / 2) * (7 / 3)).
Proof.
  apply (drawHomogeneous_fills 3 2 8 7 0 0 (mkCanvas (replicate 8 None) 0) []);
    try lia.
  - apply Filled_nil.
  - vm_compute. discriminate.
Defined.

(** X9: while the coordinates of a row of [ptoRet] stay below [2^23], the
    [float] arithmetic of [MakeJsonString] is exact: the object holds the
    centre of the row, [(r0 + r2) / 2] and [(r1 + r3) / 2], under "x" and
    "y" when the sides of the pallet were exchanged and under "y" and "x"
    otherwise. *)
Theorem MakeJsonString_centre_exact l w swap r0 r1 r2 r3 p :
  0 <= r0 <= r2 → r2 < 2 ^ 23 → 0 <= r1 <= r3 → r3 < 2 ^ 23 →
  jsonObject l w swap (Some (r0, r1, r2, r3)) = Ok p →
  box p = (r0, r1, r2, r3) ∧
  (x2 p, y2 p) = if swap then (r0 + r2, r1 + r3) else (r1 + r3, r0 + r2).
Proof.
  intros H0 H2 H1 H3. cbn [jsonObject]. intros [= <-]. split; [done|].
  cbn [x2 y2].
  rewrite (roundFloat_small r0), (roundFloat_small r1),
    (roundFloat_small r2), (roundFloat_small r3) by lia.
  rewrite (roundFloat_small (r2 - r0)), (roundFloat_small (r3 - r1)) by lia.
  rewrite (roundFloat_small (r2 - r0 + 2 * r0)),
    (roundFloat_small (r3 - r1 + 2 * r1)) by lia.
  destruct swap; f_equal; lia.
Qed.

Lemma MakeJsonString_centre_exact_witness :
  ∃ p, jsonObject 3 2 false (Some (3, 2, 6, 4)) = Ok p ∧
       box p = (3, 2, 6, 4) ∧ (x2 p, y2 p) = (2 + 4, 3 + 6).
Proof.
  eexists. split; [reflexivity|].
  apply (MakeJsonString_centre_exact 3 2 false 3 2 6 4); (lia || reflexivity).
Defined.

(** X10: from [2^23] on the centres are rounded to [float]: the unit boxes
    at the abscissae 8388609 and 8388610, neighbours in a row of a pallet,
    get the same centre 8388610 (twice the centre is kept). *)
Theorem MakeJsonString_centre_rounds :
  ∃ p q, jsonObject 1 1 true (Some (8388609, 0, 8388610, 1)) = Ok p ∧
         jsonObject 1 1 true (Some (8388610, 0, 8388611, 1)) = Ok q ∧
         box p ≠ box q ∧
         x2 p = 2 * 8388610 ∧ x2 q = 2 * 8388610 ∧ y2 p = 1 ∧ y2 q = 1.
Proof.
  eexists _, _. split; [reflexivity|]. split; [reflexivity|].
  split; [discriminate|]. repeat split; vm_compute; reflexivity.
Qed.

End DrawSpec.

(** * The pieces of util.cpp *)

Section PieceSpec.
Import LPiece.



End PieceSpec.

